(** * Open3D tensor registration kernels: reductions, 3x3 SVD solver,
      point-wise estimators

    Shallow embedding of
      - cpp/open3d/t/pipelines/kernel/ComputeTransformCPU.cpp
      - cpp/open3d/t/pipelines/kernel/SVD3x3CUDA.cuh
      - the point-cloud kernels ProjectCPU,
        EstimatePointWiseColorGradientCPU and
        EstimatePointWiseCovarianceCPU.

    Numeric convention.  The kernels are templates over [scalar_t] (float
    or double); of [svd], only the float specialisation is modelled.
    Here [scalar_t] is read as the field of real numbers [R]:
    every [+], [-], [*], [/] of the source is the exact operation, so the
    development speaks about the algebraic content of the kernels and
    leaves rounding out.  Integer data (correspondence and neighbour
    indices, counters) are [Z] and [nat]; signed overflow is undefined in
    C++, so index arithmetic is unbounded [Z] arithmetic. *)

From Stdlib Require Import Reals Lra Lia ZArith List Bool RNsatz.
From Stdlib Require Import Permutation.
Import ListNotations.

Open Scope R_scope.

(** ** Raw arrays *)

(** [p[i]] for a [const scalar_t *p]. Reads are meant in bounds. *)
Definition rd (p : list R) (i : Z) : R := nth (Z.to_nat i) p 0.

(** [p[i]] for a [const int64_t *p]. *)
Definition rdi (p : list Z) (i : Z) : Z := nth (Z.to_nat i) p 0%Z.

(** [v[k]] for a small fixed-size buffer ([std::vector<scalar_t>],
    [scalar_t J[6]], ...). *)
Definition at_ (v : list R) (k : nat) : R := nth k v 0.

Notation "v .[ k ]" := (at_ v k) (at level 1, format "v .[ k ]").

(** [std::vector<scalar_t>(n, 0.0)]. *)
Definition zeros (n : nat) : list R := repeat 0 n.

(** The TBB join lambda
      [result[j] = a[j] + b[j]] for [j < n],
    which is also what the unrolled [A[k] += e_k] statements and the
    OpenMP [reduction(+ : A[:n])] clause do entry by entry. *)
Definition vadd (n : nat) (a b : list R) : list R :=
  map (fun j => a.[j] + b.[j]) (seq 0 n).

(** Finite sums of reals, used on the specification side. *)
Definition sumR (l : list R) : R := fold_right Rplus 0 l.

(** [static_cast<int>(x)]: truncation toward zero. *)
Definition trunc (x : R) : Z :=
  if Rle_dec 0 x then Int_part x else (- Int_part (- x))%Z.

(** ** Parallel reduction

    [tbb::parallel_reduce(blocked_range<int>(0, n), identity, body, join)]
    splits the range recursively, folds every leaf range sequentially from
    the identity and joins partial results.  A [schedule] records one such
    splitting: [Split k l r] cuts the current range after its first
    [min k len] indices.  The OpenMP reduction follows the same scheme with
    per-thread private copies.  Every statement below is quantified over
    the schedule. *)

Inductive schedule : Type :=
| Serial : schedule
| Split : nat -> schedule -> schedule -> schedule.

Fixpoint parallel_reduce {Acc : Type} (s : schedule) (lo len : nat)
    (identity : Acc) (body : Acc -> nat -> Acc) (join : Acc -> Acc -> Acc)
    : Acc :=
  match s with
  | Serial => fold_left body (seq lo len) identity
  | Split k l r =>
      let k' := Nat.min k len in
      join (parallel_reduce l lo k' identity body join)
           (parallel_reduce r (lo + k') (len - k') identity body join)
  end.

(** ** ComputeTransformCPU.cpp: point-to-plane and colored ICP *)

(** The robust kernel selected by DISPATCH_ROBUST_KERNEL_FUNCTION is a
    weight function [op : residual -> weight]. *)
Definition robust_kernel : Type := R -> R.

(** Numeric part of the point-to-plane evaluator: Jacobian row (6
    entries) and residual of observation [workload_idx], and the evaluator's
    own domain check. *)
Record PointToPlaneEvaluator : Type := {
  p2p_J : list R -> list R -> list R -> list Z -> nat -> list R;
  p2p_r : list R -> list R -> list R -> list Z -> nat -> R;
  p2p_domain_ok : list R -> list R -> list R -> list Z -> nat -> bool
}.

(** Modelled from the spec: [GetJacobianPointToPlane] lives in
    ComputeTransformImpl.h, which is not among the sources.  The evaluator
    is invalid when the correspondence of the observation is the sentinel
    -1 (it then leaves [J_ij = {0}] and [r = 0] as the caller initialised
    them) or on another domain-specific invalidity; otherwise it yields the
    Jacobian and residual of the point-to-plane distance. *)
Definition GetJacobianPointToPlane (ev : PointToPlaneEvaluator)
    (workload_idx : nat)
    (source_points target_points target_normals : list R)
    (correspondence_indices : list Z) : bool * list R * R :=
  if (rdi correspondence_indices (Z.of_nat workload_idx) =? -1)%Z
  then (false, zeros 6, 0)
  else (p2p_domain_ok ev source_points target_points target_normals
          correspondence_indices workload_idx,
        p2p_J ev source_points target_points target_normals
          correspondence_indices workload_idx,
        p2p_r ev source_points target_points target_normals
          correspondence_indices workload_idx).

(** Loop body of [ComputePosePointToPlaneKernelCPU]: the 29 statements
    [A[k] += ...], guarded by [valid]. *)
Definition PointToPlaneBody (ev : PointToPlaneEvaluator) (op : robust_kernel)
    (source_points target_points target_normals : list R)
    (correspondence_indices : list Z)
    (A : list R) (workload_idx : nat) : list R :=
  let '(valid, J_ij, r) :=
    GetJacobianPointToPlane ev workload_idx source_points target_points
      target_normals correspondence_indices in
  let w := op r in
  if valid then
    vadd 29 A
      [ J_ij.[0] * w * J_ij.[0];
        J_ij.[1] * w * J_ij.[0];
        J_ij.[1] * w * J_ij.[1];
        J_ij.[2] * w * J_ij.[0];
        J_ij.[2] * w * J_ij.[1];
        J_ij.[2] * w * J_ij.[2];
        J_ij.[3] * w * J_ij.[0];
        J_ij.[3] * w * J_ij.[1];
        J_ij.[3] * w * J_ij.[2];
        J_ij.[3] * w * J_ij.[3];
        J_ij.[4] * w * J_ij.[0];
        J_ij.[4] * w * J_ij.[1];
        J_ij.[4] * w * J_ij.[2];
        J_ij.[4] * w * J_ij.[3];
        J_ij.[4] * w * J_ij.[4];
        J_ij.[5] * w * J_ij.[0];
        J_ij.[5] * w * J_ij.[1];
        J_ij.[5] * w * J_ij.[2];
        J_ij.[5] * w * J_ij.[3];
        J_ij.[5] * w * J_ij.[4];
        J_ij.[5] * w * J_ij.[5];
        J_ij.[0] * w * r;
        J_ij.[1] * w * r;
        J_ij.[2] * w * r;
        J_ij.[3] * w * r;
        J_ij.[4] * w * r;
        J_ij.[5] * w * r;
        r * r;
        1 ]
  else A.

(** [ComputePosePointToPlaneKernelCPU]: reduce over [0, n), then copy the
    29 entries to [global_sum]. *)
Definition ComputePosePointToPlaneKernelCPU (ev : PointToPlaneEvaluator)
    (op : robust_kernel) (s : schedule)
    (source_points target_points target_normals : list R)
    (correspondence_indices : list Z) (n : nat) : list R :=
  let A_1x29 :=
    parallel_reduce s 0 n (zeros 29)
      (PointToPlaneBody ev op source_points target_points target_normals
         correspondence_indices)
      (vadd 29) in
  map (fun i => A_1x29.[i]) (seq 0 29).

(** The tensors and balance coefficients handed to the colored-ICP
    kernel. *)
Record ColoredICPInputs : Type := {
  source_points_ptr : list R;
  source_colors_ptr : list R;
  target_points_ptr : list R;
  target_normals_ptr : list R;
  target_colors_ptr : list R;
  target_color_gradients_ptr : list R;
  sqrt_lambda_geometric : R;
  sqrt_lambda_photometric : R
}.

(** Numeric part of the colored-ICP evaluator: geometric and photometric
    Jacobian rows and residuals, and the evaluator's own domain check. *)
Record ColoredICPEvaluator : Type := {
  cicp_J_G : ColoredICPInputs -> list Z -> nat -> list R;
  cicp_J_I : ColoredICPInputs -> list Z -> nat -> list R;
  cicp_r_G : ColoredICPInputs -> list Z -> nat -> R;
  cicp_r_I : ColoredICPInputs -> list Z -> nat -> R;
  cicp_domain_ok : ColoredICPInputs -> list Z -> nat -> bool
}.

(** Modelled from the spec: [GetJacobianColoredICP] (ComputeTransformImpl.h,
    not among the sources) skips an observation whose correspondence is the
    sentinel -1 and otherwise yields the two Jacobian/residual pairs. *)
Definition GetJacobianColoredICP (ev : ColoredICPEvaluator)
    (workload_idx : nat) (inp : ColoredICPInputs)
    (correspondence_indices : list Z)
    : bool * list R * list R * R * R :=
  if (rdi correspondence_indices (Z.of_nat workload_idx) =? -1)%Z
  then (false, zeros 6, zeros 6, 0, 0)
  else (cicp_domain_ok ev inp correspondence_indices workload_idx,
        cicp_J_G ev inp correspondence_indices workload_idx,
        cicp_J_I ev inp correspondence_indices workload_idx,
        cicp_r_G ev inp correspondence_indices workload_idx,
        cicp_r_I ev inp correspondence_indices workload_idx).

(** Loop body of [ComputePoseColoredICPKernelCPU]. *)
Definition ColoredICPBody (ev : ColoredICPEvaluator) (op : robust_kernel)
    (inp : ColoredICPInputs) (correspondence_indices : list Z)
    (A : list R) (workload_idx : nat) : list R :=
  let '(valid, J_G, J_I, r_G, r_I) :=
    GetJacobianColoredICP ev workload_idx inp correspondence_indices in
  let w_G := op r_G in
  let w_I := op r_I in
  if valid then
    vadd 29 A
      [ J_G.[0] * w_G * J_G.[0] + J_I.[0] * w_I * J_I.[0];
        J_G.[1] * w_G * J_G.[0] + J_I.[1] * w_I * J_I.[0];
        J_G.[1] * w_G * J_G.[1] + J_I.[1] * w_I * J_I.[1];
        J_G.[2] * w_G * J_G.[0] + J_I.[2] * w_I * J_I.[0];
        J_G.[2] * w_G * J_G.[1] + J_I.[2] * w_I * J_I.[1];
        J_G.[2] * w_G * J_G.[2] + J_I.[2] * w_I * J_I.[2];
        J_G.[3] * w_G * J_G.[0] + J_I.[3] * w_I * J_I.[0];
        J_G.[3] * w_G * J_G.[1] + J_I.[3] * w_I * J_I.[1];
        J_G.[3] * w_G * J_G.[2] + J_I.[3] * w_I * J_I.[2];
        J_G.[3] * w_G * J_G.[3] + J_I.[3] * w_I * J_I.[3];
        J_G.[4] * w_G * J_G.[0] + J_I.[4] * w_I * J_I.[0];
        J_G.[4] * w_G * J_G.[1] + J_I.[4] * w_I * J_I.[1];
        J_G.[4] * w_G * J_G.[2] + J_I.[4] * w_I * J_I.[2];
        J_G.[4] * w_G * J_G.[3] + J_I.[4] * w_I * J_I.[3];
        J_G.[4] * w_G * J_G.[4] + J_I.[4] * w_I * J_I.[4];
        J_G.[5] * w_G * J_G.[0] + J_I.[5] * w_I * J_I.[0];
        J_G.[5] * w_G * J_G.[1] + J_I.[5] * w_I * J_I.[1];
        J_G.[5] * w_G * J_G.[2] + J_I.[5] * w_I * J_I.[2];
        J_G.[5] * w_G * J_G.[3] + J_I.[5] * w_I * J_I.[3];
        J_G.[5] * w_G * J_G.[4] + J_I.[5] * w_I * J_I.[4];
        J_G.[5] * w_G * J_G.[5] + J_I.[5] * w_I * J_I.[5];
        J_G.[0] * w_G * r_G + J_I.[0] * w_I * r_I;
        J_G.[1] * w_G * r_G + J_I.[1] * w_I * r_I;
        J_G.[2] * w_G * r_G + J_I.[2] * w_I * r_I;
        J_G.[3] * w_G * r_G + J_I.[3] * w_I * r_I;
        J_G.[4] * w_G * r_G + J_I.[4] * w_I * r_I;
        J_G.[5] * w_G * r_G + J_I.[5] * w_I * r_I;
        r_G * r_G + r_I * r_I;
        1 ]
  else A.

(** [ComputePoseColoredICPKernelCPU]. *)
Definition ComputePoseColoredICPKernelCPU (ev : ColoredICPEvaluator)
    (op : robust_kernel) (s : schedule) (inp : ColoredICPInputs)
    (correspondence_indices : list Z) (n : nat) : list R :=
  let A_1x29 :=
    parallel_reduce s 0 n (zeros 29)
      (ColoredICPBody ev op inp correspondence_indices) (vadd 29) in
  map (fun i => A_1x29.[i]) (seq 0 29).

(** Modelled from the spec: [DecodeAndSolve6x6] (ComputeTransformImpl.h,
    not among the sources).  It rebuilds the symmetric 6x6 matrix from the
    21 packed entries (entry (a,b), a >= b, at [a*(a+1)/2+b]), hands it with
    the 6 right-hand-side entries to a general small dense solver, and
    reports entry 27 as the residual and entry 28 as the inlier count.  The
    dense solver together with the pose conversion is the parameter
    [Solve6x6]. *)
Definition DecodeAndSolve6x6 (Solve6x6 : list (list R) -> list R -> list R)
    (A_reduction : list R) : list R * R * Z :=
  let AtA :=
    map (fun a =>
           map (fun b =>
                  if (b <=? a)%nat
                  then A_reduction.[a * (a + 1) / 2 + b]
                  else A_reduction.[b * (b + 1) / 2 + a])
               (seq 0 6))
        (seq 0 6) in
  let Atb := map (fun j => A_reduction.[21 + j]) (seq 0 6) in
  (Solve6x6 AtA Atb, A_reduction.[27], trunc A_reduction.[28]).

(** [source_points.GetLength()] of an {N,3} tensor stored flat. *)
Definition GetLength (points : list R) : nat := (length points / 3)%nat.

(** [ComputePosePointToPlaneCPU]: returns (pose, residual, inlier_count). *)
Definition ComputePosePointToPlaneCPU
    (Solve6x6 : list (list R) -> list R -> list R)
    (ev : PointToPlaneEvaluator) (kernel : robust_kernel) (s : schedule)
    (source_points target_points target_normals : list R)
    (correspondence_indices : list Z) : list R * R * Z :=
  let n := GetLength source_points in
  let global_sum :=
    ComputePosePointToPlaneKernelCPU ev kernel s source_points target_points
      target_normals correspondence_indices n in
  DecodeAndSolve6x6 Solve6x6 global_sum.

(** [ComputePoseColoredICPCPU]. *)
Definition ComputePoseColoredICPCPU
    (Solve6x6 : list (list R) -> list R -> list R)
    (ev : ColoredICPEvaluator) (kernel : robust_kernel) (s : schedule)
    (inp : ColoredICPInputs) (correspondence_indices : list Z)
    : list R * R * Z :=
  let n := GetLength (source_points_ptr inp) in
  let global_sum :=
    ComputePoseColoredICPKernelCPU ev kernel s inp correspondence_indices n in
  DecodeAndSolve6x6 Solve6x6 global_sum.

(** ** ComputeTransformCPU.cpp: point-to-point (SVD route) *)

(** Divisions are executed without any guard.  To speak about their
    divisors the point-to-point code runs in a writer monad that records
    the divisor of every division, in program order. *)
Definition Traced (A : Type) : Type := (A * list R)%type.

Definition ret {A : Type} (a : A) : Traced A := (a, []).

Definition bind {A B : Type} (m : Traced A) (f : A -> Traced B) : Traced B :=
  let (a, t1) := m in
  let (b, t2) := f a in
  (b, t1 ++ t2).

Notation "x <- m ;; k" := (bind m (fun x => k))
  (at level 61, m at next level, right associativity).

(** [x / y], recorded. *)
Definition divide (x y : R) : Traced R := (x / y, [y]).

Fixpoint mapT {A B : Type} (f : A -> Traced B) (l : list A)
    : Traced (list B) :=
  match l with
  | [] => ret []
  | a :: l' => b <- f a ;; bs <- mapT f l' ;; ret (b :: bs)
  end.

Definition value {A : Type} (m : Traced A) : A := fst m.
Definition divisors {A : Type} (m : Traced A) : list R := snd m.

(** First pass of [Get3x3SxyLinearSystem]: sums of the source and target
    coordinates and the number of correspondences. *)
Definition MeanBody (source_points_ptr target_points_ptr : list R)
    (correspondence_indices : list Z)
    (mean_reduction : list R) (workload_idx : nat) : list R :=
  if negb (rdi correspondence_indices (Z.of_nat workload_idx) =? -1)%Z then
    let target_idx :=
      (3 * rdi correspondence_indices (Z.of_nat workload_idx))%Z in
    vadd 7 mean_reduction
      [ rd source_points_ptr (3 * Z.of_nat workload_idx);
        rd source_points_ptr (3 * Z.of_nat workload_idx + 1);
        rd source_points_ptr (3 * Z.of_nat workload_idx + 2);
        rd target_points_ptr target_idx;
        rd target_points_ptr (target_idx + 1);
        rd target_points_ptr (target_idx + 2);
        1 ]
  else mean_reduction.

(** Second pass: the 9 products of centred coordinates,
    [row = i % 3], [col = i / 3]. *)
Definition SxyBody (source_points_ptr target_points_ptr : list R)
    (correspondence_indices : list Z) (mean_1x7 : list R)
    (sxy_1x9_reduction : list R) (workload_idx : nat) : list R :=
  if negb (rdi correspondence_indices (Z.of_nat workload_idx) =? -1)%Z then
    vadd 9 sxy_1x9_reduction
      (map (fun i =>
              let row := (i mod 3)%nat in
              let col := (i / 3)%nat in
              let source_idx :=
                (3 * Z.of_nat workload_idx + Z.of_nat row)%Z in
              let target_idx :=
                (3 * rdi correspondence_indices (Z.of_nat workload_idx)
                 + Z.of_nat col)%Z in
              (rd source_points_ptr source_idx - mean_1x7.[row]) *
              (rd target_points_ptr target_idx - mean_1x7.[3 + col]))
           (seq 0 9))
  else sxy_1x9_reduction.

(** [Get3x3SxyLinearSystem]: returns (Sxy, mean_t, mean_s, inlier_count).
    [s1] and [s2] are the schedules of the two reductions. *)
Definition Get3x3SxyLinearSystem (s1 s2 : schedule)
    (source_points_ptr target_points_ptr : list R)
    (correspondence_indices : list Z) (n : nat)
    : Traced (list R * list R * list R * Z) :=
  let mean_1x7 :=
    parallel_reduce s1 0 n (zeros 7)
      (MeanBody source_points_ptr target_points_ptr correspondence_indices)
      (vadd 7) in
  means <- mapT (fun i => divide mean_1x7.[i] mean_1x7.[6]) (seq 0 6) ;;
  let mean_1x7 := means ++ [mean_1x7.[6]] in
  let sxy_1x9 :=
    parallel_reduce s2 0 n (zeros 9)
      (SxyBody source_points_ptr target_points_ptr correspondence_indices
         mean_1x7)
      (vadd 9) in
  Sxy <- mapT (fun i => divide sxy_1x9.[i] mean_1x7.[6]) (seq 0 9) ;;
  let mean_s := map (fun j => mean_1x7.[j]) (seq 0 3) in
  let mean_t := map (fun j => mean_1x7.[j + 3]) (seq 0 3) in
  let inlier_count := trunc mean_1x7.[6] in
  ret (Sxy, mean_t, mean_s, inlier_count).

(** *** 3x3 tensors (row-major, 9 entries) *)

(** Modelled from the spec: [Tensor::Eye], [Tensor::T], [Tensor::Det],
    [Tensor::Matmul] belong to the tensor library, which is not among the
    sources; on 3x3 operands they are the identity, the transpose, the
    determinant and the matrix product. *)
Definition Eye3 : list R := [1; 0; 0; 0; 1; 0; 0; 0; 1].

Definition T33 (a : list R) : list R :=
  [a.[0]; a.[3]; a.[6]; a.[1]; a.[4]; a.[7]; a.[2]; a.[5]; a.[8]].

Definition Det33 (a : list R) : R :=
  a.[0] * (a.[4] * a.[8] - a.[5] * a.[7])
  - a.[1] * (a.[3] * a.[8] - a.[5] * a.[6])
  + a.[2] * (a.[3] * a.[7] - a.[4] * a.[6]).

Definition Matmul33 (a b : list R) : list R :=
  map (fun i =>
         let j := (i / 3)%nat in
         let k := (i mod 3)%nat in
         a.[3 * j] * b.[k] + a.[3 * j + 1] * b.[3 + k]
         + a.[3 * j + 2] * b.[6 + k])
      (seq 0 9).

Definition Matvec33 (a v : list R) : list R :=
  map (fun j => a.[3 * j] * v.[0] + a.[3 * j + 1] * v.[1]
                + a.[3 * j + 2] * v.[2])
      (seq 0 3).

Definition vsub3 (a b : list R) : list R :=
  map (fun j => a.[j] - b.[j]) (seq 0 3).

(** [diag(1, 1, d)]. *)
Definition Diag11 (d : R) : list R := [1; 0; 0; 0; 1; 0; 0; 0; d].

(** [diag(d0, d1, d2)]. *)
Definition Diag3 (d : list R) : list R :=
  [d.[0]; 0; 0; 0; d.[1]; 0; 0; 0; d.[2]].

(** The generic [Tensor::SVD] (LAPACK behind the tensor library) is a
    parameter: it returns (U, D, VT). *)
Definition svd_routine : Type := list R -> list R * list R * list R.

(** What an SVD routine guarantees on the matrix [A]: orthogonal factors
    whose product with the singular values gives [A] back. *)
Definition is_svd_of (A : list R) (UDV : list R * list R * list R) : Prop :=
  let '(U, D, VT) := UDV in
  Matmul33 (T33 U) U = Eye3 /\
  Matmul33 VT (T33 VT) = Eye3 /\
  Matmul33 U (Matmul33 (Diag3 D) VT) = map (fun i => A.[i]) (seq 0 9).

(** [ComputeRtPointToPointCPU]: returns (R, t, inlier_count). *)
Definition ComputeRtPointToPointCPU (SVD : svd_routine) (s1 s2 : schedule)
    (source_points target_points : list R) (corres : list Z)
    : Traced (list R * list R * Z) :=
  let n := GetLength source_points in
  r <- Get3x3SxyLinearSystem s1 s2 source_points target_points corres n ;;
  let '(Sxy, mean_t, mean_s, inlier_count) := r in
  let '(U, D, VT) := SVD Sxy in
  let S := if Rlt_dec (Det33 U * Det33 (T33 VT)) 0 then Diag11 (-1)
           else Eye3 in
  let R := Matmul33 U (Matmul33 S VT) in
  let t := vsub3 mean_t (Matvec33 R mean_s) in
  ret (R, t, inlier_count).

(** ** SVD3x3CUDA.cuh: closed-form 3x3 SVD

    This is a model of the float specialisation, [svd<float>], and of
    [solve_svd3x3] instantiated at float.  A [un<float>] register is read
    as the number it holds; its [ui] view covers the whole 32-bit
    register, so the bit operations are read as what they do on it: an
    all-ones/zero mask is a boolean, [mask & x] keeps [x] or gives [0],
    [(mask & x) | (~mask & y)] selects, and the XOR triple is a
    conditional swap.

    The double specialisation, [svd<double>], is NOT modelled.  Its text
    differs only by the names of the rounding intrinsics, but in
    [un<double>] the [unsigned int ui] view covers only 32 of the 64 bits
    of the register, so every mask, select and swap acts on half a
    register and the float constants are or-ed into half a double; that
    behaviour depends on the memory layout and is outside a model over the
    reals.  Nothing below is stated about [svd<double>]. *)

Definition gone : R := 1.
Definition gsine_pi_over_eight : R := 12840725 / 33554432.
Definition gcosine_pi_over_eight : R := 15500127 / 16777216.
Definition gone_half : R := 0.5.
Definition gsmall_number : R := 1e-12.
Definition gtiny_number : R := 1e-20.
Definition gfour_gamma_squared : R := 5.8284273147583007813.

Definition Rgeb (x y : R) : bool := if Rge_dec x y then true else false.
Definition Rleb (x y : R) : bool := if Rle_dec x y then true else false.
Definition Rltb (x y : R) : bool := if Rlt_dec x y then true else false.

(** [(mask & x) | (~mask & y)]. *)
Definition sel (mask : bool) (x y : R) : R := if mask then x else y.

(** The XOR swap under a mask. *)
Definition cswap (mask : bool) (x y : R) : R * R :=
  if mask then (y, x) else (x, y).

(** [__frsqrt_rn(x)]. *)
Definition rsqrt (x : R) : R := / sqrt x.

(** Reciprocal square root followed by the Newton correction that the
    source spells out through Stmp1..Stmp4. *)
Definition rsqrt_refined (Stmp2 : R) : R :=
  let Stmp1 := rsqrt Stmp2 in
  let Stmp4 := Stmp1 * gone_half in
  let Stmp3 := Stmp1 * Stmp4 in
  let Stmp3 := Stmp1 * Stmp3 in
  let Stmp3 := Stmp2 * Stmp3 in
  let Stmp1 := Stmp1 + Stmp4 in
  let Stmp1 := Stmp1 - Stmp3 in
  Stmp1.

(** Registers of the symmetric eigenproblem: the lower triangle of
    S = At A and the accumulated rotation as a quaternion. *)
Record jacobi_state : Type := mk_jacobi {
  Ss11 : R; Ss21 : R; Ss31 : R; Ss22 : R; Ss32 : R; Ss33 : R;
  Sqvs : R; Sqvvx : R; Sqvvy : R; Sqvvz : R
}.

(** "Compute normal equations matrix", quaternion set to the identity. *)
Definition normal_equations (a11 a12 a13 a21 a22 a23 a31 a32 a33 : R)
    : jacobi_state :=
  {| Ss11 := a31 * a31 + (a21 * a21 + a11 * a11);
     Ss21 := a32 * a31 + (a22 * a21 + a12 * a11);
     Ss31 := a33 * a31 + (a23 * a21 + a13 * a11);
     Ss22 := a32 * a32 + (a22 * a22 + a12 * a12);
     Ss32 := a33 * a32 + (a23 * a22 + a13 * a12);
     Ss33 := a33 * a33 + (a23 * a23 + a13 * a13);
     Sqvs := 1; Sqvvx := 0; Sqvvy := 0; Sqvvz := 0 |}.

(** One Jacobi conjugation of [svd<float>].  The loop body of the source
    holds this block three times, unrolled, with the registers renamed
    cyclically;
    the arguments are named after the first copy: [s_pq] is Ss21, [s_pp]
    Ss11, [s_qq] Ss22, [s_rp] Ss31, [s_rq] Ss32, [s_rr] Ss33, and
    [(qa, qb, qc)] is (Sqvvx, Sqvvy, Sqvvz). *)
Definition jacobi_conjugation (s_pq s_pp s_qq s_rp s_rq s_rr qs qa qb qc : R)
    : R * R * R * R * R * R * R * R * R * R :=
  let Ssh := s_pq * gone_half in
  let Stmp5 := s_pp - s_qq in
  let Stmp2 := Ssh * Ssh in
  let mask := Rgeb Stmp2 gtiny_number in
  let Ssh := sel mask Ssh 0 in
  let Sch := sel mask Stmp5 gone in
  let Stmp1 := Ssh * Ssh in
  let Stmp2 := Sch * Sch in
  let Stmp3 := Stmp1 + Stmp2 in
  let Stmp4 := rsqrt Stmp3 in
  let Ssh := Stmp4 * Ssh in
  let Sch := Stmp4 * Sch in
  let Stmp1 := gfour_gamma_squared * Stmp1 in
  let mask := Rleb Stmp2 Stmp1 in
  let Ssh := sel mask gsine_pi_over_eight Ssh in
  let Sch := sel mask gcosine_pi_over_eight Sch in
  let Stmp1 := Ssh * Ssh in
  let Stmp2 := Sch * Sch in
  let Sc := Stmp2 - Stmp1 in
  let Ss := Sch * Ssh in
  let Ss := Ss + Ss in
  (* Perform the actual Givens conjugation *)
  let Stmp3 := Stmp1 + Stmp2 in
  let s_rr := s_rr * Stmp3 in
  let s_rp := s_rp * Stmp3 in
  let s_rq := s_rq * Stmp3 in
  let s_rr := s_rr * Stmp3 in
  let Stmp1 := Ss * s_rp in
  let Stmp2 := Ss * s_rq in
  let s_rp := Sc * s_rp in
  let s_rq := Sc * s_rq in
  let s_rp := Stmp2 + s_rp in
  let s_rq := s_rq - Stmp1 in
  let Stmp2 := Ss * Ss in
  let Stmp1 := s_qq * Stmp2 in
  let Stmp3 := s_pp * Stmp2 in
  let Stmp4 := Sc * Sc in
  let s_pp := s_pp * Stmp4 in
  let s_qq := s_qq * Stmp4 in
  let s_pp := s_pp + Stmp1 in
  let s_qq := s_qq + Stmp3 in
  let Stmp4 := Stmp4 - Stmp2 in
  let Stmp2 := s_pq + s_pq in
  let s_pq := s_pq * Stmp4 in
  let Stmp4 := Sc * Ss in
  let Stmp2 := Stmp2 * Stmp4 in
  let Stmp5 := Stmp5 * Stmp4 in
  let s_pp := s_pp + Stmp2 in
  let s_pq := s_pq - Stmp5 in
  let s_qq := s_qq - Stmp2 in
  (* Compute the cumulative rotation, in quaternion form *)
  let Stmp1 := Ssh * qa in
  let Stmp2 := Ssh * qb in
  let Stmp3 := Ssh * qc in
  let Ssh := Ssh * qs in
  let qs := Sch * qs in
  let qa := Sch * qa in
  let qb := Sch * qb in
  let qc := Sch * qc in
  let qc := qc + Ssh in
  let qs := qs - Stmp3 in
  let qa := qa + Stmp2 in
  let qb := qb - Stmp1 in
  (s_pq, s_pp, s_qq, s_rp, s_rq, s_rr, qs, qa, qb, qc).

(** Body of [for (int i = 0; i < 4; i++)]: the conjugations on the pairs
    (Ss21; Ss11, Ss22), (Ss32; Ss22, Ss33) and (Ss31; Ss33, Ss11). *)
Definition jacobi_sweep (st : jacobi_state) : jacobi_state :=
  let '(s21, s11, s22, s31, s32, s33, qs, qx, qy, qz) :=
    jacobi_conjugation (Ss21 st) (Ss11 st) (Ss22 st) (Ss31 st) (Ss32 st)
      (Ss33 st) (Sqvs st) (Sqvvx st) (Sqvvy st) (Sqvvz st) in
  let '(s32, s22, s33, s21, s31, s11, qs, qy, qz, qx) :=
    jacobi_conjugation s32 s22 s33 s21 s31 s11 qs qy qz qx in
  let '(s31, s33, s11, s32, s21, s22, qs, qz, qx, qy) :=
    jacobi_conjugation s31 s33 s11 s32 s21 s22 qs qz qx qy in
  {| Ss11 := s11; Ss21 := s21; Ss31 := s31; Ss22 := s22; Ss32 := s32;
     Ss33 := s33; Sqvs := qs; Sqvvx := qx; Sqvvy := qy; Sqvvz := qz |}.

(** [for (int i = lo; i < hi; i++) st = body(st);] with a body that
    neither writes [i] nor leaves the loop.  The result carries the final
    state, the final value of [i] and the number of times the body ran.
    [fuel] bounds the unfolding; [Z.to_nat (hi - lo)] is enough. *)
Fixpoint for_loop {St : Type} (fuel : nat) (i hi : Z) (body : St -> St)
    (st : St) (ran : nat) : St * Z * nat :=
  match fuel with
  | O => (st, i, ran)
  | S fuel' =>
      if (i <? hi)%Z
      then for_loop fuel' (i + 1)%Z hi body (body st) (S ran)
      else (st, i, ran)
  end.

(** "Solve symmetric eigenproblem using Jacobi iteration". *)
Definition jacobi_eigen (st : jacobi_state) : jacobi_state * Z * nat :=
  for_loop (Z.to_nat (4 - 0)) 0 4 jacobi_sweep st 0.

(** "Normalize quaternion for matrix V" and "Transform quaternion to
    matrix V"; the result is (Sv11, Sv12, Sv13, Sv21, ..., Sv33). *)
Definition quaternion_to_V (st : jacobi_state)
    : R * R * R * R * R * R * R * R * R :=
  let Sqvs := Sqvs st in
  let Sqvvx := Sqvvx st in
  let Sqvvy := Sqvvy st in
  let Sqvvz := Sqvvz st in
  let Stmp2 := Sqvs * Sqvs in
  let Stmp1 := Sqvvx * Sqvvx in
  let Stmp2 := Stmp1 + Stmp2 in
  let Stmp1 := Sqvvy * Sqvvy in
  let Stmp2 := Stmp1 + Stmp2 in
  let Stmp1 := Sqvvz * Sqvvz in
  let Stmp2 := Stmp1 + Stmp2 in
  let Stmp1 := rsqrt_refined Stmp2 in
  let Sqvs := Sqvs * Stmp1 in
  let Sqvvx := Sqvvx * Stmp1 in
  let Sqvvy := Sqvvy * Stmp1 in
  let Sqvvz := Sqvvz * Stmp1 in
  let Stmp1 := Sqvvx * Sqvvx in
  let Stmp2 := Sqvvy * Sqvvy in
  let Stmp3 := Sqvvz * Sqvvz in
  let Sv11 := Sqvs * Sqvs in
  let Sv22 := Sv11 - Stmp1 in
  let Sv33 := Sv22 - Stmp2 in
  let Sv33 := Sv33 + Stmp3 in
  let Sv22 := Sv22 + Stmp2 in
  let Sv22 := Sv22 - Stmp3 in
  let Sv11 := Sv11 + Stmp1 in
  let Sv11 := Sv11 - Stmp2 in
  let Sv11 := Sv11 - Stmp3 in
  let Stmp1 := Sqvvx + Sqvvx in
  let Stmp2 := Sqvvy + Sqvvy in
  let Stmp3 := Sqvvz + Sqvvz in
  let Sv32 := Sqvs * Stmp1 in
  let Sv13 := Sqvs * Stmp2 in
  let Sv21 := Sqvs * Stmp3 in
  let Stmp1 := Sqvvy * Stmp1 in
  let Stmp2 := Sqvvz * Stmp2 in
  let Stmp3 := Sqvvx * Stmp3 in
  let Sv12 := Stmp1 - Sv21 in
  let Sv23 := Stmp2 - Sv32 in
  let Sv31 := Stmp3 - Sv13 in
  let Sv21 := Stmp1 + Sv21 in
  let Sv32 := Stmp2 + Sv32 in
  let Sv13 := Stmp3 + Sv13 in
  (Sv11, Sv12, Sv13, Sv21, Sv22, Sv23, Sv31, Sv32, Sv33).

(** "Multiply (from the right) with V", one row of A. *)
Definition row_times_V (Sa1 Sa2 Sa3 : R)
    (V : R * R * R * R * R * R * R * R * R) : R * R * R :=
  let '(Sv11, Sv12, Sv13, Sv21, Sv22, Sv23, Sv31, Sv32, Sv33) := V in
  let Stmp2 := Sa2 in
  let Stmp3 := Sa3 in
  let Sa2 := Sv12 * Sa1 in
  let Sa3 := Sv13 * Sa1 in
  let Sa1 := Sv11 * Sa1 in
  let Sa1 := Sa1 + Sv21 * Stmp2 in
  let Sa1 := Sa1 + Sv31 * Stmp3 in
  let Sa2 := Sa2 + Sv22 * Stmp2 in
  let Sa2 := Sa2 + Sv32 * Stmp3 in
  let Sa3 := Sa3 + Sv23 * Stmp2 in
  let Sa3 := Sa3 + Sv33 * Stmp3 in
  (Sa1, Sa2, Sa3).

(** One step of "Permute columns such that the singular values are
    sorted" in [svd<float>]: columns [x] and [y] of A and V (with squared
    norms [nx], [ny]) are swapped when [nx < ny]; the factor that then
    negates one column ([1 + (mask & -2)], on a whole 32-bit register) is
    returned last. *)
Definition sort_step (nx ny ax1 ax2 ax3 ay1 ay2 ay3 vx1 vx2 vx3 vy1 vy2 vy3 : R)
    : (R * R) * (R * R * R) * (R * R * R) * (R * R * R) * (R * R * R) * R :=
  let mask := Rltb nx ny in
  let '(ax1, ay1) := cswap mask ax1 ay1 in
  let '(ax2, ay2) := cswap mask ax2 ay2 in
  let '(ax3, ay3) := cswap mask ax3 ay3 in
  let '(vx1, vy1) := cswap mask vx1 vy1 in
  let '(vx2, vy2) := cswap mask vx2 vy2 in
  let '(vx3, vy3) := cswap mask vx3 vy3 in
  let '(nx, ny) := cswap mask nx ny in
  let Stmp5 := sel mask (-2) 0 in
  let Stmp4 := 1 + Stmp5 in
  ((nx, ny), (ax1, ax2, ax3), (ay1, ay2, ay3), (vx1, vx2, vx3),
   (vy1, vy2, vy3), Stmp4).

(** The rotation (Sc, Ss) of one Givens step of the QR factorisation in
    [svd<float>], from the pivot [app] and the entry [aqp] to
    annihilate. *)
Definition qr_givens (app aqp : R) : R * R :=
  let Ssh := aqp * aqp in
  let Ssh := sel (Rgeb Ssh gsmall_number) aqp 0 in
  let Stmp5 := 0 in
  let Sch := Stmp5 - app in
  let Sch := Rmax Sch app in
  let Sch := Rmax Sch gsmall_number in
  let mask5 := Rgeb app Stmp5 in
  let Stmp1 := Sch * Sch in
  let Stmp2 := Ssh * Ssh in
  let Stmp2 := Stmp1 + Stmp2 in
  let Stmp1 := rsqrt_refined Stmp2 in
  let Stmp1 := Stmp1 * Stmp2 in
  let Sch := Sch + Stmp1 in
  let Stmp1 := sel mask5 0 Ssh in
  let Stmp2 := sel mask5 0 Sch in
  let Sch := sel mask5 Sch 0 in
  let Ssh := sel mask5 Ssh 0 in
  let Sch := sel mask5 Sch Stmp1 in
  let Ssh := sel mask5 Ssh Stmp2 in
  let Stmp1 := Sch * Sch in
  let Stmp2 := Ssh * Ssh in
  let Stmp2 := Stmp1 + Stmp2 in
  let Stmp1 := rsqrt_refined Stmp2 in
  let Sch := Sch * Stmp1 in
  let Ssh := Ssh * Stmp1 in
  let Sc := Sch * Sch in
  let Ss := Ssh * Ssh in
  let Sc := Sc - Ss in
  let Ss := Ssh * Sch in
  let Ss := Ss + Ss in
  (Sc, Ss).

(** "Rotate matrix A" / "Update matrix U" on one pair of entries. *)
Definition rotate_pair (Sc Ss x y : R) : R * R :=
  let Stmp1 := Ss * x in
  let Stmp2 := Ss * y in
  let x := Sc * x in
  let y := Sc * y in
  let x := x + Stmp2 in
  let y := y - Stmp1 in
  (x, y).

(** [svd<float>]: input A by entries, output (U, S, V) with U and V
    row-major ([u11; u12; u13; u21; ...]) and S = [s11; s22; s33]. *)
Definition svd (a11 a12 a13 a21 a22 a23 a31 a32 a33 : R)
    : list R * list R * list R :=
  let Sa11 := a11 in let Sa12 := a12 in let Sa13 := a13 in
  let Sa21 := a21 in let Sa22 := a22 in let Sa23 := a23 in
  let Sa31 := a31 in let Sa32 := a32 in let Sa33 := a33 in
  let '(st, _, _) :=
    jacobi_eigen (normal_equations a11 a12 a13 a21 a22 a23 a31 a32 a33) in
  let V := quaternion_to_V st in
  let '(Sv11, Sv12, Sv13, Sv21, Sv22, Sv23, Sv31, Sv32, Sv33) := V in
  (* Multiply (from the right) with V *)
  let '(Sa11, Sa12, Sa13) := row_times_V Sa11 Sa12 Sa13 V in
  let '(Sa21, Sa22, Sa23) := row_times_V Sa21 Sa22 Sa23 V in
  let '(Sa31, Sa32, Sa33) := row_times_V Sa31 Sa32 Sa33 V in
  (* Permute columns such that the singular values are sorted *)
  let Stmp1 := Sa11 * Sa11 in
  let Stmp1 := Stmp1 + Sa21 * Sa21 in
  let Stmp1 := Stmp1 + Sa31 * Sa31 in
  let Stmp2 := Sa12 * Sa12 in
  let Stmp2 := Stmp2 + Sa22 * Sa22 in
  let Stmp2 := Stmp2 + Sa32 * Sa32 in
  let Stmp3 := Sa13 * Sa13 in
  let Stmp3 := Stmp3 + Sa23 * Sa23 in
  let Stmp3 := Stmp3 + Sa33 * Sa33 in
  (* Swap columns 1-2 if necessary, then negate the 2nd column *)
  let '((Stmp1, Stmp2), (Sa11, Sa21, Sa31), (Sa12, Sa22, Sa32),
        (Sv11, Sv21, Sv31), (Sv12, Sv22, Sv32), Stmp4) :=
    sort_step Stmp1 Stmp2 Sa11 Sa21 Sa31 Sa12 Sa22 Sa32
      Sv11 Sv21 Sv31 Sv12 Sv22 Sv32 in
  let Sa12 := Sa12 * Stmp4 in
  let Sa22 := Sa22 * Stmp4 in
  let Sa32 := Sa32 * Stmp4 in
  let Sv12 := Sv12 * Stmp4 in
  let Sv22 := Sv22 * Stmp4 in
  let Sv32 := Sv32 * Stmp4 in
  (* Swap columns 1-3 if necessary, then negate the 1st column *)
  let '((Stmp1, Stmp3), (Sa11, Sa21, Sa31), (Sa13, Sa23, Sa33),
        (Sv11, Sv21, Sv31), (Sv13, Sv23, Sv33), Stmp4) :=
    sort_step Stmp1 Stmp3 Sa11 Sa21 Sa31 Sa13 Sa23 Sa33
      Sv11 Sv21 Sv31 Sv13 Sv23 Sv33 in
  let Sa11 := Sa11 * Stmp4 in
  let Sa21 := Sa21 * Stmp4 in
  let Sa31 := Sa31 * Stmp4 in
  let Sv11 := Sv11 * Stmp4 in
  let Sv21 := Sv21 * Stmp4 in
  let Sv31 := Sv31 * Stmp4 in
  (* Swap columns 2-3 if necessary, then negate the 3rd column *)
  let '((Stmp2, Stmp3), (Sa12, Sa22, Sa32), (Sa13, Sa23, Sa33),
        (Sv12, Sv22, Sv32), (Sv13, Sv23, Sv33), Stmp4) :=
    sort_step Stmp2 Stmp3 Sa12 Sa22 Sa32 Sa13 Sa23 Sa33
      Sv12 Sv22 Sv32 Sv13 Sv23 Sv33 in
  let Sa13 := Sa13 * Stmp4 in
  let Sa23 := Sa23 * Stmp4 in
  let Sa33 := Sa33 * Stmp4 in
  let Sv13 := Sv13 * Stmp4 in
  let Sv23 := Sv23 * Stmp4 in
  let Sv33 := Sv33 * Stmp4 in
  (* Construct QR factorization of A*V (=U*D) using Givens rotations *)
  let Su11 := 1 in let Su12 := 0 in let Su13 := 0 in
  let Su21 := 0 in let Su22 := 1 in let Su23 := 0 in
  let Su31 := 0 in let Su32 := 0 in let Su33 := 1 in
  (* First Givens rotation: rows 1 and 2 of A, columns 1 and 2 of U *)
  let '(Sc, Ss) := qr_givens Sa11 Sa21 in
  let '(Sa11, Sa21) := rotate_pair Sc Ss Sa11 Sa21 in
  let '(Sa12, Sa22) := rotate_pair Sc Ss Sa12 Sa22 in
  let '(Sa13, Sa23) := rotate_pair Sc Ss Sa13 Sa23 in
  let '(Su11, Su12) := rotate_pair Sc Ss Su11 Su12 in
  let '(Su21, Su22) := rotate_pair Sc Ss Su21 Su22 in
  let '(Su31, Su32) := rotate_pair Sc Ss Su31 Su32 in
  (* Second Givens rotation: rows 1 and 3 of A, columns 1 and 3 of U *)
  let '(Sc, Ss) := qr_givens Sa11 Sa31 in
  let '(Sa11, Sa31) := rotate_pair Sc Ss Sa11 Sa31 in
  let '(Sa12, Sa32) := rotate_pair Sc Ss Sa12 Sa32 in
  let '(Sa13, Sa33) := rotate_pair Sc Ss Sa13 Sa33 in
  let '(Su11, Su13) := rotate_pair Sc Ss Su11 Su13 in
  let '(Su21, Su23) := rotate_pair Sc Ss Su21 Su23 in
  let '(Su31, Su33) := rotate_pair Sc Ss Su31 Su33 in
  (* Third Givens rotation: rows 2 and 3 of A, columns 2 and 3 of U *)
  let '(Sc, Ss) := qr_givens Sa22 Sa32 in
  let '(Sa21, Sa31) := rotate_pair Sc Ss Sa21 Sa31 in
  let '(Sa22, Sa32) := rotate_pair Sc Ss Sa22 Sa32 in
  let '(Sa23, Sa33) := rotate_pair Sc Ss Sa23 Sa33 in
  let '(Su12, Su13) := rotate_pair Sc Ss Su12 Su13 in
  let '(Su22, Su23) := rotate_pair Sc Ss Su22 Su23 in
  let '(Su32, Su33) := rotate_pair Sc Ss Su32 Su33 in
  ([Su11; Su12; Su13; Su21; Su22; Su23; Su31; Su32; Su33],
   [Sa11; Sa22; Sa33],
   [Sv11; Sv12; Sv13; Sv21; Sv22; Sv23; Sv31; Sv32; Sv33]).

(** [det3x3], as written in the source. *)
Definition det3x3 (m00 m01 m02 m10 m11 m12 m20 m21 m22 : R) : R :=
  m00 * (m11 * m22 - m12 * m21) - m10 * (m01 * m22 - m02 - m21)
  + m20 * (m01 * m12 - m02 * m11).

(** [matmul3x3_3x1]: o = M v. *)
Definition matmul3x3_3x1 (m00 m01 m02 m10 m11 m12 m20 m21 m22 v0 v1 v2 : R)
    : R * R * R :=
  (m00 * v0 + m01 * v1 + m02 * v2,
   m10 * v0 + m11 * v1 + m12 * v2,
   m20 * v0 + m21 * v1 + m22 * v2).

(** [matmul3x3_3x3]: C = A B, column by column; the result is
    (c00, c01, c02, c10, ..., c22). *)
Definition matmul3x3_3x3
    (a00 a01 a02 a10 a11 a12 a20 a21 a22
     b00 b01 b02 b10 b11 b12 b20 b21 b22 : R)
    : R * R * R * R * R * R * R * R * R :=
  let '(c00, c10, c20) :=
    matmul3x3_3x1 a00 a01 a02 a10 a11 a12 a20 a21 a22 b00 b10 b20 in
  let '(c01, c11, c21) :=
    matmul3x3_3x1 a00 a01 a02 a10 a11 a12 a20 a21 a22 b01 b11 b21 in
  let '(c02, c12, c22) :=
    matmul3x3_3x1 a00 a01 a02 a10 a11 a12 a20 a21 a22 b02 b12 b22 in
  (c00, c01, c02, c10, c11, c12, c20, c21, c22).

(** "Sigma^+": [S[i] = S[i] < epsilon ? 0 : 1.0 / S[i]]. *)
Definition epsilon : R := 1e-6.

Definition pseudo_inverse_entry (s : R) : R :=
  if Rlt_dec s epsilon then 0 else 1 / s.

(** [solve_svd3x3] at float, where it calls [svd<float>]: returns
    (x1, x2, x3). *)
Definition solve_svd3x3 (a11 a12 a13 a21 a22 a23 a31 a32 a33 b1 b2 b3 : R)
    : R * R * R :=
  let '(U, S0, V) := svd a11 a12 a13 a21 a22 a23 a31 a32 a33 in
  let S := [pseudo_inverse_entry S0.[0]; pseudo_inverse_entry S0.[1];
            pseudo_inverse_entry S0.[2]] in
  let '(Ainv0, Ainv1, Ainv2, Ainv3, Ainv4, Ainv5, Ainv6, Ainv7, Ainv8) :=
    matmul3x3_3x3 V.[0] V.[1] V.[2] V.[3] V.[4] V.[5] V.[6] V.[7] V.[8]
      (U.[0] * S.[0]) (U.[3] * S.[0]) (U.[6] * S.[0])
      (U.[1] * S.[1]) (U.[4] * S.[1]) (U.[7] * S.[1])
      (U.[2] * S.[2]) (U.[5] * S.[2]) (U.[8] * S.[2]) in
  matmul3x3_3x1 Ainv0 Ainv1 Ainv2 Ainv3 Ainv4 Ainv5 Ainv6 Ainv7 Ainv8
    b1 b2 b3.

(** ** Point-wise estimators (PointCloudCPU) *)

(** [v[k] += e] and [v[k] = e] on a buffer of [n] entries. *)
Definition add_at (n k : nat) (e : R) (v : list R) : list R :=
  map (fun j => if (j =? k)%nat then v.[j] + e else v.[j]) (seq 0 n).

Definition set_at (n k : nat) (e : R) (v : list R) : list R :=
  map (fun j => if (j =? k)%nat then e else v.[j]) (seq 0 n).

(** The nearest-neighbour search is a collaborator: [HybridIndex] tells
    whether the index could be built, [HybridSearch] returns
    (indices, distance, counts), the indices in rows of [max_nn] slots. *)
Record NearestNeighborSearch : Type := {
  HybridIndex : list R -> R -> bool;
  HybridSearch : list R -> R -> Z -> list Z * list R * list Z
}.

(** The neighbour loop of the colour-gradient kernel,
      [for (i = 1; i < neighbour_count; i++) { ... if (neighbour_idx == -1)
       break; ... }],
    entered at the given [i]; it returns the final [i], [AtA] and [Atb].
    [fuel] bounds the unfolding; the caller passes [neighbour_count]. *)
Fixpoint gradient_neighbour_loop (fuel : nat)
    (points_ptr colors_ptr : list R) (neighbour_indices_ptr : list Z)
    (neighbour_offset neighbour_count : Z) (vt nt : list R) (s it : R)
    (i : Z) (AtA Atb : list R) : Z * list R * list R :=
  match fuel with
  | O => (i, AtA, Atb)
  | S fuel' =>
      if (i <? neighbour_count)%Z then
        let neighbour_idx :=
          (3 * rdi neighbour_indices_ptr (neighbour_offset + i))%Z in
        if (neighbour_idx =? -1)%Z then (i, AtA, Atb)
        else
          let vt_adj := [rd points_ptr neighbour_idx;
                         rd points_ptr (neighbour_idx + 1);
                         rd points_ptr (neighbour_idx + 2)] in
          let d := vt_adj.[0] * nt.[0] + vt_adj.[1] * nt.[1]
                   + vt_adj.[2] * nt.[2] - s in
          let vt_proj := [vt_adj.[0] - d * nt.[0];
                          vt_adj.[1] - d * nt.[1];
                          vt_adj.[2] - d * nt.[2]] in
          let it_adj := (rd colors_ptr (neighbour_idx + 0)
                         + rd colors_ptr (neighbour_idx + 1)
                         + rd colors_ptr (neighbour_idx + 2)) / 3 in
          let A := [vt_proj.[0] - vt.[0]; vt_proj.[1] - vt.[1];
                    vt_proj.[2] - vt.[2]] in
          let AtA := add_at 9 0 (A.[0] * A.[0]) AtA in
          let AtA := add_at 9 1 (A.[1] * A.[0]) AtA in
          let AtA := add_at 9 2 (A.[2] * A.[0]) AtA in
          let AtA := add_at 9 4 (A.[1] * A.[1]) AtA in
          let AtA := add_at 9 5 (A.[2] * A.[1]) AtA in
          let AtA := add_at 9 8 (A.[2] * A.[2]) AtA in
          let b := it_adj - it in
          let Atb := add_at 3 0 (A.[0] * b) Atb in
          let Atb := add_at 3 1 (A.[1] * b) Atb in
          let Atb := add_at 3 2 (A.[2] * b) Atb in
          gradient_neighbour_loop fuel' points_ptr colors_ptr
            neighbour_indices_ptr neighbour_offset neighbour_count vt nt s it
            (i + 1)%Z AtA Atb
      else (i, AtA, Atb)
  end.

(** "Orthogonal constraint": the row [(i - 1) * nt] added after the loop. *)
Definition orthogonal_constraint_row (i : Z) (nt : list R) : list R :=
  [IZR (i - 1) * nt.[0]; IZR (i - 1) * nt.[1]; IZR (i - 1) * nt.[2]].

(** [nt]: the normal of point [workload_idx]. *)
Definition point_normal (normals_ptr : list R) (workload_idx : Z) : list R :=
  let point_idx := (3 * workload_idx)%Z in
  [rd normals_ptr point_idx; rd normals_ptr (point_idx + 1);
   rd normals_ptr (point_idx + 2)].

(** The [neighbour_count >= 4] branch of the colour-gradient kernel up to
    the end of the neighbour loop: the final [i] and the sums [AtA], [Atb]
    over the neighbour rows. *)
Definition ColorGradientNeighbourSums (points_ptr normals_ptr colors_ptr : list R)
    (neighbour_indices_ptr : list Z) (max_nn neighbour_count : Z)
    (workload_idx : Z) : Z * list R * list R :=
  let neighbour_offset := (max_nn * workload_idx)%Z in
  let point_idx := (3 * workload_idx)%Z in
  let vt := [rd points_ptr point_idx; rd points_ptr (point_idx + 1);
             rd points_ptr (point_idx + 2)] in
  let nt := point_normal normals_ptr workload_idx in
  let it := (rd colors_ptr point_idx + rd colors_ptr (point_idx + 1)
             + rd colors_ptr (point_idx + 2)) / 3 in
  let AtA := zeros 9 in
  let Atb := zeros 3 in
  let s := vt.[0] * nt.[0] + vt.[1] * nt.[1] + vt.[2] * nt.[2] in
  gradient_neighbour_loop (Z.to_nat neighbour_count) points_ptr colors_ptr
    neighbour_indices_ptr neighbour_offset neighbour_count vt nt s it
    1%Z AtA Atb.

(** The rest of that branch up to the call of the solver: the
    orthogonal-constraint row is added, the matrix made symmetric, and
    (AtA, Atb) is what [solve_svd3x3] receives. *)
Definition ColorGradientSystem (points_ptr normals_ptr colors_ptr : list R)
    (neighbour_indices_ptr : list Z) (max_nn neighbour_count : Z)
    (workload_idx : Z) : list R * list R :=
  let nt := point_normal normals_ptr workload_idx in
  let '(i, AtA, Atb) :=
    ColorGradientNeighbourSums points_ptr normals_ptr colors_ptr
      neighbour_indices_ptr max_nn neighbour_count workload_idx in
  let A := orthogonal_constraint_row i nt in
  let AtA := add_at 9 0 (A.[0] * A.[0]) AtA in
  let AtA := add_at 9 1 (A.[0] * A.[1]) AtA in
  let AtA := add_at 9 2 (A.[0] * A.[2]) AtA in
  let AtA := add_at 9 4 (A.[1] * A.[1]) AtA in
  let AtA := add_at 9 5 (A.[1] * A.[2]) AtA in
  let AtA := add_at 9 8 (A.[2] * A.[2]) AtA in
  let AtA := set_at 9 3 AtA.[1] AtA in
  let AtA := set_at 9 6 AtA.[2] AtA in
  let AtA := set_at 9 7 AtA.[5] AtA in
  (AtA, Atb).

(** One iteration of the [workload_idx] loop of
    [EstimatePointWiseColorGradientCPU]: the three values written to
    [color_gradients_ptr[point_idx .. point_idx + 2]]. *)
Definition ColorGradientPoint (points_ptr normals_ptr colors_ptr : list R)
    (neighbour_indices_ptr neighbour_counts_ptr : list Z) (max_nn : Z)
    (workload_idx : Z) : list R :=
  let neighbour_count := rdi neighbour_counts_ptr workload_idx in
  if (neighbour_count >=? 4)%Z then
    let '(AtA, Atb) :=
      ColorGradientSystem points_ptr normals_ptr colors_ptr
        neighbour_indices_ptr max_nn neighbour_count workload_idx in
    let '(x1, x2, x3) :=
      solve_svd3x3 AtA.[0] AtA.[1] AtA.[2] AtA.[3] AtA.[4] AtA.[5] AtA.[6]
        AtA.[7] AtA.[8] Atb.[0] Atb.[1] Atb.[2] in
    [x1; x2; x3]
  else [0; 0; 0].

(** [EstimatePointWiseColorGradientCPU]: [None] stands for the
    [utility::LogError] raised when the search index is not set, otherwise
    the contents of [color_gradients] after the parallel loop. *)
Definition EstimatePointWiseColorGradientCPU (nns : NearestNeighborSearch)
    (points normals colors : list R) (radius : R) (max_nn : Z)
    : option (list R) :=
  let n := GetLength points in
  if negb (HybridIndex nns points radius) then None
  else
    let '(indices, distance, counts) :=
      HybridSearch nns points radius max_nn in
    Some (flat_map
            (fun workload_idx =>
               ColorGradientPoint points normals colors indices counts max_nn
                 (Z.of_nat workload_idx))
            (seq 0 n)).

(** One iteration of the [workload_idx] loop of
    [EstimatePointWiseCovarianceCPU]: the nine values written at
    [covariances_offset].  [EstimatePointWiseCovarianceKernel]
    (PointCloudImpl.h) is a collaborator; the parameter gives the nine
    entries it writes. *)
Definition CovariancePoint
    (EstimatePointWiseCovarianceKernel : list R -> list Z -> Z -> Z -> list R)
    (points_ptr : list R) (neighbour_indices_ptr neighbour_counts_ptr : list Z)
    (max_nn : Z) (workload_idx : Z) : list R :=
  let neighbour_offset := (max_nn * workload_idx)%Z in
  let neighbour_count := rdi neighbour_counts_ptr workload_idx in
  if (neighbour_count >=? 3)%Z then
    let written :=
      EstimatePointWiseCovarianceKernel points_ptr neighbour_indices_ptr
        neighbour_count neighbour_offset in
    map (fun k => written.[k]) (seq 0 9)
  else [1; 0; 0; 0; 1; 0; 0; 0; 1].

(** [EstimatePointWiseCovarianceCPU]. *)
Definition EstimatePointWiseCovarianceCPU (nns : NearestNeighborSearch)
    (EstimatePointWiseCovarianceKernel : list R -> list Z -> Z -> Z -> list R)
    (points : list R) (radius : R) (max_nn : Z) : option (list R) :=
  let n := GetLength points in
  if negb (HybridIndex nns points radius) then None
  else
    let '(indices, distance, counts) :=
      HybridSearch nns points radius max_nn in
    Some (flat_map
            (fun workload_idx =>
               CovariancePoint EstimatePointWiseCovarianceKernel points
                 indices counts max_nn (Z.of_nat workload_idx))
            (seq 0 n)).

(** ** ProjectCPU *)

(** [TransformIndexer] and [NDArrayIndexer] (GeometryIndexer.h) are
    collaborators: the rigid transform into the camera frame, the
    projection onto the image plane and the boundary test are parameters.
    A pixel is named by the pair of integer coordinates passed to
    [GetDataPtr]; distinct pairs inside the boundary are distinct cells. *)
Record TransformIndexer : Type := {
  RigidTransform : R -> R -> R -> R * R * R;
  Project : R -> R -> R -> R * R
}.

Definition pixel : Type := (Z * Z)%type.

Definition pixel_eqb (p q : pixel) : bool :=
  ((fst p =? fst q) && (snd p =? snd q))%Z.

Definition Reqb (x y : R) : bool := if Req_dec_T x y then true else false.

(** [*GetDataPtr(u, v) = e]. *)
Definition store {T : Type} (img : pixel -> T) (p : pixel) (e : T)
    : pixel -> T :=
  fun q => if pixel_eqb q p then e else img q.

(** The depth image and the colour image. *)
Definition images : Type := ((pixel -> R) * (pixel -> Z * Z * Z))%type.

(** The kernel body for one [workload_idx].  [point_colors_ptr] is [None]
    when [has_colors] is false.  The casts to [uint8_t] are meant in
    range. *)
Definition ProjectBody (transform_indexer : TransformIndexer)
    (InBoundary : R -> R -> bool) (points_ptr : list R)
    (point_colors_ptr : option (list R)) (depth_scale depth_max : R)
    (workload_idx : nat) (img : images) : images :=
  let '(depth, image_colors) := img in
  let x := rd points_ptr (3 * Z.of_nat workload_idx + 0) in
  let y := rd points_ptr (3 * Z.of_nat workload_idx + 1) in
  let z := rd points_ptr (3 * Z.of_nat workload_idx + 2) in
  let '(xc, yc, zc) := RigidTransform transform_indexer x y z in
  let '(u, v) := Project transform_indexer xc yc zc in
  if negb (InBoundary u v) || Rleb zc 0 || Rltb depth_max zc then img
  else
    let px := (trunc u, trunc v) in
    let d := zc * depth_scale in
    if Reqb (depth px) 0 || Rgeb (depth px) d then
      (store depth px d,
       match point_colors_ptr with
       | Some colors =>
           store image_colors px
             (trunc (rd colors (3 * Z.of_nat workload_idx + 0) * 255),
              trunc (rd colors (3 * Z.of_nat workload_idx + 1) * 255),
              trunc (rd colors (3 * Z.of_nat workload_idx + 2) * 255))
       | None => image_colors
       end)
    else img.

(** [ProjectCPU]: the body runs once for every point; the updates of the
    images sit in a critical section, so they take place one after the
    other in some order of the points, which is the parameter [order]. *)
Definition ProjectCPU (transform_indexer : TransformIndexer)
    (InBoundary : R -> R -> bool) (order : list nat) (img : images)
    (points : list R) (colors : option (list R))
    (depth_scale depth_max : R) : images :=
  fold_left
    (fun img workload_idx =>
       ProjectBody transform_indexer InBoundary points colors depth_scale
         depth_max workload_idx img)
    order img.

(** ** Specification-side quantities *)

(** Observation [i] has a correspondence (its entry is not the
    sentinel -1). *)
Definition has_correspondence (correspondence_indices : list Z) (i : nat)
    : bool :=
  negb (rdi correspondence_indices (Z.of_nat i) =? -1)%Z.

(** The indices in [0, n) that have a correspondence. *)
Definition valid_pairs (correspondence_indices : list Z) (n : nat) : list nat :=
  filter (has_correspondence correspondence_indices) (seq 0 n).

(** What the point-to-plane evaluator reports for observation [i]. *)
Definition p2p_valid (ev : PointToPlaneEvaluator)
    (source_points target_points target_normals : list R)
    (correspondence_indices : list Z) (i : nat) : bool :=
  fst (fst (GetJacobianPointToPlane ev i source_points target_points
              target_normals correspondence_indices)).

Definition p2p_residual (ev : PointToPlaneEvaluator)
    (source_points target_points target_normals : list R)
    (correspondence_indices : list Z) (i : nat) : R :=
  snd (GetJacobianPointToPlane ev i source_points target_points
         target_normals correspondence_indices).

(** What the colored-ICP evaluator reports for observation [i]. *)
Definition cicp_valid (ev : ColoredICPEvaluator) (inp : ColoredICPInputs)
    (correspondence_indices : list Z) (i : nat) : bool :=
  let '(valid, _, _, _, _) :=
    GetJacobianColoredICP ev i inp correspondence_indices in valid.

Definition cicp_residual_G (ev : ColoredICPEvaluator) (inp : ColoredICPInputs)
    (correspondence_indices : list Z) (i : nat) : R :=
  let '(_, _, _, r_G, _) :=
    GetJacobianColoredICP ev i inp correspondence_indices in r_G.

Definition cicp_residual_I (ev : ColoredICPEvaluator) (inp : ColoredICPInputs)
    (correspondence_indices : list Z) (i : nat) : R :=
  let '(_, _, _, _, r_I) :=
    GetJacobianColoredICP ev i inp correspondence_indices in r_I.

(** The total weighted residual, sum of w * r^2 over the valid
    observations, as the specification words entry 27. *)
Definition weighted_residual_p2p (ev : PointToPlaneEvaluator)
    (op : robust_kernel)
    (source_points target_points target_normals : list R)
    (correspondence_indices : list Z) (n : nat) : R :=
  sumR (map (fun i =>
               let r := p2p_residual ev source_points target_points
                          target_normals correspondence_indices i in
               op r * (r * r))
            (filter (p2p_valid ev source_points target_points target_normals
                       correspondence_indices)
                    (seq 0 n))).

(** Coordinate [k] of source point [i] and of the target point matched
    with it. *)
Definition source_coord (source_points : list R) (i k : nat) : R :=
  rd source_points (3 * Z.of_nat i + Z.of_nat k).

Definition target_coord (target_points : list R)
    (correspondence_indices : list Z) (i k : nat) : R :=
  rd target_points
     (3 * rdi correspondence_indices (Z.of_nat i) + Z.of_nat k).

(** Arithmetic means over the valid pairs. *)
Definition mean_source (source_points : list R)
    (correspondence_indices : list Z) (n k : nat) : R :=
  sumR (map (fun i => source_coord source_points i k)
            (valid_pairs correspondence_indices n))
  / INR (length (valid_pairs correspondence_indices n)).

Definition mean_target (target_points : list R)
    (correspondence_indices : list Z) (n k : nat) : R :=
  sumR (map (fun i => target_coord target_points correspondence_indices i k)
            (valid_pairs correspondence_indices n))
  / INR (length (valid_pairs correspondence_indices n)).

(** Entry (j, k) of the cross-covariance as the specification words it:
    the sum over the valid pairs of
    (source_i - mean_source)(target_i - mean_target)^t. *)
Definition cross_covariance (source_points target_points : list R)
    (correspondence_indices : list Z) (n j k : nat) : R :=
  sumR (map (fun i =>
               (source_coord source_points i j
                - mean_source source_points correspondence_indices n j) *
               (target_coord target_points correspondence_indices i k
                - mean_target target_points correspondence_indices n k))
            (valid_pairs correspondence_indices n)).

(** The spec-worded 3x3 matrix, row-major. *)
Definition cross_covariance_matrix (source_points target_points : list R)
    (correspondence_indices : list Z) (n : nat) : list R :=
  map (fun i =>
         cross_covariance source_points target_points correspondence_indices
           n (i / 3) (i mod 3))
      (seq 0 9).

(** The 7-entry buffer after the in-place division of its first six
    entries by the seventh. *)
Definition divided_means (m : list R) : list R :=
  map (fun i => m.[i] / m.[6]) (seq 0 6) ++ [m.[6]].

(** The outputs of the point-to-point route, by name. *)
Definition Sxy_of (s1 s2 : schedule) (source_points target_points : list R)
    (correspondence_indices : list Z) : list R :=
  let '(Sxy, _, _, _) :=
    value (Get3x3SxyLinearSystem s1 s2 source_points target_points
             correspondence_indices (GetLength source_points)) in Sxy.

Definition rotation_of (SVD : svd_routine) (s1 s2 : schedule)
    (source_points target_points : list R) (corres : list Z) : list R :=
  let '(R, _, _) :=
    value (ComputeRtPointToPointCPU SVD s1 s2 source_points target_points
             corres) in R.

Definition translation_of (SVD : svd_routine) (s1 s2 : schedule)
    (source_points target_points : list R) (corres : list Z) : list R :=
  let '(_, t, _) :=
    value (ComputeRtPointToPointCPU SVD s1 s2 source_points target_points
             corres) in t.

(** [SolveSmall3x3(A, b) -> x]: [solve_svd3x3] on a row-major matrix and
    a right-hand side given as buffers. *)
Definition SolveSmall3x3 (A b : list R) : list R :=
  let '(x1, x2, x3) :=
    solve_svd3x3 A.[0] A.[1] A.[2] A.[3] A.[4] A.[5] A.[6] A.[7] A.[8]
      b.[0] b.[1] b.[2] in
  [x1; x2; x3].

(** The factors that [svd<float>] computes for a row-major matrix. *)
Definition svd_of (A : list R) : list R * list R * list R :=
  svd A.[0] A.[1] A.[2] A.[3] A.[4] A.[5] A.[6] A.[7] A.[8].

Definition svd_U (A : list R) : list R := fst (fst (svd_of A)).
Definition svd_S (A : list R) : list R := snd (fst (svd_of A)).
Definition svd_V (A : list R) : list R := snd (svd_of A).

(** The pseudo-inverted singular values. *)
Definition pseudo_inverse_values (S : list R) : list R :=
  [pseudo_inverse_entry S.[0]; pseudo_inverse_entry S.[1];
   pseudo_inverse_entry S.[2]].

(** The reals [sigma] are the singular values of [A]: non-negative, and
    their squares are the diagonal to which some orthogonal matrix brings
    At A. *)
Definition singular_values (A sigma : list R) : Prop :=
  0 <= sigma.[0] /\ 0 <= sigma.[1] /\ 0 <= sigma.[2] /\
  exists P : list R,
    Matmul33 (T33 P) P = Eye3 /\
    Matmul33 (T33 P) (Matmul33 (Matmul33 (T33 A) A) P)
    = [sigma.[0] * sigma.[0]; 0; 0;
       0; sigma.[1] * sigma.[1]; 0;
       0; 0; sigma.[2] * sigma.[2]].

(** The solution as the specification words it: V diag(S+) Ut b with S+
    taken from the singular values [sigma] of the matrix. *)
Definition claimed_solution (sigma A b : list R) : list R :=
  Matvec33
    (Matmul33 (svd_V A)
       (Matmul33 (Diag3 (pseudo_inverse_values sigma)) (T33 (svd_U A))))
    b.

(** The [c] values that an estimator writes for point [w]. *)
Definition written_for (c w : nat) (out : list R) : list R :=
  firstn c (skipn (c * w) out).

(** The counted neighbour slots of point [w] (slot 0, the point itself,
    apart) hold indices of points, not the padding sentinel. *)
Definition counted_neighbours_valid (indices : list Z) (max_nn nc w : Z)
    : Prop :=
  forall j, (1 <= j < nc)%Z -> (0 <= rdi indices (max_nn * w + j))%Z.

(** The constraint row as the specification words it: the normal scaled
    by the neighbour count. *)
Definition claimed_constraint_row (neighbour_count : Z) (nt : list R)
    : list R :=
  [IZR neighbour_count * nt.[0]; IZR neighbour_count * nt.[1];
   IZR neighbour_count * nt.[2]].

(** The symmetric system obtained from the accumulated upper entries
    [AtA0] by adding the outer product of one row [A] and mirroring. *)
Definition add_constraint_row (AtA0 A : list R) : list R :=
  [ AtA0.[0] + A.[0] * A.[0];
    AtA0.[1] + A.[0] * A.[1];
    AtA0.[2] + A.[0] * A.[2];
    AtA0.[1] + A.[0] * A.[1];
    AtA0.[4] + A.[1] * A.[1];
    AtA0.[5] + A.[1] * A.[2];
    AtA0.[2] + A.[0] * A.[2];
    AtA0.[5] + A.[1] * A.[2];
    AtA0.[8] + A.[2] * A.[2] ].

(** ** Sample inputs *)

(** The usual point-to-plane linearisation: residual (s - t) . n and
    Jacobian row (s x n, n). *)
Definition textbook_point_to_plane : PointToPlaneEvaluator :=
  {| p2p_J := fun src tgt nrm corr w =>
       let si := (3 * Z.of_nat w)%Z in
       let ti := (3 * rdi corr (Z.of_nat w))%Z in
       let sx := rd src si in
       let sy := rd src (si + 1) in
       let sz := rd src (si + 2) in
       let nx := rd nrm ti in
       let ny := rd nrm (ti + 1) in
       let nz := rd nrm (ti + 2) in
       [nz * sy - ny * sz; nx * sz - nz * sx; ny * sx - nx * sy; nx; ny; nz];
     p2p_r := fun src tgt nrm corr w =>
       let si := (3 * Z.of_nat w)%Z in
       let ti := (3 * rdi corr (Z.of_nat w))%Z in
       (rd src si - rd tgt ti) * rd nrm ti
       + (rd src (si + 1) - rd tgt (ti + 1)) * rd nrm (ti + 1)
       + (rd src (si + 2) - rd tgt (ti + 2)) * rd nrm (ti + 2);
     p2p_domain_ok := fun _ _ _ _ _ => true |}.

(** Geman-McClure weight with scale [k]. *)
Definition GMLoss (k : R) : robust_kernel :=
  fun residual => (k * k) / ((k + residual * residual)
                             * (k + residual * residual)).

(** A colored-ICP evaluator with constant rows, for running the kernel. *)
Definition sample_colored_icp : ColoredICPEvaluator :=
  {| cicp_J_G := fun _ _ _ => [0; 0; 0; 1; 0; 0];
     cicp_J_I := fun _ _ _ => [0; 0; 0; 0; 1; 0];
     cicp_r_G := fun _ _ _ => 2;
     cicp_r_I := fun _ _ _ => 1;
     cicp_domain_ok := fun _ _ _ => true |}.

Definition sample_colored_inputs : ColoredICPInputs :=
  {| source_points_ptr := [0; 0; 2];
     source_colors_ptr := [0; 0; 0];
     target_points_ptr := [0; 0; 0];
     target_normals_ptr := [0; 0; 1];
     target_colors_ptr := [0; 0; 0];
     target_color_gradients_ptr := [0; 0; 0];
     sqrt_lambda_geometric := 1;
     sqrt_lambda_photometric := 0 |}.

(** Four points at the vertices of a regular tetrahedron centred at the
    origin, matched with themselves. *)
Definition tetra_points : list R :=
  [1; 1; 1;   1; -1; -1;   -1; 1; -1;   -1; -1; 1].

Definition tetra_corres : list Z := [0; 1; 2; 3]%Z.

(** A dense solver stand-in for running the decode step. *)
Definition sample_Solve6x6 : list (list R) -> list R -> list R :=
  fun _ Atb => Atb.

(** An SVD routine that answers with the identity factors, which is an
    SVD of the identity matrix. *)
Definition identity_svd : svd_routine :=
  fun _ => (Eye3, [1; 1; 1], Eye3).

(** The same tetrahedron mirrored in the plane z = 0, and an SVD of the
    resulting matrix diag(1, 1, -1) whose left factor is a reflection. *)
Definition tetra_mirrored : list R :=
  [1; 1; -1;   1; -1; 1;   -1; 1; 1;   -1; -1; -1].

Definition mirror_svd : svd_routine :=
  fun _ => (Diag11 (-1), [1; 1; 1], Eye3).

(** Two source points on the x axis matched with two target points on
    the y axis. *)
Definition skew_source : list R := [0; 0; 0;  2; 0; 0].
Definition skew_target : list R := [0; 0; 0;  0; 2; 0].
Definition skew_corres : list Z := [0; 1]%Z.

(** A point at the origin with normal (0,0,1) and three neighbours in
    its tangent plane; the search reports the point itself in slot 0. *)
Definition patch_points : list R :=
  [0; 0; 0;   1; 0; 0;   0; 1; 0;   1; 1; 0].
Definition patch_normals : list R :=
  [0; 0; 1;   0; 0; 1;   0; 0; 1;   0; 0; 1].
Definition patch_colors : list R :=
  [0; 0; 0;   3; 3; 3;   0; 0; 0;   3; 3; 3].
Definition patch_indices : list Z := [0; 1; 2; 3]%Z.
Definition patch_counts : list Z := [4]%Z.

(** Two isolated points: the search finds, for each, only the point
    itself (rows of [max_nn = 2] slots padded with -1). *)
Definition two_points : list R := [0; 0; 0;   1; 0; 0].

Definition lonely_search : NearestNeighborSearch :=
  {| HybridIndex := fun _ _ => true;
     HybridSearch := fun _ _ _ =>
       ([0; -1; 1; -1]%Z, [0; 0; 0; 0], [1; 1]%Z) |}.

(** A stand-in for the covariance kernel. *)
Definition sample_covariance_kernel : list R -> list Z -> Z -> Z -> list R :=
  fun _ _ _ _ => zeros 9.

(** The sample patch in one shade of grey, with a search that reports,
    for every point, the point itself and the three others. *)
Definition grey_patch_colors : list R :=
  [1; 1; 1;   1; 1; 1;   1; 1; 1;   1; 1; 1].

Definition patch_search : NearestNeighborSearch :=
  {| HybridIndex := fun _ _ => true;
     HybridSearch := fun _ _ _ =>
       ([0; 1; 2; 3;   1; 0; 2; 3;   2; 0; 1; 3;   3; 0; 1; 2]%Z,
        zeros 16, [4; 4; 4; 4]%Z) |}.

(** A camera that looks along the z axis and drops the depth, an image
    without boundary, blank images, and two points on one line of
    sight. *)
Definition sample_camera : TransformIndexer :=
  {| RigidTransform := fun x y z => (x, y, z);
     Project := fun xc yc zc => (xc, yc) |}.

Definition whole_plane : R -> R -> bool := fun _ _ => true.

Definition blank_images : images := (fun _ => 0, fun _ => (0, 0, 0)%Z).

Definition stacked_points : list R := [0; 0; 2;   0; 0; 1].

(** ** Further specification-side quantities *)

(** Jacobian rows reported by the evaluators for observation [i]. *)
Definition p2p_jacobian (ev : PointToPlaneEvaluator)
    (source_points target_points target_normals : list R)
    (correspondence_indices : list Z) (i : nat) : list R :=
  snd (fst (GetJacobianPointToPlane ev i source_points target_points
              target_normals correspondence_indices)).

Definition cicp_jacobian_G (ev : ColoredICPEvaluator) (inp : ColoredICPInputs)
    (correspondence_indices : list Z) (i : nat) : list R :=
  let '(_, J_G, _, _, _) :=
    GetJacobianColoredICP ev i inp correspondence_indices in J_G.

Definition cicp_jacobian_I (ev : ColoredICPEvaluator) (inp : ColoredICPInputs)
    (correspondence_indices : list Z) (i : nat) : list R :=
  let '(_, _, J_I, _, _) :=
    GetJacobianColoredICP ev i inp correspondence_indices in J_I.

(** Index of entry (a, b), b <= a, in the packed lower triangle. *)
Definition packed_index (a b : nat) : nat := (a * (a + 1) / 2 + b)%nat.

(** The quadratic form xt M x of the symmetric 6x6 matrix M that
    [DecodeAndSolve6x6] rebuilds from packed entries; [entry k] is packed
    entry [k]. *)
Definition quadratic_form6 (entry : nat -> R) (x : list R) : R :=
  sumR (map (fun a =>
               sumR (map (fun b =>
                            x.[a]
                            * entry (if (b <=? a)%nat
                                     then (a * (a + 1) / 2 + b)%nat
                                     else (b * (b + 1) / 2 + a)%nat)
                            * x.[b])
                         (seq 0 6)))
            (seq 0 6)).

Definition dot6 (J x : list R) : R :=
  J.[0] * x.[0] + J.[1] * x.[1] + J.[2] * x.[2] + J.[3] * x.[3]
  + J.[4] * x.[4] + J.[5] * x.[5].

(** The inlier count returned by the point-to-point route. *)
Definition inlier_count_of (SVD : svd_routine) (s1 s2 : schedule)
    (source_points target_points : list R) (corres : list Z) : Z :=
  let '(_, _, inlier_count) :=
    value (ComputeRtPointToPointCPU SVD s1 s2 source_points target_points
             corres) in inlier_count.

(** The point set [p] with every point moved by the vector [c]. *)
Definition translate_points (c p : list R) : list R :=
  map (fun i => rd p (Z.of_nat i) + c.[i mod 3]) (seq 0 (length p)).

(** All valid pairs address a target point inside the target tensor. *)
Definition targets_in_range (target_points : list R)
    (correspondence_indices : list Z) (n : nat) : Prop :=
  forall i, In i (valid_pairs correspondence_indices n) ->
    (0 <= rdi correspondence_indices (Z.of_nat i))%Z /\
    (3 * rdi correspondence_indices (Z.of_nat i) + 2
     < Z.of_nat (length target_points))%Z.

(** A 3x3 matrix is a rotation: its transpose is its inverse on both
    sides and its determinant is 1. *)
Definition is_rotation (M : list R) : Prop :=
  Matmul33 (T33 M) M = Eye3 /\ Matmul33 M (T33 M) = Eye3 /\ Det33 M = 1.

(** Squared norm of column [k] of a 3x3 tensor. *)
Definition column_norm2 (B : list R) (k : nat) : R :=
  B.[k] * B.[k] + B.[3 + k] * B.[3 + k] + B.[6 + k] * B.[6 + k].

(** Squared norm of the quaternion held by the Jacobi registers. *)
Definition quaternion_norm2 (st : jacobi_state) : R :=
  Sqvs st * Sqvs st + Sqvvx st * Sqvvx st + Sqvvy st * Sqvvy st
  + Sqvvz st * Sqvvz st.

(** The first nine entries of a buffer, as a 3x3 tensor. *)
Definition as_matrix (A : list R) : list R := map (fun i => A.[i]) (seq 0 9).

(** Where point [i] lands: its pixel, if it passes the boundary and
    range tests of [ProjectCPU], and the depth value it carries. *)
Definition camera_point (ti : TransformIndexer) (points : list R) (i : nat)
    : R * R * R :=
  RigidTransform ti (rd points (3 * Z.of_nat i + 0))
    (rd points (3 * Z.of_nat i + 1)) (rd points (3 * Z.of_nat i + 2)).

Definition projects_to (ti : TransformIndexer) (InBoundary : R -> R -> bool)
    (points : list R) (depth_max : R) (i : nat) : option pixel :=
  let '(xc, yc, zc) := camera_point ti points i in
  let '(u, v) := Project ti xc yc zc in
  if negb (InBoundary u v) || Rleb zc 0 || Rltb depth_max zc then None
  else Some (trunc u, trunc v).

Definition projected_depth (ti : TransformIndexer) (points : list R)
    (depth_scale : R) (i : nat) : R :=
  let '(_, _, zc) := camera_point ti points i in zc * depth_scale.

Definition point_color (colors : list R) (i : nat) : Z * Z * Z :=
  (trunc (rd colors (3 * Z.of_nat i + 0) * 255),
   trunc (rd colors (3 * Z.of_nat i + 1) * 255),
   trunc (rd colors (3 * Z.of_nat i + 2) * 255)).

(** Point [i] lands on pixel [q]. *)
Definition lands_on (ti : TransformIndexer) (InBoundary : R -> R -> bool)
    (points : list R) (depth_max : R) (q : pixel) (i : nat) : bool :=
  match projects_to ti InBoundary points depth_max i with
  | Some px => pixel_eqb q px
  | None => false
  end.

(** What one point does to the cell [q] of the two images, [st] being
    the depth and the colour held by the cell. *)
Definition pixel_step (ti : TransformIndexer) (InBoundary : R -> R -> bool)
    (points : list R) (colors : option (list R)) (depth_scale depth_max : R)
    (q : pixel) (st : R * (Z * Z * Z)) (i : nat) : R * (Z * Z * Z) :=
  if lands_on ti InBoundary points depth_max q i then
    let d := projected_depth ti points depth_scale i in
    if Reqb (fst st) 0 || Rgeb (fst st) d then
      (d, match colors with
          | Some c => point_color c i
          | None => snd st
          end)
    else st
  else st.

(** The cell [q] of the two images. *)
Definition cell (img : images) (q : pixel) : R * (Z * Z * Z) :=
  (fst img q, snd img q).

(** Intensity of point [p]: the mean of its three colour channels. *)
Definition intensity (colors : list R) (p : Z) : R :=
  (rd colors (3 * p) + rd colors (3 * p + 1) + rd colors (3 * p + 2)) / 3.

(** The counted neighbours of point [w] have the intensity of [w]. *)
Definition neighbours_share_intensity (colors : list R) (indices : list Z)
    (max_nn nc w : Z) : Prop :=
  forall j, (1 <= j < nc)%Z ->
    intensity colors (rdi indices (max_nn * w + j)) = intensity colors w.

(** The accumulated upper triangle [AtA] and the right-hand side [Atb]
    have no component along [nt]. *)
Definition normal_annihilated (nt AtA Atb : list R) : Prop :=
  AtA.[0] * nt.[0] + AtA.[1] * nt.[1] + AtA.[2] * nt.[2] = 0 /\
  AtA.[1] * nt.[0] + AtA.[4] * nt.[1] + AtA.[5] * nt.[2] = 0 /\
  AtA.[2] * nt.[0] + AtA.[5] * nt.[1] + AtA.[8] * nt.[2] = 0 /\
  Atb.[0] * nt.[0] + Atb.[1] * nt.[1] + Atb.[2] * nt.[2] = 0.

Definition dot3 (a b : list R) : R :=
  a.[0] * b.[0] + a.[1] * b.[1] + a.[2] * b.[2].

(** * Properties *)

(** ** Running the model on concrete inputs *)

(** Closed integer subterms are evaluated; the arithmetic on reals is left
    to [lra] and [field]. *)
Ltac eval_ints :=
  repeat match goal with
  | |- context [Z.eqb ?a ?b] =>
      let v := eval vm_compute in (Z.eqb a b) in change (Z.eqb a b) with v
  | |- context [Z.ltb ?a ?b] =>
      let v := eval vm_compute in (Z.ltb a b) in change (Z.ltb a b) with v
  | |- context [Z.geb ?a ?b] =>
      let v := eval vm_compute in (Z.geb a b) in change (Z.geb a b) with v
  | |- context [Z.to_nat ?a] =>
      let v := eval vm_compute in (Z.to_nat a) in change (Z.to_nat a) with v
  | |- context [Nat.div ?a ?b] =>
      let v := eval vm_compute in (Nat.div a b) in change (Nat.div a b) with v
  | |- context [Nat.modulo ?a ?b] =>
      let v := eval vm_compute in (Nat.modulo a b) in
      change (Nat.modulo a b) with v
  | |- context [Nat.min ?a ?b] =>
      let v := eval vm_compute in (Nat.min a b) in change (Nat.min a b) with v
  | |- context [IZR (Z.sub ?a ?b)] =>
      let v := eval vm_compute in (Z.sub a b) in change (Z.sub a b) with v
  end.

Ltac run_model :=
  repeat (progress
    (cbv beta iota zeta delta
       [parallel_reduce fold_left seq map nth at_ vadd zeros repeat rd rdi
        negb fst snd filter length app flat_map value divisors ret bind divide
        mapT Nat.add Nat.mul Nat.sub Nat.eqb Nat.leb
        PointToPlaneBody GetJacobianPointToPlane ColoredICPBody
        GetJacobianColoredICP ComputePosePointToPlaneKernelCPU
        ComputePoseColoredICPKernelCPU ComputePosePointToPlaneCPU
        DecodeAndSolve6x6 GetLength
        MeanBody SxyBody Get3x3SxyLinearSystem ComputeRtPointToPointCPU
        has_correspondence valid_pairs p2p_valid p2p_residual
        weighted_residual_p2p source_coord target_coord mean_source
        mean_target cross_covariance cross_covariance_matrix
        textbook_point_to_plane p2p_J p2p_r p2p_domain_ok GMLoss
        add_at set_at gradient_neighbour_loop orthogonal_constraint_row
        claimed_constraint_row add_constraint_row ColorGradientSystem
        ColorGradientNeighbourSums point_normal
        Sxy_of rotation_of translation_of
        tetra_points tetra_corres tetra_mirrored mirror_svd
        skew_source skew_target skew_corres
        patch_points patch_normals patch_colors patch_indices patch_counts
        identity_svd Eye3 T33 Diag11 Diag3 Matmul33 Matvec33 vsub3
        sumR fold_right INR divided_means];
     eval_ints)).

(** Equality of two explicit lists of reals, entry by entry. *)
Ltac list_eq tac :=
  repeat (apply (f_equal2 (@cons R)); [tac|]); try reflexivity.

(** ** Buffers and sums *)

Lemma at_map_seq (f : nat -> R) (n k : nat) :
  (k < n)%nat -> (map f (seq 0 n)).[k] = f k.
Proof.
  intros Hk. unfold at_.
  rewrite (nth_indep _ 0 (f 0%nat)) by (rewrite length_map, length_seq; lia).
  rewrite map_nth, seq_nth by lia. reflexivity.
Qed.

Lemma at_vadd (n : nat) (a b : list R) (k : nat) :
  (k < n)%nat -> (vadd n a b).[k] = a.[k] + b.[k].
Proof. intros Hk. unfold vadd. now rewrite at_map_seq. Qed.

Lemma at_zeros (n k : nat) : (zeros n).[k] = 0.
Proof.
  unfold at_, zeros. revert k.
  induction n as [|n IH]; intros [|k]; simpl; auto.
Qed.

Lemma at_add_at (n k j : nat) (e : R) (v : list R) :
  (j < n)%nat ->
  (add_at n k e v).[j] = if (j =? k)%nat then v.[j] + e else v.[j].
Proof. intros Hj. unfold add_at. now rewrite at_map_seq. Qed.

Lemma at_set_at (n k j : nat) (e : R) (v : list R) :
  (j < n)%nat ->
  (set_at n k e v).[j] = if (j =? k)%nat then e else v.[j].
Proof. intros Hj. unfold set_at. now rewrite at_map_seq. Qed.

Lemma sumR_app (l1 l2 : list R) : sumR (l1 ++ l2) = sumR l1 + sumR l2.
Proof.
  induction l1 as [|x l1 IH]; simpl.
  - lra.
  - rewrite IH. lra.
Qed.

Lemma sumR_filter {A : Type} (p : A -> bool) (f : A -> R) (l : list A) :
  sumR (map f (filter p l)) = sumR (map (fun i => if p i then f i else 0) l).
Proof.
  induction l as [|x l IH]; simpl; [reflexivity|].
  destruct (p x); simpl; rewrite IH; lra.
Qed.

Lemma sumR_ext {A : Type} (f g : A -> R) (l : list A) :
  (forall i, In i l -> f i = g i) -> sumR (map f l) = sumR (map g l).
Proof.
  intros H. induction l as [|x l IH]; simpl; [reflexivity|].
  rewrite H by (left; reflexivity).
  rewrite IH by (intros i Hi; apply H; right; exact Hi). reflexivity.
Qed.

Lemma sumR_zero {A : Type} (l : list A) : sumR (map (fun _ => 0) l) = 0.
Proof. induction l as [|x l IH]; simpl; [reflexivity | rewrite IH; lra]. Qed.

Lemma sumR_indicator {A : Type} (p : A -> bool) (l : list A) :
  sumR (map (fun i => if p i then 1 else 0) l) = INR (length (filter p l)).
Proof.
  induction l as [|x l IH]; [reflexivity|].
  cbn [map sumR fold_right filter].
  fold (sumR (map (fun i => if p i then 1 else 0) l)).
  rewrite IH. destruct (p x).
  - cbn [length]. rewrite S_INR. lra.
  - lra.
Qed.

(** ** The reduction computes entry-wise sums, whatever the schedule *)

Section Reduction.

Variable N : nat.
Variable body : list R -> nat -> list R.
Variable contrib : nat -> list R.

(** The body adds the contribution of observation [i] to every entry. *)
Hypothesis body_adds :
  forall acc i k, (k < N)%nat -> (body acc i).[k] = acc.[k] + (contrib i).[k].

Lemma fold_left_entry (l : list nat) (acc : list R) (k : nat) :
  (k < N)%nat ->
  (fold_left body l acc).[k]
  = acc.[k] + sumR (map (fun i => (contrib i).[k]) l).
Proof.
  intros Hk. revert acc.
  induction l as [|i l IH]; intros acc; simpl.
  - lra.
  - rewrite IH, body_adds by exact Hk. lra.
Qed.

Lemma parallel_reduce_entry (s : schedule) (lo len k : nat) :
  (k < N)%nat ->
  (parallel_reduce s lo len (zeros N) body (vadd N)).[k]
  = sumR (map (fun i => (contrib i).[k]) (seq lo len)).
Proof.
  intros Hk. revert lo len.
  induction s as [|c l IHl r IHr]; intros lo len; simpl.
  - rewrite fold_left_entry, at_zeros by exact Hk. lra.
  - rewrite at_vadd, IHl, IHr by exact Hk.
    rewrite <- sumR_app, <- map_app, <- seq_app.
    replace (Nat.min c len + (len - Nat.min c len))%nat with len by lia.
    reflexivity.
Qed.

End Reduction.

(** ** Point-to-plane and colored ICP kernels *)

Lemma PointToPlaneBody_adds ev op src tgt nrm corr acc i k :
  (k < 29)%nat ->
  (PointToPlaneBody ev op src tgt nrm corr acc i).[k]
  = acc.[k] + (PointToPlaneBody ev op src tgt nrm corr (zeros 29) i).[k].
Proof.
  intros Hk. unfold PointToPlaneBody.
  destruct (GetJacobianPointToPlane ev i src tgt nrm corr) as [[valid J] r].
  destruct valid.
  - rewrite !at_vadd, at_zeros by exact Hk. lra.
  - rewrite at_zeros. lra.
Qed.

Lemma ColoredICPBody_adds ev op inp corr acc i k :
  (k < 29)%nat ->
  (ColoredICPBody ev op inp corr acc i).[k]
  = acc.[k] + (ColoredICPBody ev op inp corr (zeros 29) i).[k].
Proof.
  intros Hk. unfold ColoredICPBody.
  destruct (GetJacobianColoredICP ev i inp corr) as [[[[valid JG] JI] rG] rI].
  destruct valid.
  - rewrite !at_vadd, at_zeros by exact Hk. lra.
  - rewrite at_zeros. lra.
Qed.

(** Every entry of the point-to-plane accumulator is the sum of the
    per-observation contributions. *)
Lemma PointToPlaneKernel_entry ev op s src tgt nrm corr n k :
  (k < 29)%nat ->
  (ComputePosePointToPlaneKernelCPU ev op s src tgt nrm corr n).[k]
  = sumR (map (fun i =>
                 (PointToPlaneBody ev op src tgt nrm corr (zeros 29) i).[k])
              (seq 0 n)).
Proof.
  intros Hk. unfold ComputePosePointToPlaneKernelCPU.
  rewrite at_map_seq by exact Hk.
  apply parallel_reduce_entry; [|exact Hk].
  intros acc i j Hj. now apply PointToPlaneBody_adds.
Qed.

Lemma ColoredICPKernel_entry ev op s inp corr n k :
  (k < 29)%nat ->
  (ComputePoseColoredICPKernelCPU ev op s inp corr n).[k]
  = sumR (map (fun i => (ColoredICPBody ev op inp corr (zeros 29) i).[k])
              (seq 0 n)).
Proof.
  intros Hk. unfold ComputePoseColoredICPKernelCPU.
  rewrite at_map_seq by exact Hk.
  apply parallel_reduce_entry; [|exact Hk].
  intros acc i j Hj. now apply ColoredICPBody_adds.
Qed.

Lemma PointToPlaneBody_entry27 ev op src tgt nrm corr i :
  (PointToPlaneBody ev op src tgt nrm corr (zeros 29) i).[27]
  = if p2p_valid ev src tgt nrm corr i
    then p2p_residual ev src tgt nrm corr i * p2p_residual ev src tgt nrm corr i
    else 0.
Proof.
  unfold PointToPlaneBody, p2p_valid, p2p_residual.
  destruct (GetJacobianPointToPlane ev i src tgt nrm corr) as [[valid J] r].
  cbn [fst snd]. destruct valid.
  - rewrite at_vadd, at_zeros by lia. unfold at_. cbn [nth]. lra.
  - apply at_zeros.
Qed.

Lemma ColoredICPBody_entry27 ev op inp corr i :
  (ColoredICPBody ev op inp corr (zeros 29) i).[27]
  = if cicp_valid ev inp corr i
    then cicp_residual_G ev inp corr i * cicp_residual_G ev inp corr i
         + cicp_residual_I ev inp corr i * cicp_residual_I ev inp corr i
    else 0.
Proof.
  unfold ColoredICPBody, cicp_valid, cicp_residual_G, cicp_residual_I.
  destruct (GetJacobianColoredICP ev i inp corr) as [[[[valid JG] JI] rG] rI].
  destruct valid.
  - rewrite at_vadd, at_zeros by lia. unfold at_. cbn [nth]. lra.
  - apply at_zeros.
Qed.

Lemma PointToPlaneBody_entry28 ev op src tgt nrm corr i :
  (PointToPlaneBody ev op src tgt nrm corr (zeros 29) i).[28]
  = if p2p_valid ev src tgt nrm corr i then 1 else 0.
Proof.
  unfold PointToPlaneBody, p2p_valid.
  destruct (GetJacobianPointToPlane ev i src tgt nrm corr) as [[valid J] r].
  cbn [fst]. destruct valid.
  - rewrite at_vadd, at_zeros by lia. unfold at_. cbn [nth]. lra.
  - apply at_zeros.
Qed.

(** Entry 28 counts the valid observations. *)
Lemma PointToPlaneKernel_inlier_entry ev op s src tgt nrm corr n :
  (ComputePosePointToPlaneKernelCPU ev op s src tgt nrm corr n).[28]
  = INR (length (filter (p2p_valid ev src tgt nrm corr) (seq 0 n))).
Proof.
  rewrite PointToPlaneKernel_entry by lia.
  rewrite <- sumR_indicator. apply sumR_ext. intros i _.
  apply PointToPlaneBody_entry28.
Qed.

(** The accumulator does not depend on how the range was split. *)
Corollary PointToPlaneKernel_schedule_independent ev op s s' src tgt nrm
    corr n :
  ComputePosePointToPlaneKernelCPU ev op s src tgt nrm corr n
  = ComputePosePointToPlaneKernelCPU ev op s' src tgt nrm corr n.
Proof.
  unfold ComputePosePointToPlaneKernelCPU.
  apply map_ext_in. intros k Hk. apply in_seq in Hk.
  pose proof (PointToPlaneKernel_entry ev op s src tgt nrm corr n k) as E1.
  pose proof (PointToPlaneKernel_entry ev op s' src tgt nrm corr n k) as E2.
  unfold ComputePosePointToPlaneKernelCPU in E1, E2.
  rewrite at_map_seq in E1, E2 by lia.
  rewrite E1, E2 by lia. reflexivity.
Qed.

(** C2 (as amended).  After the reduction, under every schedule, entry 27
    of the point-to-plane accumulator is the plain sum of the squared
    residuals r * r of the valid observations, and entry 27 of the
    colored-ICP accumulator is the plain sum of r_G * r_G + r_I * r_I; the
    robust weight does not enter this entry. *)
Theorem residual_entry_is_unweighted_sum :
  forall (ev : PointToPlaneEvaluator) (evc : ColoredICPEvaluator)
         (op : robust_kernel) (s : schedule)
         (src tgt nrm : list R) (inp : ColoredICPInputs)
         (corr : list Z) (n : nat),
    (ComputePosePointToPlaneKernelCPU ev op s src tgt nrm corr n).[27]
    = sumR (map (fun i => p2p_residual ev src tgt nrm corr i
                          * p2p_residual ev src tgt nrm corr i)
                (filter (p2p_valid ev src tgt nrm corr) (seq 0 n)))
    /\
    (ComputePoseColoredICPKernelCPU evc op s inp corr n).[27]
    = sumR (map (fun i => cicp_residual_G evc inp corr i
                          * cicp_residual_G evc inp corr i
                          + cicp_residual_I evc inp corr i
                            * cicp_residual_I evc inp corr i)
                (filter (cicp_valid evc inp corr) (seq 0 n))).
Proof.
  intros. split.
  - rewrite PointToPlaneKernel_entry by lia.
    rewrite sumR_filter. apply sumR_ext. intros i _.
    apply PointToPlaneBody_entry27.
  - rewrite ColoredICPKernel_entry by lia.
    rewrite sumR_filter. apply sumR_ext. intros i _.
    apply ColoredICPBody_entry27.
Qed.

(** C2 (as stated) fails: one observation with residual 2 under the
    Geman-McClure kernel of scale 1 (weight 1/25) leaves 4 in entry 27,
    whereas the weighted residual is 4/25. *)
Lemma residual_entry_not_weighted :
  (ComputePosePointToPlaneKernelCPU textbook_point_to_plane (GMLoss 1) Serial
     [0; 0; 2] [0; 0; 0] [0; 0; 1] [0%Z] 1).[27] = 4
  /\ weighted_residual_p2p textbook_point_to_plane (GMLoss 1)
       [0; 0; 2] [0; 0; 0] [0; 0; 1] [0%Z] 1 = 4 / 25
  /\ (ComputePosePointToPlaneKernelCPU textbook_point_to_plane (GMLoss 1)
        Serial [0; 0; 2] [0; 0; 0] [0; 0; 1] [0%Z] 1).[27]
     <> weighted_residual_p2p textbook_point_to_plane (GMLoss 1)
          [0; 0; 2] [0; 0; 0] [0; 0; 1] [0%Z] 1.
Proof.
  assert (H1 : (ComputePosePointToPlaneKernelCPU textbook_point_to_plane
                  (GMLoss 1) Serial [0; 0; 2] [0; 0; 0] [0; 0; 1] [0%Z] 1).[27]
               = 4).
  { run_model. lra. }
  assert (H2 : weighted_residual_p2p textbook_point_to_plane (GMLoss 1)
                 [0; 0; 2] [0; 0; 0] [0; 0; 1] [0%Z] 1 = 4 / 25).
  { run_model. field. }
  repeat split; [exact H1 | exact H2 |].
  rewrite H1, H2. lra.
Qed.

Lemma trunc_INR (n : nat) : trunc (INR n) = Z.of_nat n.
Proof.
  unfold trunc. destruct (Rle_dec 0 (INR n)) as [_|H].
  - apply Int_part_INR.
  - exfalso. apply H, pos_INR.
Qed.

Lemma PointToPlaneBody_sentinel ev op src tgt nrm corr A i :
  rdi corr (Z.of_nat i) = (-1)%Z ->
  PointToPlaneBody ev op src tgt nrm corr A i = A.
Proof.
  intros H. unfold PointToPlaneBody, GetJacobianPointToPlane.
  rewrite H. reflexivity.
Qed.

Lemma ColoredICPBody_sentinel ev op inp corr A i :
  rdi corr (Z.of_nat i) = (-1)%Z ->
  ColoredICPBody ev op inp corr A i = A.
Proof.
  intros H. unfold ColoredICPBody, GetJacobianColoredICP.
  rewrite H. reflexivity.
Qed.

Lemma MeanBody_sentinel src tgt corr A i :
  rdi corr (Z.of_nat i) = (-1)%Z -> MeanBody src tgt corr A i = A.
Proof. intros H. unfold MeanBody. rewrite H. reflexivity. Qed.

Lemma SxyBody_sentinel src tgt corr mean A i :
  rdi corr (Z.of_nat i) = (-1)%Z -> SxyBody src tgt corr mean A i = A.
Proof. intros H. unfold SxyBody. rewrite H. reflexivity. Qed.

Lemma map_const_repeat {A : Type} (c : R) (l : list A) :
  map (fun _ => c) l = repeat c (length l).
Proof. induction l as [|x l IH]; simpl; [reflexivity | now rewrite IH]. Qed.

Lemma map_const_zero (f : nat -> R) (n : nat) :
  (forall k, (k < n)%nat -> f k = 0) -> map f (seq 0 n) = repeat 0 n.
Proof.
  intros H.
  rewrite (map_ext_in f (fun _ => 0)).
  - now rewrite map_const_repeat, length_seq.
  - intros k Hk. apply in_seq in Hk. apply H. lia.
Qed.

(** With only sentinels in range, the point-to-plane accumulator is zero. *)
Lemma PointToPlaneKernel_all_sentinel ev op s src tgt nrm corr n :
  (forall i, (i < n)%nat -> rdi corr (Z.of_nat i) = (-1)%Z) ->
  ComputePosePointToPlaneKernelCPU ev op s src tgt nrm corr n = repeat 0 29.
Proof.
  intros Hall.
  assert (E : forall k, (k < 29)%nat ->
            (ComputePosePointToPlaneKernelCPU ev op s src tgt nrm corr n).[k]
            = 0).
  { intros k Hk. rewrite PointToPlaneKernel_entry by exact Hk.
    rewrite <- (sumR_zero (seq 0 n)). apply sumR_ext. intros i Hi.
    apply in_seq in Hi.
    rewrite PointToPlaneBody_sentinel by (apply Hall; lia). apply at_zeros. }
  unfold ComputePosePointToPlaneKernelCPU in *.
  apply map_const_zero. intros k Hk.
  specialize (E k Hk). rewrite at_map_seq in E by exact Hk. exact E.
Qed.

(** C6.  An observation whose correspondence is the sentinel -1 leaves
    every accumulator as it is: the 29 entries of the point-to-plane and
    colored-ICP kernels and the 7 and 9 entries of the two point-to-point
    passes.  When every correspondence in range is -1,
    ComputePosePointToPlane reports residual 0 and inlier_count 0, and its
    pose is what the dense solver returns on the zero system. *)
Theorem sentinel_contributes_zero :
  forall (ev : PointToPlaneEvaluator) (evc : ColoredICPEvaluator)
         (op : robust_kernel) (Solve6x6 : list (list R) -> list R -> list R)
         (s : schedule) (src tgt nrm : list R) (inp : ColoredICPInputs)
         (corr : list Z),
    (forall (i : nat) (mean A29 A7 A9 : list R),
        rdi corr (Z.of_nat i) = (-1)%Z ->
        PointToPlaneBody ev op src tgt nrm corr A29 i = A29 /\
        ColoredICPBody evc op inp corr A29 i = A29 /\
        MeanBody src tgt corr A7 i = A7 /\
        SxyBody src tgt corr mean A9 i = A9)
    /\
    ((forall i, (i < GetLength src)%nat -> rdi corr (Z.of_nat i) = (-1)%Z) ->
     ComputePosePointToPlaneCPU Solve6x6 ev op s src tgt nrm corr
     = (Solve6x6 (repeat (repeat 0 6) 6) (repeat 0 6), 0, 0%Z)).
Proof.
  intros. split.
  - intros i mean A29 A7 A9 H. repeat split.
    + now apply PointToPlaneBody_sentinel.
    + now apply ColoredICPBody_sentinel.
    + now apply MeanBody_sentinel.
    + now apply SxyBody_sentinel.
  - intros Hall. unfold ComputePosePointToPlaneCPU.
    rewrite PointToPlaneKernel_all_sentinel by exact Hall.
    unfold DecodeAndSolve6x6.
    replace (trunc (repeat 0 29).[28]) with (trunc (INR 0))
      by (unfold at_; reflexivity).
    rewrite trunc_INR.
    f_equal.
Qed.

(** Witness for C6: a single observation without correspondence. *)
Lemma sentinel_contributes_zero_witness :
  PointToPlaneBody textbook_point_to_plane (GMLoss 1) [0; 0; 2] [0; 0; 0]
    [0; 0; 1] [(-1)%Z] (zeros 29) 0 = zeros 29
  /\ ComputePosePointToPlaneCPU sample_Solve6x6 textbook_point_to_plane
       (GMLoss 1) Serial [0; 0; 2] [0; 0; 0] [0; 0; 1] [(-1)%Z]
     = (sample_Solve6x6 (repeat (repeat 0 6) 6) (repeat 0 6), 0, 0%Z).
Proof.
  pose proof (sentinel_contributes_zero textbook_point_to_plane
                sample_colored_icp (GMLoss 1) sample_Solve6x6 Serial
                [0; 0; 2] [0; 0; 0] [0; 0; 1] sample_colored_inputs
                [(-1)%Z]) as [Hbody Hall].
  split.
  - apply (Hbody 0%nat (zeros 7) (zeros 29) (zeros 7) (zeros 9)).
    reflexivity.
  - apply Hall. intros i Hi.
    change (GetLength [0; 0; 2]) with 1%nat in Hi.
    destruct i as [|i]; [reflexivity | lia].
Defined.

(** ** Point-to-point: the two reductions of Get3x3SxyLinearSystem *)

Lemma value_bind {A B : Type} (m : Traced A) (f : A -> Traced B) :
  value (bind m f) = value (f (value m)).
Proof.
  unfold value, bind. destruct m as [a t1]. cbn [fst].
  destruct (f a) as [b t2]. reflexivity.
Qed.

Lemma divisors_bind {A B : Type} (m : Traced A) (f : A -> Traced B) :
  divisors (bind m f) = divisors m ++ divisors (f (value m)).
Proof.
  unfold divisors, value, bind. destruct m as [a t1]. cbn [fst snd].
  destruct (f a) as [b t2]. reflexivity.
Qed.

Lemma value_mapT_divide {A : Type} (f : A -> R) (c : R) (l : list A) :
  value (mapT (fun i => divide (f i) c) l) = map (fun i => f i / c) l.
Proof.
  induction l as [|x l IH]; [reflexivity|].
  cbn [mapT map]. rewrite !value_bind, IH. reflexivity.
Qed.

Lemma divisors_mapT_divide {A : Type} (f : A -> R) (c : R) (l : list A) :
  divisors (mapT (fun i => divide (f i) c) l) = repeat c (length l).
Proof.
  induction l as [|x l IH]; [reflexivity|].
  cbn [mapT length repeat]. rewrite !divisors_bind, IH.
  cbn. now rewrite app_nil_r.
Qed.

Lemma MeanBody_adds src tgt corr acc i k :
  (k < 7)%nat ->
  (MeanBody src tgt corr acc i).[k]
  = acc.[k] + (MeanBody src tgt corr (zeros 7) i).[k].
Proof.
  intros Hk. unfold MeanBody.
  destruct (negb (rdi corr (Z.of_nat i) =? -1)%Z).
  - rewrite !at_vadd, at_zeros by exact Hk. lra.
  - rewrite at_zeros. lra.
Qed.

Lemma SxyBody_adds src tgt corr mean acc i k :
  (k < 9)%nat ->
  (SxyBody src tgt corr mean acc i).[k]
  = acc.[k] + (SxyBody src tgt corr mean (zeros 9) i).[k].
Proof.
  intros Hk. unfold SxyBody.
  destruct (negb (rdi corr (Z.of_nat i) =? -1)%Z).
  - rewrite !at_vadd, at_zeros by exact Hk. lra.
  - rewrite at_zeros. lra.
Qed.

(** Contribution of one observation to the first pass. *)
Lemma MeanBody_entry src tgt corr i :
  (forall k, (k < 3)%nat ->
     (MeanBody src tgt corr (zeros 7) i).[k]
     = if has_correspondence corr i then source_coord src i k else 0) /\
  (forall k, (k < 3)%nat ->
     (MeanBody src tgt corr (zeros 7) i).[3 + k]
     = if has_correspondence corr i then target_coord tgt corr i k else 0) /\
  (MeanBody src tgt corr (zeros 7) i).[6]
  = if has_correspondence corr i then 1 else 0.
Proof.
  unfold MeanBody, has_correspondence, source_coord, target_coord.
  destruct (negb (rdi corr (Z.of_nat i) =? -1)%Z).
  - repeat split; try intros k Hk; rewrite at_vadd, at_zeros by lia.
    + destruct k as [|[|[|k]]]; try lia; unfold at_; cbn [nth Nat.add];
        rewrite Rplus_0_l; f_equal; lia.
    + destruct k as [|[|[|k]]]; try lia; unfold at_; cbn [nth Nat.add];
        rewrite Rplus_0_l; f_equal; lia.
    + unfold at_; cbn [nth]. lra.
  - repeat split; intros; apply at_zeros.
Qed.

(** The first pass: coordinate sums and the number of valid pairs. *)
Lemma mean_reduction_entries s src tgt corr n :
  let m := parallel_reduce s 0 n (zeros 7) (MeanBody src tgt corr) (vadd 7) in
  (forall k, (k < 3)%nat ->
     m.[k] = sumR (map (fun i => source_coord src i k) (valid_pairs corr n)))
  /\
  (forall k, (k < 3)%nat ->
     m.[3 + k]
     = sumR (map (fun i => target_coord tgt corr i k) (valid_pairs corr n)))
  /\
  m.[6] = INR (length (valid_pairs corr n)).
Proof.
  intros m.
  assert (E : forall k, (k < 7)%nat ->
            m.[k] = sumR (map (fun i => (MeanBody src tgt corr (zeros 7) i).[k])
                              (seq 0 n))).
  { intros k Hk. unfold m. apply parallel_reduce_entry; [|exact Hk].
    intros acc i j Hj. now apply MeanBody_adds. }
  unfold valid_pairs. repeat split.
  - intros k Hk. rewrite E by lia. rewrite sumR_filter.
    apply sumR_ext. intros i _.
    now apply (proj1 (MeanBody_entry src tgt corr i)).
  - intros k Hk. rewrite E by lia. rewrite sumR_filter.
    apply sumR_ext. intros i _.
    now apply (proj1 (proj2 (MeanBody_entry src tgt corr i))).
  - rewrite E by lia. rewrite <- sumR_indicator.
    apply sumR_ext. intros i _.
    apply (proj2 (proj2 (MeanBody_entry src tgt corr i))).
Qed.

Lemma divided_means_entry (m : list R) (k : nat) :
  (k < 6)%nat -> (divided_means m).[k] = m.[k] / m.[6].
Proof.
  intros Hk. unfold divided_means, at_ at 1.
  rewrite app_nth1 by (rewrite length_map, length_seq; exact Hk).
  now apply at_map_seq.
Qed.

Lemma divided_means_count (m : list R) : (divided_means m).[6] = m.[6].
Proof.
  unfold divided_means, at_ at 1.
  rewrite app_nth2 by (rewrite length_map, length_seq; lia).
  rewrite length_map, length_seq. reflexivity.
Qed.

Lemma divided_means_source s src tgt corr n k :
  (k < 3)%nat ->
  (divided_means
     (parallel_reduce s 0 n (zeros 7) (MeanBody src tgt corr) (vadd 7))).[k]
  = mean_source src corr n k.
Proof.
  intros Hk. rewrite divided_means_entry by lia.
  destruct (mean_reduction_entries s src tgt corr n) as (Hs & _ & Hc).
  cbv zeta in Hs, Hc. rewrite Hs, Hc by exact Hk. reflexivity.
Qed.

Lemma divided_means_target s src tgt corr n k :
  (k < 3)%nat ->
  (divided_means
     (parallel_reduce s 0 n (zeros 7) (MeanBody src tgt corr) (vadd 7))).[3 + k]
  = mean_target tgt corr n k.
Proof.
  intros Hk. rewrite divided_means_entry by lia.
  destruct (mean_reduction_entries s src tgt corr n) as (_ & Ht & Hc).
  cbv zeta in Ht, Hc. rewrite Ht, Hc by exact Hk. reflexivity.
Qed.

Lemma divided_means_valid_count s src tgt corr n :
  (divided_means
     (parallel_reduce s 0 n (zeros 7) (MeanBody src tgt corr) (vadd 7))).[6]
  = INR (length (valid_pairs corr n)).
Proof.
  rewrite divided_means_count.
  apply (proj2 (proj2 (mean_reduction_entries s src tgt corr n))).
Qed.

(** What [Get3x3SxyLinearSystem] returns, with the divisions performed. *)
Lemma Get3x3SxyLinearSystem_value s1 s2 src tgt corr n :
  value (Get3x3SxyLinearSystem s1 s2 src tgt corr n)
  = let mean_1x7 :=
      divided_means
        (parallel_reduce s1 0 n (zeros 7) (MeanBody src tgt corr) (vadd 7)) in
    let sxy_1x9 :=
      parallel_reduce s2 0 n (zeros 9) (SxyBody src tgt corr mean_1x7)
        (vadd 9) in
    (map (fun i => sxy_1x9.[i] / mean_1x7.[6]) (seq 0 9),
     map (fun j => mean_1x7.[j + 3]) (seq 0 3),
     map (fun j => mean_1x7.[j]) (seq 0 3),
     trunc mean_1x7.[6]).
Proof.
  unfold Get3x3SxyLinearSystem.
  rewrite value_bind, value_mapT_divide. cbv zeta.
  rewrite value_bind, value_mapT_divide. reflexivity.
Qed.

(** Contribution of one observation to the second pass. *)
Lemma SxyBody_entry src tgt corr mean w i :
  (i < 9)%nat ->
  (SxyBody src tgt corr mean (zeros 9) w).[i]
  = if has_correspondence corr w
    then (source_coord src w (i mod 3) - mean.[i mod 3])
         * (target_coord tgt corr w (i / 3) - mean.[3 + i / 3])
    else 0.
Proof.
  intros Hi. unfold SxyBody, has_correspondence, source_coord, target_coord.
  destruct (negb (rdi corr (Z.of_nat w) =? -1)%Z).
  - rewrite at_vadd, at_zeros, at_map_seq by exact Hi. cbv zeta. lra.
  - apply at_zeros.
Qed.

(** The second pass accumulates, at index [i], the products of the
    centred source coordinate [i mod 3] and target coordinate [i / 3]. *)
Lemma sxy_reduction_entry s1 s2 src tgt corr n i :
  (i < 9)%nat ->
  (parallel_reduce s2 0 n (zeros 9)
     (SxyBody src tgt corr
        (divided_means
           (parallel_reduce s1 0 n (zeros 7) (MeanBody src tgt corr)
              (vadd 7))))
     (vadd 9)).[i]
  = cross_covariance src tgt corr n (i mod 3) (i / 3).
Proof.
  intros Hi.
  rewrite (parallel_reduce_entry 9 _
             (fun w => SxyBody src tgt corr
                         (divided_means
                            (parallel_reduce s1 0 n (zeros 7)
                               (MeanBody src tgt corr) (vadd 7)))
                         (zeros 9) w));
    [| intros acc w j Hj; now apply SxyBody_adds | exact Hi].
  unfold cross_covariance, valid_pairs. rewrite sumR_filter.
  apply sumR_ext. intros w _.
  rewrite SxyBody_entry by exact Hi.
  rewrite divided_means_source by (apply Nat.mod_upper_bound; lia).
  rewrite divided_means_target by (apply Nat.Div0.div_lt_upper_bound; lia).
  reflexivity.
Qed.

Lemma Sxy_of_entries s1 s2 src tgt corr :
  Sxy_of s1 s2 src tgt corr
  = map (fun i =>
           cross_covariance src tgt corr (GetLength src) (i mod 3) (i / 3)
           / INR (length (valid_pairs corr (GetLength src))))
        (seq 0 9).
Proof.
  unfold Sxy_of. rewrite Get3x3SxyLinearSystem_value. cbv zeta.
  apply map_ext_in. intros i Hi. apply in_seq in Hi.
  rewrite sxy_reduction_entry by lia.
  rewrite divided_means_valid_count. reflexivity.
Qed.

Lemma valid_count_nonzero corr n :
  valid_pairs corr n <> [] -> INR (length (valid_pairs corr n)) <> 0.
Proof.
  intros H. apply not_0_INR. destruct (valid_pairs corr n); [congruence|].
  discriminate.
Qed.

(** C3 (as amended).  With at least one valid pair, the matrix handed to
    the SVD has at row j, column k the entry (k, j) of the cross-covariance
    sum of (source_i - mean_source)(target_i - mean_target)^t over the valid
    pairs, divided by the number of valid pairs (a nonzero divisor): it is
    the transpose of that sum, scaled by 1/count. *)
Theorem Sxy_is_scaled_transposed_cross_covariance :
  forall (s1 s2 : schedule) (src tgt : list R) (corr : list Z),
    valid_pairs corr (GetLength src) <> [] ->
    INR (length (valid_pairs corr (GetLength src))) <> 0 /\
    Sxy_of s1 s2 src tgt corr
    = map (fun i =>
             cross_covariance src tgt corr (GetLength src) (i mod 3) (i / 3)
             / INR (length (valid_pairs corr (GetLength src))))
          (seq 0 9).
Proof.
  intros s1 s2 src tgt corr Hvalid. split.
  - now apply valid_count_nonzero.
  - apply Sxy_of_entries.
Qed.

Lemma skew_cross_covariance :
  cross_covariance_matrix skew_source skew_target skew_corres
    (GetLength skew_source)
  = [0; 2; 0; 0; 0; 0; 0; 0; 0].
Proof. run_model. list_eq ltac:(field). Qed.

Lemma skew_Sxy (s1 s2 : schedule) :
  Sxy_of s1 s2 skew_source skew_target skew_corres
  = [0; 0; 0; 1; 0; 0; 0; 0; 0].
Proof.
  rewrite Sxy_of_entries. run_model. list_eq ltac:(field).
Qed.

(** Witness for C3: two matched pairs, source on the x axis and target on
    the y axis. *)
Lemma Sxy_is_scaled_transposed_cross_covariance_witness :
  INR (length (valid_pairs skew_corres (GetLength skew_source))) <> 0 /\
  Sxy_of Serial Serial skew_source skew_target skew_corres
  = map (fun i =>
           cross_covariance skew_source skew_target skew_corres
             (GetLength skew_source) (i mod 3) (i / 3)
           / INR (length (valid_pairs skew_corres (GetLength skew_source))))
        (seq 0 9).
Proof.
  apply (Sxy_is_scaled_transposed_cross_covariance Serial Serial skew_source
           skew_target skew_corres).
  vm_compute. discriminate.
Defined.

(** C3 (as stated) fails: on the two skew pairs the matrix handed to the
    SVD has its only nonzero entry, 1, at row 1, column 0, whereas the
    cross-covariance sum has its only nonzero entry, 2, at row 0,
    column 1. *)
Lemma Sxy_is_not_cross_covariance :
  Sxy_of Serial Serial skew_source skew_target skew_corres
  = [0; 0; 0; 1; 0; 0; 0; 0; 0]
  /\ cross_covariance_matrix skew_source skew_target skew_corres
       (GetLength skew_source)
     = [0; 2; 0; 0; 0; 0; 0; 0; 0]
  /\ Sxy_of Serial Serial skew_source skew_target skew_corres
     <> cross_covariance_matrix skew_source skew_target skew_corres
          (GetLength skew_source).
Proof.
  split; [apply skew_Sxy|]. split; [apply skew_cross_covariance|].
  rewrite skew_Sxy, skew_cross_covariance. intros H.
  injection H as H. lra.
Qed.

(** ** Point-to-point: the divisions *)

Lemma Get3x3SxyLinearSystem_divisors s1 s2 src tgt corr n :
  divisors (Get3x3SxyLinearSystem s1 s2 src tgt corr n)
  = repeat (INR (length (valid_pairs corr n))) 15.
Proof.
  unfold Get3x3SxyLinearSystem.
  rewrite divisors_bind, divisors_mapT_divide, value_mapT_divide. cbv zeta.
  rewrite divisors_bind, divisors_mapT_divide.
  fold (divided_means
          (parallel_reduce s1 0 n (zeros 7) (MeanBody src tgt corr) (vadd 7))).
  rewrite divided_means_valid_count.
  rewrite (proj2 (proj2 (mean_reduction_entries s1 src tgt corr n))).
  reflexivity.
Qed.

Lemma valid_pairs_nonempty_iff corr n :
  valid_pairs corr n <> []
  <-> exists i, (i < n)%nat /\ rdi corr (Z.of_nat i) <> (-1)%Z.
Proof.
  unfold valid_pairs. split.
  - intros H.
    destruct (filter (has_correspondence corr) (seq 0 n)) as [|i l] eqn:E;
      [congruence|].
    assert (Hin : In i (filter (has_correspondence corr) (seq 0 n)))
      by (rewrite E; left; reflexivity).
    apply filter_In in Hin. destruct Hin as [Hseq Hc].
    apply in_seq in Hseq. exists i. split; [lia|].
    unfold has_correspondence in Hc. intros Heq. rewrite Heq in Hc.
    discriminate.
  - intros (i & Hi & Hc) E.
    assert (Hin : In i (filter (has_correspondence corr) (seq 0 n))).
    { apply filter_In. split; [apply in_seq; lia|].
      unfold has_correspondence. apply negb_true_iff. now apply Z.eqb_neq. }
    rewrite E in Hin. exact Hin.
Qed.

Lemma valid_pairs_all_sentinel corr n :
  (forall i, (i < n)%nat -> rdi corr (Z.of_nat i) = (-1)%Z) ->
  valid_pairs corr n = [].
Proof.
  intros Hall.
  destruct (valid_pairs corr n) as [|i l] eqn:E; [reflexivity|].
  assert (Hne : valid_pairs corr n <> []) by (rewrite E; discriminate).
  apply valid_pairs_nonempty_iff in Hne. destruct Hne as (j & Hj & Hc).
  exfalso. apply Hc, Hall, Hj.
Qed.

(** C10.  [Get3x3SxyLinearSystem] performs its 6 + 9 divisions
    unconditionally, each by the count of valid correspondences; that
    divisor is nonzero exactly when some correspondence in range differs
    from -1, and for an all-sentinel input all fifteen divisors are 0. *)
Theorem divisions_by_valid_count_unguarded :
  forall (s1 s2 : schedule) (src tgt : list R) (corr : list Z) (n : nat),
    divisors (Get3x3SxyLinearSystem s1 s2 src tgt corr n)
    = repeat (INR (length (valid_pairs corr n))) 15
    /\
    (INR (length (valid_pairs corr n)) <> 0
     <-> exists i, (i < n)%nat /\ rdi corr (Z.of_nat i) <> (-1)%Z)
    /\
    ((forall i, (i < n)%nat -> rdi corr (Z.of_nat i) = (-1)%Z) ->
     divisors (Get3x3SxyLinearSystem s1 s2 src tgt corr n) = repeat 0 15).
Proof.
  intros. repeat split.
  - apply Get3x3SxyLinearSystem_divisors.
  - intros H. apply valid_pairs_nonempty_iff. intros E.
    rewrite E in H. apply H. reflexivity.
  - intros H. apply valid_count_nonzero. now apply valid_pairs_nonempty_iff.
  - intros Hall. rewrite Get3x3SxyLinearSystem_divisors.
    rewrite valid_pairs_all_sentinel by exact Hall. reflexivity.
Qed.

(** Witness for C10: two source points, neither matched. *)
Lemma divisions_by_valid_count_unguarded_witness :
  divisors (Get3x3SxyLinearSystem Serial Serial skew_source skew_target
              [(-1)%Z; (-1)%Z] 2)
  = repeat 0 15.
Proof.
  apply (divisions_by_valid_count_unguarded Serial Serial skew_source
           skew_target [(-1)%Z; (-1)%Z] 2).
  intros i Hi. destruct i as [|[|i]]; [reflexivity | reflexivity | lia].
Defined.

(** ** Point-to-point: rotation and translation *)

(** Entries of explicit 3x3 products, for [ring]. *)
Ltac mat_entries :=
  cbv beta iota zeta delta
    [Det33 Matmul33 Matvec33 T33 Eye3 Diag11 Diag3 vsub3 at_ map seq nth
     Nat.div Nat.modulo Nat.divmod Nat.add Nat.mul Nat.sub fst snd].

Lemma Det33_Matmul33 (a b : list R) :
  Det33 (Matmul33 a b) = Det33 a * Det33 b.
Proof. mat_entries. ring. Qed.

Lemma Det33_T33 (a : list R) : Det33 (T33 a) = Det33 a.
Proof. mat_entries. ring. Qed.

Lemma Det33_Eye3 : Det33 Eye3 = 1.
Proof. mat_entries. ring. Qed.

Lemma Det33_Diag11 (d : R) : Det33 (Diag11 d) = d.
Proof. mat_entries. ring. Qed.

Lemma square_one (d : R) : d * d = 1 -> d = 1 \/ d = -1.
Proof.
  intros H. assert (E : (d - 1) * (d + 1) = 0) by lra.
  apply Rmult_integral in E. destruct E; [left | right]; lra.
Qed.

(** Orthogonal factors have determinant 1 or -1. *)
Lemma orthogonal_det_left (U : list R) :
  Matmul33 (T33 U) U = Eye3 -> Det33 U = 1 \/ Det33 U = -1.
Proof.
  intros H. apply (f_equal Det33) in H.
  rewrite Det33_Matmul33, Det33_T33, Det33_Eye3 in H.
  now apply square_one.
Qed.

Lemma orthogonal_det_right (VT : list R) :
  Matmul33 VT (T33 VT) = Eye3 -> Det33 VT = 1 \/ Det33 VT = -1.
Proof.
  intros H. apply (f_equal Det33) in H.
  rewrite Det33_Matmul33, Det33_T33, Det33_Eye3 in H.
  now apply square_one.
Qed.

(** The sign matrix chosen by the branch on det(U) * det(V), and the
    rotation built from it. *)
Lemma sign_correction (U VT : list R) :
  Matmul33 (T33 U) U = Eye3 ->
  Matmul33 VT (T33 VT) = Eye3 ->
  let S := if Rlt_dec (Det33 U * Det33 (T33 VT)) 0 then Diag11 (-1)
           else Eye3 in
  S = Diag11 (Det33 U * Det33 (T33 VT)) /\
  Det33 (Matmul33 U (Matmul33 S VT)) = 1.
Proof.
  intros HU HV S.
  pose proof (orthogonal_det_left U HU) as dU.
  pose proof (orthogonal_det_right VT HV) as dV.
  assert (HS : S = Diag11 (Det33 U * Det33 (T33 VT))).
  { unfold S. rewrite Det33_T33.
    destruct (Rlt_dec (Det33 U * Det33 VT) 0) as [Hneg|Hpos].
    - replace (Det33 U * Det33 VT) with (-1); [reflexivity|].
      destruct dU as [EU | EU], dV as [EV | EV]; rewrite EU, EV in *; lra.
    - replace (Det33 U * Det33 VT) with 1; [reflexivity|].
      destruct dU as [EU | EU], dV as [EV | EV]; rewrite EU, EV in *; lra. }
  split; [exact HS|].
  rewrite HS, !Det33_Matmul33, Det33_Diag11, Det33_T33.
  destruct dU as [EU | EU], dV as [EV | EV]; rewrite EU, EV; lra.
Qed.

(** What [ComputeRtPointToPointCPU] returns, in terms of the matrix
    handed to the SVD and of the divided means. *)
Lemma ComputeRtPointToPointCPU_value SVD s1 s2 src tgt corr :
  value (ComputeRtPointToPointCPU SVD s1 s2 src tgt corr)
  = let mean :=
      divided_means
        (parallel_reduce s1 0 (GetLength src) (zeros 7)
           (MeanBody src tgt corr) (vadd 7)) in
    let '(U, D, VT) := SVD (Sxy_of s1 s2 src tgt corr) in
    let S := if Rlt_dec (Det33 U * Det33 (T33 VT)) 0 then Diag11 (-1)
             else Eye3 in
    let R := Matmul33 U (Matmul33 S VT) in
    (R,
     vsub3 (map (fun j => mean.[j + 3]) (seq 0 3))
           (Matvec33 R (map (fun j => mean.[j]) (seq 0 3))),
     trunc mean.[6]).
Proof.
  unfold ComputeRtPointToPointCPU, Sxy_of. cbv zeta.
  rewrite value_bind, Get3x3SxyLinearSystem_value. cbv beta iota zeta.
  destruct (SVD _) as [[U D] VT]. reflexivity.
Qed.

Lemma rotation_of_eq SVD s1 s2 src tgt corr :
  rotation_of SVD s1 s2 src tgt corr
  = let '(U, D, VT) := SVD (Sxy_of s1 s2 src tgt corr) in
    Matmul33 U
      (Matmul33 (if Rlt_dec (Det33 U * Det33 (T33 VT)) 0 then Diag11 (-1)
                 else Eye3) VT).
Proof.
  unfold rotation_of. rewrite ComputeRtPointToPointCPU_value. cbv zeta.
  destruct (SVD _) as [[U D] VT]. reflexivity.
Qed.

Lemma translation_of_eq SVD s1 s2 src tgt corr :
  translation_of SVD s1 s2 src tgt corr
  = vsub3 (map (mean_target tgt corr (GetLength src)) (seq 0 3))
          (Matvec33 (rotation_of SVD s1 s2 src tgt corr)
             (map (mean_source src corr (GetLength src)) (seq 0 3))).
Proof.
  unfold translation_of, rotation_of.
  rewrite ComputeRtPointToPointCPU_value. cbv zeta.
  destruct (SVD _) as [[U D] VT].
  f_equal; [|f_equal]; apply map_ext_in; intros j Hj; apply in_seq in Hj.
  - rewrite Nat.add_comm. apply divided_means_target. lia.
  - apply divided_means_source. lia.
Qed.

(** C1.  Whenever the SVD routine returns orthogonal factors U and Vt
    for the accumulated matrix, the rotation returned by
    ComputeRtPointToPoint is U diag(1, 1, det(U) det(V)) Vt and its
    determinant is +1, hence never -1.  Full rank of the matrix is not
    needed for this. *)
Theorem rotation_is_sign_corrected :
  forall (SVD : svd_routine) (s1 s2 : schedule) (src tgt : list R)
         (corr : list Z) (U D VT : list R),
    SVD (Sxy_of s1 s2 src tgt corr) = (U, D, VT) ->
    is_svd_of (Sxy_of s1 s2 src tgt corr) (U, D, VT) ->
    rotation_of SVD s1 s2 src tgt corr
    = Matmul33 U (Matmul33 (Diag11 (Det33 U * Det33 (T33 VT))) VT)
    /\ Det33 (rotation_of SVD s1 s2 src tgt corr) = 1
    /\ Det33 (rotation_of SVD s1 s2 src tgt corr) <> -1.
Proof.
  intros SVD s1 s2 src tgt corr U D VT Hsvd (HU & HV & _).
  rewrite rotation_of_eq, Hsvd.
  destruct (sign_correction U VT HU HV) as [HS Hdet]. cbv zeta in HS, Hdet.
  repeat split.
  - now rewrite HS.
  - exact Hdet.
  - rewrite Hdet. lra.
Qed.

Lemma tetra_mirrored_Sxy (s1 s2 : schedule) :
  Sxy_of s1 s2 tetra_points tetra_mirrored tetra_corres = Diag11 (-1).
Proof. rewrite Sxy_of_entries. run_model. list_eq ltac:(field). Qed.

(** Witness for C1: the tetrahedron matched with its mirror image.  The
    SVD hands back a reflection as left factor; the returned matrix is the
    identity. *)
Lemma rotation_is_sign_corrected_witness :
  rotation_of mirror_svd Serial Serial tetra_points tetra_mirrored tetra_corres
  = Matmul33 (Diag11 (-1))
      (Matmul33 (Diag11 (Det33 (Diag11 (-1)) * Det33 (T33 Eye3))) Eye3)
  /\ Det33 (rotation_of mirror_svd Serial Serial tetra_points tetra_mirrored
              tetra_corres) = 1
  /\ Det33 (rotation_of mirror_svd Serial Serial tetra_points tetra_mirrored
              tetra_corres) <> -1.
Proof.
  apply (rotation_is_sign_corrected mirror_svd Serial Serial tetra_points
           tetra_mirrored tetra_corres (Diag11 (-1)) [1; 1; 1] Eye3).
  - reflexivity.
  - rewrite tetra_mirrored_Sxy. unfold is_svd_of.
    repeat split; run_model; list_eq ltac:(ring).
Defined.

Lemma tetra_Sxy (s1 s2 : schedule) :
  Sxy_of s1 s2 tetra_points tetra_points tetra_corres = Eye3.
Proof. rewrite Sxy_of_entries. run_model. list_eq ltac:(field). Qed.

(** Aligning the tetrahedron with itself gives the identity rotation and
    the zero translation. *)
Example tetra_self_alignment (s1 s2 : schedule) :
  is_svd_of (Sxy_of s1 s2 tetra_points tetra_points tetra_corres)
    (identity_svd (Sxy_of s1 s2 tetra_points tetra_points tetra_corres))
  /\ rotation_of identity_svd s1 s2 tetra_points tetra_points tetra_corres
     = Eye3
  /\ translation_of identity_svd s1 s2 tetra_points tetra_points tetra_corres
     = [0; 0; 0].
Proof.
  assert (HR : rotation_of identity_svd s1 s2 tetra_points tetra_points
                 tetra_corres = Eye3).
  { rewrite rotation_of_eq. cbv beta iota zeta delta [identity_svd].
    destruct (Rlt_dec (Det33 Eye3 * Det33 (T33 Eye3)) 0) as [Hneg|_].
    - exfalso. rewrite Det33_T33, Det33_Eye3 in Hneg. lra.
    - run_model. list_eq ltac:(ring). }
  split; [|split].
  - rewrite tetra_Sxy. unfold is_svd_of, identity_svd.
    repeat split; run_model; list_eq ltac:(ring).
  - exact HR.
  - rewrite translation_of_eq, HR. run_model. list_eq ltac:(field).
Qed.

(** C4.  With at least one valid correspondence (so that the means are
    quotients by a nonzero count), the translation returned by
    ComputeRtPointToPoint is mean_target - R mean_source, the means being
    the arithmetic means over the valid pairs only and R the returned
    rotation. *)
Theorem translation_is_mean_difference :
  forall (SVD : svd_routine) (s1 s2 : schedule) (src tgt : list R)
         (corr : list Z),
    valid_pairs corr (GetLength src) <> [] ->
    INR (length (valid_pairs corr (GetLength src))) <> 0 /\
    translation_of SVD s1 s2 src tgt corr
    = vsub3 (map (mean_target tgt corr (GetLength src)) (seq 0 3))
            (Matvec33 (rotation_of SVD s1 s2 src tgt corr)
               (map (mean_source src corr (GetLength src)) (seq 0 3))).
Proof.
  intros SVD s1 s2 src tgt corr Hvalid. split.
  - now apply valid_count_nonzero.
  - apply translation_of_eq.
Qed.

(** Witness for C4: the two skew pairs. *)
Lemma translation_is_mean_difference_witness :
  INR (length (valid_pairs skew_corres (GetLength skew_source))) <> 0 /\
  translation_of identity_svd Serial Serial skew_source skew_target skew_corres
  = vsub3 (map (mean_target skew_target skew_corres (GetLength skew_source))
               (seq 0 3))
          (Matvec33
             (rotation_of identity_svd Serial Serial skew_source skew_target
                skew_corres)
             (map (mean_source skew_source skew_corres (GetLength skew_source))
                  (seq 0 3))).
Proof.
  apply (translation_is_mean_difference identity_svd Serial Serial skew_source
           skew_target skew_corres).
  vm_compute. discriminate.
Defined.

(** ** The 3x3 SVD and the solver built on it *)



(** [solve_svd3x3] multiplies out V diag(S+) Ut b. *)
Lemma SolveSmall3x3_eq (A b : list R) :
  SolveSmall3x3 A b
  = Matvec33
      (Matmul33 (svd_V A)
         (Matmul33 (Diag3 (pseudo_inverse_values (svd_S A))) (T33 (svd_U A))))
      b.
Proof.
  unfold SolveSmall3x3, solve_svd3x3, svd_U, svd_S, svd_V, svd_of.
  destruct (svd _ _ _ _ _ _ _ _ _) as [[U S0] V]. cbn [fst snd].
  unfold pseudo_inverse_values.
  set (p0 := pseudo_inverse_entry S0.[0]).
  set (p1 := pseudo_inverse_entry S0.[1]).
  set (p2 := pseudo_inverse_entry S0.[2]).
  unfold matmul3x3_3x3, matmul3x3_3x1.
  mat_entries. list_eq ltac:(ring).
Qed.

Lemma pseudo_inverse_entry_small (s : R) :
  s < epsilon -> pseudo_inverse_entry s = 0.
Proof.
  intros H. unfold pseudo_inverse_entry.
  destruct (Rlt_dec s epsilon); [reflexivity | contradiction].
Qed.

Lemma pseudo_inverse_entry_large (s : R) :
  ~ s < epsilon -> pseudo_inverse_entry s = 1 / s.
Proof.
  intros H. unfold pseudo_inverse_entry.
  destruct (Rlt_dec s epsilon); [contradiction | reflexivity].
Qed.

(** On the zero matrix the three returned values are zero. *)
Lemma svd_S_zero_matrix : svd_S (zeros 9) = [0; 0; 0].
Proof.
  unfold svd_S, svd_of. rewrite !at_zeros. unfold svd.
  destruct (jacobi_eigen _) as [[st i] r].
  destruct (quaternion_to_V st)
    as [[[[[[[[v11 v12] v13] v21] v22] v23] v31] v32] v33].
  cbv beta iota zeta delta [row_times_V sort_step].
  repeat match goal with
         | |- context [Rltb ?x ?y] =>
             destruct (Rltb x y); cbv beta iota zeta delta [cswap sel]
         end.
  all: repeat match goal with
              | |- context [qr_givens ?x ?y] =>
                  destruct (qr_givens x y) as [? ?];
                  cbv beta iota zeta delta [rotate_pair]
              end.
  all: cbn [fst snd]; list_eq ltac:(ring).
Qed.


(** ** Point-wise estimators *)

(** Over valid neighbour slots the [break] of the neighbour loop is not
    taken, and the loop leaves with [i = neighbour_count]. *)
Lemma gradient_neighbour_loop_final_i points colors indices offset nc vt nt s0
    it :
  forall (fuel : nat) (i : Z) (AtA Atb : list R),
    (forall j, (i <= j < nc)%Z -> (0 <= rdi indices (offset + j))%Z) ->
    (i <= nc)%Z ->
    (Z.to_nat (nc - i) <= fuel)%nat ->
    fst (fst (gradient_neighbour_loop fuel points colors indices offset nc
                vt nt s0 it i AtA Atb)) = nc.
Proof.
  induction fuel as [|fuel IH]; intros i AtA Atb Hvalid Hle Hfuel.
  - cbn. lia.
  - cbn [gradient_neighbour_loop].
    destruct (i <? nc)%Z eqn:Hlt.
    + apply Z.ltb_lt in Hlt.
      destruct (3 * rdi indices (offset + i) =? -1)%Z eqn:Hbrk.
      * apply Z.eqb_eq in Hbrk.
        specialize (Hvalid i ltac:(lia)). lia.
      * apply IH; [intros j Hj; apply Hvalid | |]; lia.
    + apply Z.ltb_ge in Hlt. cbn. lia.
Qed.

Lemma ColorGradientSystem_eq points normals colors indices max_nn nc w :
  (4 <= nc)%Z ->
  counted_neighbours_valid indices max_nn nc w ->
  forall i AtA0 Atb0,
    ColorGradientNeighbourSums points normals colors indices max_nn nc w
    = (i, AtA0, Atb0) ->
    i = nc /\
    ColorGradientSystem points normals colors indices max_nn nc w
    = (add_constraint_row AtA0
         (orthogonal_constraint_row nc (point_normal normals w)),
       Atb0).
Proof.
  intros Hnc Hvalid i AtA0 Atb0 Hloop.
  assert (Hi : i = nc).
  { change i with (fst (fst (i, AtA0, Atb0))). rewrite <- Hloop.
    unfold ColorGradientNeighbourSums.
    apply gradient_neighbour_loop_final_i; [exact Hvalid | lia | lia]. }
  split; [exact Hi|].
  unfold ColorGradientSystem. rewrite Hloop, Hi.
  generalize (orthogonal_constraint_row nc (point_normal normals w)).
  intros A.
  cbv beta iota zeta delta
    [add_constraint_row add_at set_at at_ map seq nth Nat.eqb].
  reflexivity.
Qed.


Lemma patch_neighbours_valid : counted_neighbours_valid patch_indices 4 4 0.
Proof.
  intros j Hj.
  assert (Hcases : j = 1%Z \/ j = 2%Z \/ j = 3%Z) by lia.
  destruct Hcases as [-> | [-> | ->]]; vm_compute; discriminate.
Qed.




(** The output tensor is made of one chunk per point. *)
Lemma flat_map_chunk (f : nat -> list R) (c : nat) :
  (forall i, length (f i) = c) ->
  forall (n start w k : nat),
    (w < n)%nat -> (k < c)%nat ->
    (flat_map f (seq start n)).[c * w + k] = (f (start + w)%nat).[k].
Proof.
  intros Hlen. unfold at_.
  induction n as [|n IH]; intros start w k Hw Hk; [lia|].
  cbn [seq flat_map]. destruct w as [|w].
  - rewrite Nat.mul_0_r, Nat.add_0_r. cbn [Nat.add].
    apply app_nth1. rewrite Hlen. exact Hk.
  - rewrite app_nth2 by (rewrite Hlen; nia).
    rewrite Hlen.
    replace (c * S w + k - c)%nat with (c * w + k)%nat by nia.
    rewrite IH by lia. f_equal. f_equal. lia.
Qed.

Lemma ColorGradientPoint_length points normals colors indices counts max_nn w :
  length (ColorGradientPoint points normals colors indices counts max_nn w)
  = 3%nat.
Proof.
  unfold ColorGradientPoint.
  destruct (rdi counts w >=? 4)%Z; [|reflexivity].
  destruct (ColorGradientSystem _ _ _ _ _ _ _) as [AtA Atb].
  destruct (solve_svd3x3 _ _ _ _ _ _ _ _ _ _ _ _) as [[x1 x2] x3].
  reflexivity.
Qed.

Lemma CovariancePoint_length K points indices counts max_nn w :
  length (CovariancePoint K points indices counts max_nn w) = 9%nat.
Proof.
  unfold CovariancePoint.
  destruct (rdi counts w >=? 3)%Z; [|reflexivity].
  now rewrite length_map, length_seq.
Qed.

Lemma ColorGradientPoint_few points normals colors indices counts max_nn w :
  (rdi counts w < 4)%Z ->
  ColorGradientPoint points normals colors indices counts max_nn w
  = [0; 0; 0].
Proof.
  intros H. unfold ColorGradientPoint.
  replace (rdi counts w >=? 4)%Z with false; [reflexivity|].
  symmetry. rewrite Z.geb_leb. apply Z.leb_gt. exact H.
Qed.

Lemma CovariancePoint_few K points indices counts max_nn w :
  (rdi counts w < 3)%Z ->
  CovariancePoint K points indices counts max_nn w = Eye3.
Proof.
  intros H. unfold CovariancePoint.
  replace (rdi counts w >=? 3)%Z with false; [reflexivity|].
  symmetry. rewrite Z.geb_leb. apply Z.leb_gt. exact H.
Qed.

(** The output of a per-point loop that writes [c] values for each
    point: its length, and the values of point [w]. *)
Lemma flat_map_length_chunks (f : nat -> list R) (c : nat) :
  (forall i, length (f i) = c) ->
  forall n start, length (flat_map f (seq start n)) = (c * n)%nat.
Proof.
  intros Hlen. induction n as [|n IH]; intros start.
  - cbn. lia.
  - cbn [seq flat_map]. rewrite length_app, Hlen, IH. lia.
Qed.

Lemma flat_map_written_for (f : nat -> list R) (c : nat) :
  (forall i, length (f i) = c) ->
  forall (n start w : nat),
    (w < n)%nat ->
    written_for c w (flat_map f (seq start n)) = f (start + w)%nat.
Proof.
  intros Hlen. unfold written_for.
  induction n as [|n IH]; intros start w Hw; [lia|].
  cbn [seq flat_map]. destruct w as [|w].
  - rewrite Nat.mul_0_r, Nat.add_0_r. cbn [skipn].
    rewrite firstn_app, Hlen, Nat.sub_diag, firstn_O, app_nil_r.
    apply firstn_all2. rewrite Hlen. lia.
  - rewrite skipn_app, Hlen.
    rewrite (skipn_all2 (f start)) by (rewrite Hlen; nia).
    cbn [app].
    replace (c * S w - c)%nat with (c * w)%nat by nia.
    rewrite IH by lia. f_equal. lia.
Qed.

(** C8.  Once the neighbour search has answered, the two estimators
    return their output tensors (no error arises from the neighbour
    counts), of 3 resp. 9 values per point; for every point with fewer
    than 4 neighbours the three values written to the colour-gradient
    output are [0,0,0], and for every point with fewer than 3 neighbours
    (for instance exactly 1) the nine values written to the covariance
    output are the 3x3 identity. *)
Theorem degenerate_neighbour_counts_fall_back :
  forall (nns : NearestNeighborSearch)
         (K : list R -> list Z -> Z -> Z -> list R)
         (points normals colors : list R) (radius : R) (max_nn : Z),
    HybridIndex nns points radius = true ->
    exists grad cov : list R,
      EstimatePointWiseColorGradientCPU nns points normals colors radius max_nn
      = Some grad /\
      EstimatePointWiseCovarianceCPU nns K points radius max_nn = Some cov /\
      length grad = (3 * GetLength points)%nat /\
      length cov = (9 * GetLength points)%nat /\
      forall w : nat,
        (w < GetLength points)%nat ->
        let neighbour_count :=
          rdi (snd (HybridSearch nns points radius max_nn)) (Z.of_nat w) in
        ((neighbour_count < 4)%Z -> written_for 3 w grad = [0; 0; 0]) /\
        ((neighbour_count < 3)%Z -> written_for 9 w cov = Eye3).
Proof.
  intros nns K points normals colors radius max_nn Hidx.
  unfold EstimatePointWiseColorGradientCPU, EstimatePointWiseCovarianceCPU.
  rewrite Hidx. cbn [negb].
  destruct (HybridSearch nns points radius max_nn)
    as [[indices distance] counts].
  eexists. eexists. split; [reflexivity|]. split; [reflexivity|].
  split; [|split].
  - apply flat_map_length_chunks. intros. apply ColorGradientPoint_length.
  - apply flat_map_length_chunks. intros. apply CovariancePoint_length.
  - intros w Hw. cbn [snd]. split; intros Hfew.
    + rewrite (flat_map_written_for _ 3) by
        (try (intros; apply ColorGradientPoint_length); assumption).
      cbn [Nat.add]. now apply ColorGradientPoint_few.
    + rewrite (flat_map_written_for _ 9) by
        (try (intros; apply CovariancePoint_length); assumption).
      cbn [Nat.add]. now apply CovariancePoint_few.
Qed.

(** Witness for C8: two isolated points, one neighbour each. *)
Lemma degenerate_neighbour_counts_fall_back_witness :
  exists grad cov : list R,
    EstimatePointWiseColorGradientCPU lonely_search two_points two_points
      two_points 1 2 = Some grad /\
    EstimatePointWiseCovarianceCPU lonely_search sample_covariance_kernel
      two_points 1 2 = Some cov /\
    length grad = (3 * GetLength two_points)%nat /\
    length cov = (9 * GetLength two_points)%nat /\
    forall w : nat,
      (w < GetLength two_points)%nat ->
      let neighbour_count :=
        rdi (snd (HybridSearch lonely_search two_points 1 2)) (Z.of_nat w) in
      ((neighbour_count < 4)%Z -> written_for 3 w grad = [0; 0; 0]) /\
      ((neighbour_count < 3)%Z -> written_for 9 w cov = Eye3).
Proof.
  apply (degenerate_neighbour_counts_fall_back lonely_search
           sample_covariance_kernel two_points two_points two_points 1 2).
  reflexivity.
Defined.

(** * Further properties *)

(** ** The packed normal equations of the 6-DoF kernels *)

(** The index of a buffer read is evaluated. *)
Ltac eval_at_index :=
  repeat match goal with
         | |- context [at_ ?l (packed_index ?a ?b)] =>
             let k := eval vm_compute in (packed_index a b) in
             change (packed_index a b) with k
         | |- context [at_ ?l (21 + ?a)%nat] =>
             let k := eval vm_compute in (21 + a)%nat in
             change (21 + a)%nat with k
         end.

Ltac p2p_entry :=
  rewrite PointToPlaneKernel_entry by lia;
  rewrite sumR_filter; apply sumR_ext; intros ? _;
  unfold PointToPlaneBody, p2p_valid, p2p_jacobian, p2p_residual;
  destruct (GetJacobianPointToPlane _ _ _ _ _ _) as [[valid J] r];
  cbn [fst snd];
  destruct valid;
  [rewrite at_vadd, at_zeros by lia; unfold at_; cbn [nth]; lra
  | apply at_zeros].

Ltac cicp_entry :=
  rewrite ColoredICPKernel_entry by lia;
  rewrite sumR_filter; apply sumR_ext; intros ? _;
  unfold ColoredICPBody, cicp_valid, cicp_jacobian_G, cicp_jacobian_I,
    cicp_residual_G, cicp_residual_I;
  destruct (GetJacobianColoredICP _ _ _ _) as [[[[valid JG] JI] rG] rI];
  destruct valid;
  [rewrite at_vadd, at_zeros by lia; unfold at_; cbn [nth]; lra
  | apply at_zeros].

(** X1.  Under every schedule, for b <= a < 6 the accumulator entry at
    the packed index a(a+1)/2 + b is entry (a, b) of Jt W J: the sum over
    the valid observations of J[a] * w * J[b] (point-to-plane), resp. of
    J_G[a] * w_G * J_G[b] + J_I[a] * w_I * J_I[b] (colored ICP). *)
Theorem packed_entries_are_JtWJ :
  forall (ev : PointToPlaneEvaluator) (evc : ColoredICPEvaluator)
         (op : robust_kernel) (s : schedule) (src tgt nrm : list R)
         (inp : ColoredICPInputs) (corr : list Z) (n a b : nat),
    (b <= a)%nat -> (a < 6)%nat ->
    (ComputePosePointToPlaneKernelCPU ev op s src tgt nrm corr n).[
      packed_index a b]
    = sumR (map (fun i =>
                   (p2p_jacobian ev src tgt nrm corr i).[a]
                   * op (p2p_residual ev src tgt nrm corr i)
                   * (p2p_jacobian ev src tgt nrm corr i).[b])
                (filter (p2p_valid ev src tgt nrm corr) (seq 0 n)))
    /\
    (ComputePoseColoredICPKernelCPU evc op s inp corr n).[packed_index a b]
    = sumR (map (fun i =>
                   (cicp_jacobian_G evc inp corr i).[a]
                   * op (cicp_residual_G evc inp corr i)
                   * (cicp_jacobian_G evc inp corr i).[b]
                   + (cicp_jacobian_I evc inp corr i).[a]
                     * op (cicp_residual_I evc inp corr i)
                     * (cicp_jacobian_I evc inp corr i).[b])
                (filter (cicp_valid evc inp corr) (seq 0 n))).
Proof.
  intros ev evc op s src tgt nrm inp corr n a b Hba Ha.
  destruct a as [|[|[|[|[|[|a]]]]]]; try lia;
    destruct b as [|[|[|[|[|[|b]]]]]]; try lia;
    eval_at_index; (split; [p2p_entry | cicp_entry]).
Qed.

(** Witness for X1: entry (1, 0), kept at packed index 1. *)
Lemma packed_entries_are_JtWJ_witness :
  (ComputePosePointToPlaneKernelCPU textbook_point_to_plane (GMLoss 1) Serial
     [0; 0; 2] [0; 0; 0] [0; 0; 1] [0%Z] 1).[packed_index 1 0]
  = sumR (map (fun i =>
                 (p2p_jacobian textbook_point_to_plane [0; 0; 2] [0; 0; 0]
                    [0; 0; 1] [0%Z] i).[1]
                 * GMLoss 1 (p2p_residual textbook_point_to_plane [0; 0; 2]
                               [0; 0; 0] [0; 0; 1] [0%Z] i)
                 * (p2p_jacobian textbook_point_to_plane [0; 0; 2] [0; 0; 0]
                      [0; 0; 1] [0%Z] i).[0])
              (filter (p2p_valid textbook_point_to_plane [0; 0; 2] [0; 0; 0]
                         [0; 0; 1] [0%Z]) (seq 0 1))).
Proof.
  apply (packed_entries_are_JtWJ textbook_point_to_plane sample_colored_icp
           (GMLoss 1) Serial [0; 0; 2] [0; 0; 0] [0; 0; 1]
           sample_colored_inputs [0%Z] 1 1 0); lia.
Defined.

(** X2.  Under every schedule, entries 21..26 hold Jt W r: entry 21 + k
    is the sum over the valid observations of J[k] * w * r, resp. of
    J_G[k] * w_G * r_G + J_I[k] * w_I * r_I. *)
Theorem rhs_entries_are_JtWr :
  forall (ev : PointToPlaneEvaluator) (evc : ColoredICPEvaluator)
         (op : robust_kernel) (s : schedule) (src tgt nrm : list R)
         (inp : ColoredICPInputs) (corr : list Z) (n k : nat),
    (k < 6)%nat ->
    (ComputePosePointToPlaneKernelCPU ev op s src tgt nrm corr n).[21 + k]
    = sumR (map (fun i =>
                   (p2p_jacobian ev src tgt nrm corr i).[k]
                   * op (p2p_residual ev src tgt nrm corr i)
                   * p2p_residual ev src tgt nrm corr i)
                (filter (p2p_valid ev src tgt nrm corr) (seq 0 n)))
    /\
    (ComputePoseColoredICPKernelCPU evc op s inp corr n).[21 + k]
    = sumR (map (fun i =>
                   (cicp_jacobian_G evc inp corr i).[k]
                   * op (cicp_residual_G evc inp corr i)
                   * cicp_residual_G evc inp corr i
                   + (cicp_jacobian_I evc inp corr i).[k]
                     * op (cicp_residual_I evc inp corr i)
                     * cicp_residual_I evc inp corr i)
                (filter (cicp_valid evc inp corr) (seq 0 n))).
Proof.
  intros ev evc op s src tgt nrm inp corr n k Hk.
  destruct k as [|[|[|[|[|[|k]]]]]]; try lia;
    eval_at_index; (split; [p2p_entry | cicp_entry]).
Qed.

(** Witness for X2: entry 21 + 5. *)
Lemma rhs_entries_are_JtWr_witness :
  (ComputePosePointToPlaneKernelCPU textbook_point_to_plane (GMLoss 1) Serial
     [0; 0; 2] [0; 0; 0] [0; 0; 1] [0%Z] 1).[21 + 5]
  = sumR (map (fun i =>
                 (p2p_jacobian textbook_point_to_plane [0; 0; 2] [0; 0; 0]
                    [0; 0; 1] [0%Z] i).[5]
                 * GMLoss 1 (p2p_residual textbook_point_to_plane [0; 0; 2]
                               [0; 0; 0] [0; 0; 1] [0%Z] i)
                 * p2p_residual textbook_point_to_plane [0; 0; 2] [0; 0; 0]
                     [0; 0; 1] [0%Z] i)
              (filter (p2p_valid textbook_point_to_plane [0; 0; 2] [0; 0; 0]
                         [0; 0; 1] [0%Z]) (seq 0 1))).
Proof.
  apply (rhs_entries_are_JtWr textbook_point_to_plane sample_colored_icp
           (GMLoss 1) Serial [0; 0; 2] [0; 0; 0] [0; 0; 1]
           sample_colored_inputs [0%Z] 1 5); lia.
Defined.

(** X3.  Under every schedule, entry 28 of both 6-DoF accumulators is
    the number of observations the evaluator reported valid. *)
Theorem inlier_entry_counts_valid_observations :
  forall (ev : PointToPlaneEvaluator) (evc : ColoredICPEvaluator)
         (op : robust_kernel) (s : schedule) (src tgt nrm : list R)
         (inp : ColoredICPInputs) (corr : list Z) (n : nat),
    (ComputePosePointToPlaneKernelCPU ev op s src tgt nrm corr n).[28]
    = INR (length (filter (p2p_valid ev src tgt nrm corr) (seq 0 n)))
    /\
    (ComputePoseColoredICPKernelCPU evc op s inp corr n).[28]
    = INR (length (filter (cicp_valid evc inp corr) (seq 0 n))).
Proof.
  intros. split.
  - apply PointToPlaneKernel_inlier_entry.
  - rewrite ColoredICPKernel_entry by lia.
    rewrite <- sumR_indicator. apply sumR_ext. intros i _.
    unfold ColoredICPBody, cicp_valid.
    destruct (GetJacobianColoredICP _ _ _ _) as [[[[valid JG] JI] rG] rI].
    destruct valid.
    + rewrite at_vadd, at_zeros by lia. unfold at_. cbn [nth]. lra.
    + apply at_zeros.
Qed.

(** ** Independence of the schedule *)

Lemma reduce_entries_schedule_independent (N : nat)
    (body : list R -> nat -> list R) (s s' : schedule) (n k : nat) :
  (forall acc i j, (j < N)%nat ->
     (body acc i).[j] = acc.[j] + (body (zeros N) i).[j]) ->
  (k < N)%nat ->
  (parallel_reduce s 0 n (zeros N) body (vadd N)).[k]
  = (parallel_reduce s' 0 n (zeros N) body (vadd N)).[k].
Proof.
  intros Hadd Hk.
  rewrite !(parallel_reduce_entry N body (fun i => body (zeros N) i))
    by assumption.
  reflexivity.
Qed.

Lemma divided_means_ext (m m' : list R) :
  (forall k, (k < 7)%nat -> m.[k] = m'.[k]) ->
  divided_means m = divided_means m'.
Proof.
  intros H. unfold divided_means. rewrite (H 6%nat) by lia.
  f_equal. apply map_ext_in. intros i Hi. apply in_seq in Hi.
  rewrite (H i) by lia. reflexivity.
Qed.

(** X4.  The result of each of the four reductions does not depend on
    how the index range was split among workers: the two 29-entry
    accumulators, and everything [Get3x3SxyLinearSystem] returns together
    with the divisors it used, are the same for any two schedules. *)
Theorem reductions_are_schedule_independent :
  forall (ev : PointToPlaneEvaluator) (evc : ColoredICPEvaluator)
         (op : robust_kernel) (s s' s1 s1' s2 s2' : schedule)
         (src tgt nrm : list R) (inp : ColoredICPInputs) (corr : list Z)
         (n : nat),
    ComputePosePointToPlaneKernelCPU ev op s src tgt nrm corr n
    = ComputePosePointToPlaneKernelCPU ev op s' src tgt nrm corr n
    /\
    ComputePoseColoredICPKernelCPU evc op s inp corr n
    = ComputePoseColoredICPKernelCPU evc op s' inp corr n
    /\
    Get3x3SxyLinearSystem s1 s2 src tgt corr n
    = Get3x3SxyLinearSystem s1' s2' src tgt corr n.
Proof.
  intros. split; [|split].
  - apply PointToPlaneKernel_schedule_independent.
  - unfold ComputePoseColoredICPKernelCPU.
    apply map_ext_in. intros k Hk. apply in_seq in Hk.
    apply (reduce_entries_schedule_independent 29); [|lia].
    intros acc i j Hj. now apply ColoredICPBody_adds.
  - assert (Hm : divided_means
                   (parallel_reduce s1 0 n (zeros 7) (MeanBody src tgt corr)
                      (vadd 7))
                 = divided_means
                     (parallel_reduce s1' 0 n (zeros 7)
                        (MeanBody src tgt corr) (vadd 7))).
    { apply divided_means_ext. intros k Hk.
      apply (reduce_entries_schedule_independent 7); [|exact Hk].
      intros acc i j Hj. now apply MeanBody_adds. }
    apply injective_projections.
    + change (value (Get3x3SxyLinearSystem s1 s2 src tgt corr n)
              = value (Get3x3SxyLinearSystem s1' s2' src tgt corr n)).
      rewrite !Get3x3SxyLinearSystem_value. cbv zeta. rewrite Hm.
      f_equal. f_equal. f_equal.
      apply map_ext_in. intros i Hi. apply in_seq in Hi.
      f_equal.
      apply (reduce_entries_schedule_independent 9); [|lia].
      intros acc w j Hj. now apply SxyBody_adds.
    + change (divisors (Get3x3SxyLinearSystem s1 s2 src tgt corr n)
              = divisors (Get3x3SxyLinearSystem s1' s2' src tgt corr n)).
      now rewrite !Get3x3SxyLinearSystem_divisors.
Qed.

(** ** The point-to-point route *)

(** X5.  The inlier count returned by ComputeRtPointToPoint is the
    number of correspondences in range that differ from -1. *)
Theorem point_to_point_inlier_count :
  forall (SVD : svd_routine) (s1 s2 : schedule) (src tgt : list R)
         (corr : list Z),
    inlier_count_of SVD s1 s2 src tgt corr
    = Z.of_nat (length (valid_pairs corr (GetLength src))).
Proof.
  intros. unfold inlier_count_of.
  rewrite ComputeRtPointToPointCPU_value. cbv zeta.
  destruct (SVD _) as [[U D] VT].
  rewrite divided_means_valid_count. apply trunc_INR.
Qed.

(** X6.  With exactly one valid correspondence the matrix handed to the
    SVD is the zero matrix, and the two means are the matched points
    themselves. *)
Theorem single_pair_gives_zero_matrix :
  forall (s1 s2 : schedule) (src tgt : list R) (corr : list Z) (i : nat),
    valid_pairs corr (GetLength src) = [i] ->
    Sxy_of s1 s2 src tgt corr = repeat 0 9 /\
    (forall k, mean_source src corr (GetLength src) k = source_coord src i k)
    /\
    (forall k, mean_target tgt corr (GetLength src) k
               = target_coord tgt corr i k).
Proof.
  intros s1 s2 src tgt corr i Hone.
  assert (Hs : forall k, mean_source src corr (GetLength src) k
                         = source_coord src i k).
  { intros k. unfold mean_source. rewrite Hone.
    cbn [map sumR fold_right length INR]. field. }
  assert (Ht : forall k, mean_target tgt corr (GetLength src) k
                         = target_coord tgt corr i k).
  { intros k. unfold mean_target. rewrite Hone.
    cbn [map sumR fold_right length INR]. field. }
  repeat split; [|exact Hs|exact Ht].
  rewrite Sxy_of_entries. apply map_const_zero. intros k Hk.
  unfold cross_covariance. rewrite Hs, Ht, Hone.
  cbn [map sumR fold_right length INR]. field.
Qed.

(** Witness for X6: one matched pair, one unmatched source point. *)
Lemma single_pair_gives_zero_matrix_witness :
  Sxy_of Serial Serial skew_source skew_target [1%Z; (-1)%Z] = repeat 0 9 /\
  (forall k, mean_source skew_source [1%Z; (-1)%Z] (GetLength skew_source) k
             = source_coord skew_source 0 k)
  /\
  (forall k, mean_target skew_target [1%Z; (-1)%Z] (GetLength skew_source) k
             = target_coord skew_target [1%Z; (-1)%Z] 0 k).
Proof.
  apply (single_pair_gives_zero_matrix Serial Serial skew_source skew_target
           [1%Z; (-1)%Z] 0).
  reflexivity.
Defined.

Lemma sumR_shift {A : Type} (f : A -> R) (c : R) (l : list A) :
  sumR (map (fun i => f i + c) l) = sumR (map f l) + INR (length l) * c.
Proof.
  induction l as [|x l IH].
  - cbn. lra.
  - cbn [map sumR fold_right length].
    fold (sumR (map (fun i => f i + c) l)). fold (sumR (map f l)).
    rewrite IH, S_INR. lra.
Qed.

Lemma length_translate_points (c p : list R) :
  length (translate_points c p) = length p.
Proof. unfold translate_points. now rewrite length_map, length_seq. Qed.

Lemma rd_translate_points (c p : list R) (i : nat) :
  (i < length p)%nat ->
  rd (translate_points c p) (Z.of_nat i)
  = rd p (Z.of_nat i) + c.[i mod 3].
Proof.
  intros Hi. unfold rd at 1. rewrite Nat2Z.id.
  unfold translate_points. fold (at_ (map (fun i => rd p (Z.of_nat i)
                                                   + c.[i mod 3])
                                          (seq 0 (length p))) i).
  now rewrite at_map_seq.
Qed.

Lemma source_coord_translate (c src : list R) (i k : nat) :
  (i < GetLength src)%nat -> (k < 3)%nat ->
  source_coord (translate_points c src) i k = source_coord src i k + c.[k].
Proof.
  intros Hi Hk. unfold source_coord, GetLength in *.
  assert (Hlen : (3 * i + k < length src)%nat).
  { pose proof (Nat.Div0.mul_div_le (length src) 3). nia. }
  replace (3 * Z.of_nat i + Z.of_nat k)%Z with (Z.of_nat (3 * i + k)) by lia.
  rewrite rd_translate_points by exact Hlen.
  f_equal. f_equal.
  rewrite Nat.add_comm, Nat.mul_comm, Nat.Div0.mod_add.
  now apply Nat.mod_small.
Qed.

Lemma target_coord_translate (c tgt : list R) (corr : list Z) (i k : nat) :
  (0 <= rdi corr (Z.of_nat i))%Z ->
  (3 * rdi corr (Z.of_nat i) + 2 < Z.of_nat (length tgt))%Z ->
  (k < 3)%nat ->
  target_coord (translate_points c tgt) corr i k
  = target_coord tgt corr i k + c.[k].
Proof.
  intros H0 Hlen Hk. unfold target_coord.
  set (t := rdi corr (Z.of_nat i)) in *.
  replace (3 * t + Z.of_nat k)%Z with (Z.of_nat (3 * Z.to_nat t + k)) by lia.
  rewrite rd_translate_points by lia.
  f_equal. f_equal.
  rewrite Nat.add_comm, Nat.mul_comm, Nat.Div0.mod_add.
  now apply Nat.mod_small.
Qed.

Lemma valid_pairs_in_range corr n i :
  In i (valid_pairs corr n) -> (i < n)%nat.
Proof.
  unfold valid_pairs. intros H. apply filter_In in H.
  destruct H as [H _]. apply in_seq in H. lia.
Qed.

(** The centred products are not changed by moving the two point sets. *)
Lemma cross_covariance_translate cs ct src tgt corr j k :
  targets_in_range tgt corr (GetLength src) ->
  (j < 3)%nat -> (k < 3)%nat ->
  cross_covariance (translate_points cs src) (translate_points ct tgt) corr
    (GetLength src) j k
  = cross_covariance src tgt corr (GetLength src) j k.
Proof.
  intros Hrange Hj Hk. unfold cross_covariance.
  destruct (valid_pairs corr (GetLength src)) as [|i0 l0] eqn:Hv;
    [reflexivity|].
  assert (Hne : INR (length (valid_pairs corr (GetLength src))) <> 0)
    by (apply valid_count_nonzero; rewrite Hv; discriminate).
  assert (Hms : mean_source (translate_points cs src) corr (GetLength src) j
                = mean_source src corr (GetLength src) j + cs.[j]).
  { unfold mean_source.
    rewrite (sumR_ext _ (fun i => source_coord src i j + cs.[j])).
    - rewrite sumR_shift. field. exact Hne.
    - intros i Hi. apply source_coord_translate; [|exact Hj].
      now apply valid_pairs_in_range in Hi. }
  assert (Hmt : mean_target (translate_points ct tgt) corr (GetLength src) k
                = mean_target tgt corr (GetLength src) k + ct.[k]).
  { unfold mean_target.
    rewrite (sumR_ext _ (fun i => target_coord tgt corr i k + ct.[k])).
    - rewrite sumR_shift. field. exact Hne.
    - intros i Hi. destruct (Hrange i Hi) as [H0 H1].
      now apply target_coord_translate. }
  rewrite Hms, Hmt. rewrite <- Hv. apply sumR_ext. intros i Hi.
  rewrite source_coord_translate
    by (try exact Hj; now apply valid_pairs_in_range in Hi).
  destruct (Hrange i Hi) as [H0 H1].
  rewrite target_coord_translate by assumption.
  ring.
Qed.

(** X7.  Moving all source points by one vector and all target points by
    another leaves the matrix handed to the SVD unchanged, as long as the
    valid correspondences address points inside the target tensor. *)
Theorem Sxy_is_translation_invariant :
  forall (s1 s2 : schedule) (src tgt cs ct : list R) (corr : list Z),
    targets_in_range tgt corr (GetLength src) ->
    Sxy_of s1 s2 (translate_points cs src) (translate_points ct tgt) corr
    = Sxy_of s1 s2 src tgt corr.
Proof.
  intros s1 s2 src tgt cs ct corr Hrange.
  rewrite !Sxy_of_entries.
  assert (Hlen : GetLength (translate_points cs src) = GetLength src)
    by (unfold GetLength; now rewrite length_translate_points).
  rewrite Hlen.
  apply map_ext_in. intros i Hi. apply in_seq in Hi.
  rewrite cross_covariance_translate;
    [reflexivity | exact Hrange | apply Nat.mod_upper_bound; lia
    | apply Nat.Div0.div_lt_upper_bound; lia].
Qed.

(** Witness for X7: the two skew pairs, moved by (1,2,3) and (4,5,6). *)
Lemma Sxy_is_translation_invariant_witness :
  targets_in_range skew_target skew_corres (GetLength skew_source) /\
  Sxy_of Serial Serial (translate_points [1; 2; 3] skew_source)
    (translate_points [4; 5; 6] skew_target) skew_corres
  = Sxy_of Serial Serial skew_source skew_target skew_corres.
Proof.
  assert (H : targets_in_range skew_target skew_corres
                (GetLength skew_source)).
  { intros i Hi. vm_compute in Hi.
    destruct Hi as [<- | [<- | []]]; vm_compute; split;
      first [discriminate | reflexivity]. }
  split; [exact H|].
  apply (Sxy_is_translation_invariant Serial Serial skew_source skew_target
           [1; 2; 3] [4; 5; 6] skew_corres H).
Defined.

(** ** 3x3 matrix algebra *)

Ltac mat_entries_in H :=
  cbv beta iota zeta delta
    [Det33 Matmul33 Matvec33 T33 Eye3 Diag11 Diag3 vsub3 at_ map seq nth
     Nat.div Nat.modulo Nat.divmod Nat.add Nat.mul Nat.sub fst snd] in H.

Ltac mat_eq := unfold as_matrix; mat_entries; list_eq ltac:(ring).

(** The equations of [is_rotation], entry by entry, as hypotheses. *)
Ltac rotation_equations H :=
  let H1 := fresh in let H2 := fresh in let H3 := fresh in
  destruct H as (H1 & H2 & H3);
  mat_entries_in H1; mat_entries_in H2; mat_entries_in H3;
  injection H1; clear H1; intros;
  injection H2; clear H2; intros.

Lemma Matmul33_assoc (a b c : list R) :
  Matmul33 (Matmul33 a b) c = Matmul33 a (Matmul33 b c).
Proof. mat_eq. Qed.

Lemma Matmul33_Eye3_l (a : list R) : Matmul33 Eye3 a = as_matrix a.
Proof. mat_eq. Qed.

Lemma Matmul33_Eye3_r (a : list R) : Matmul33 a Eye3 = as_matrix a.
Proof. mat_eq. Qed.

Lemma Matmul33_as_matrix_l (a b : list R) :
  Matmul33 (as_matrix a) b = Matmul33 a b.
Proof. mat_eq. Qed.

Lemma Matmul33_as_matrix_r (a b : list R) :
  Matmul33 a (as_matrix b) = Matmul33 a b.
Proof. mat_eq. Qed.

Lemma as_matrix_Matmul33 (a b : list R) :
  as_matrix (Matmul33 a b) = Matmul33 a b.
Proof. mat_eq. Qed.

Lemma Matvec33_Matmul33 (a m v : list R) :
  Matvec33 a (Matvec33 m v) = Matvec33 (Matmul33 a m) v.
Proof. mat_eq. Qed.

Lemma Matvec33_Eye3 (v : list R) : Matvec33 Eye3 v = [v.[0]; v.[1]; v.[2]].
Proof. mat_eq. Qed.

Lemma T33_Matmul33 (a b : list R) :
  T33 (Matmul33 a b) = Matmul33 (T33 b) (T33 a).
Proof. mat_eq. Qed.

Lemma left_inverse_is_right (M : list R) :
  Matmul33 (T33 M) M = Eye3 -> Matmul33 M (T33 M) = Eye3.
Proof.
  intros H. mat_entries_in H. injection H; clear H; intros.
  mat_entries. list_eq ltac:(nsatz).
Qed.

Lemma right_inverse_is_left (M : list R) :
  Matmul33 M (T33 M) = Eye3 -> Matmul33 (T33 M) M = Eye3.
Proof.
  intros H. mat_entries_in H. injection H; clear H; intros.
  mat_entries. list_eq ltac:(nsatz).
Qed.

Lemma orthogonal_product (a b : list R) :
  Matmul33 (T33 a) a = Eye3 -> Matmul33 (T33 b) b = Eye3 ->
  Matmul33 (T33 (Matmul33 a b)) (Matmul33 a b) = Eye3.
Proof.
  intros Ha Hb.
  rewrite T33_Matmul33, Matmul33_assoc, <- (Matmul33_assoc (T33 a)), Ha.
  rewrite Matmul33_Eye3_l, Matmul33_as_matrix_r. exact Hb.
Qed.

Lemma sign_matrix_orthogonal (d : R) :
  let S := if Rlt_dec d 0 then Diag11 (-1) else Eye3 in
  Matmul33 (T33 S) S = Eye3.
Proof. cbv zeta. destruct (Rlt_dec d 0); mat_eq. Qed.

(** ** Point-to-point: the returned matrix *)

(** X8.  Whenever the SVD routine returns orthogonal factors, the matrix
    returned by ComputeRtPointToPoint is a rotation: its transpose is its
    inverse on both sides and its determinant is 1. *)
Theorem returned_matrix_is_a_rotation :
  forall (SVD : svd_routine) (s1 s2 : schedule) (src tgt : list R)
         (corr : list Z) (U D VT : list R),
    SVD (Sxy_of s1 s2 src tgt corr) = (U, D, VT) ->
    is_svd_of (Sxy_of s1 s2 src tgt corr) (U, D, VT) ->
    is_rotation (rotation_of SVD s1 s2 src tgt corr).
Proof.
  intros SVD s1 s2 src tgt corr U D VT Hsvd (HU & HV & _).
  rewrite rotation_of_eq, Hsvd.
  destruct (sign_correction U VT HU HV) as [_ Hdet]. cbv zeta in Hdet.
  assert (Hleft :
    Matmul33
      (T33 (Matmul33 U
              (Matmul33 (if Rlt_dec (Det33 U * Det33 (T33 VT)) 0
                         then Diag11 (-1) else Eye3) VT)))
      (Matmul33 U
         (Matmul33 (if Rlt_dec (Det33 U * Det33 (T33 VT)) 0
                    then Diag11 (-1) else Eye3) VT)) = Eye3).
  { apply orthogonal_product; [exact HU|].
    apply orthogonal_product.
    - apply sign_matrix_orthogonal.
    - now apply right_inverse_is_left. }
  split; [exact Hleft|split; [|exact Hdet]].
  now apply left_inverse_is_right.
Qed.

(** Witness for X8: the tetrahedron matched with its mirror image, the
    SVD handing back a reflection as left factor. *)
Lemma returned_matrix_is_a_rotation_witness :
  is_rotation
    (rotation_of mirror_svd Serial Serial tetra_points tetra_mirrored
       tetra_corres).
Proof.
  apply (returned_matrix_is_a_rotation mirror_svd Serial Serial tetra_points
           tetra_mirrored tetra_corres (Diag11 (-1)) [1; 1; 1] Eye3).
  - reflexivity.
  - rewrite tetra_mirrored_Sxy. unfold is_svd_of.
    repeat split; run_model; list_eq ltac:(ring).
Defined.

(** ** The closed-form SVD *)

Lemma rsqrt_square (x : R) : 0 < x -> rsqrt x * rsqrt x * x = 1.
Proof.
  intros Hx. unfold rsqrt.
  pose proof (sqrt_lt_R0 x Hx) as Hs.
  rewrite <- (sqrt_sqrt x) at 3 by lra. field. lra.
Qed.

(** In exact arithmetic the Newton correction leaves the reciprocal square
    root as it is. *)
Lemma rsqrt_refined_exact (x : R) : 0 < x -> rsqrt_refined x = rsqrt x.
Proof.
  intros Hx. unfold rsqrt_refined, gone_half.
  pose proof (rsqrt_square x Hx) as H.
  set (r := rsqrt x) in *.
  replace (r + r * 0.5 - x * (r * (r * (r * 0.5))))
    with (r + r * 0.5 * (1 - r * r * x)) by ring.
  rewrite H. ring.
Qed.

Lemma rsqrt_one (x : R) : x = 1 -> rsqrt x = 1.
Proof. intros ->. unfold rsqrt. rewrite sqrt_1. apply Rinv_1. Qed.

(** One conjugation multiplies the quaternion by (ch, 0, 0, sh) for a
    pair (ch, sh) that is not (0, 0). *)
Lemma jacobi_conjugation_quaternion s_pq s_pp s_qq s_rp s_rq s_rr qs qa qb qc :
  exists ch sh,
    0 < ch * ch + sh * sh /\
    let '(_, _, _, _, _, _, qs', qa', qb', qc') :=
      jacobi_conjugation s_pq s_pp s_qq s_rp s_rq s_rr qs qa qb qc in
    qs' = ch * qs - sh * qc /\ qa' = ch * qa + sh * qb /\
    qb' = ch * qb - sh * qa /\ qc' = ch * qc + sh * qs.
Proof.
  unfold jacobi_conjugation. cbv zeta.
  set (sh0 := sel _ (s_pq * gone_half) 0).
  set (ch0 := sel _ (s_pp - s_qq) gone).
  assert (H0 : 0 < sh0 * sh0 + ch0 * ch0).
  { unfold sh0, ch0, sel, Rgeb, gone, gtiny_number.
    destruct (Rge_dec _ _) as [Hge|Hlt].
    - pose proof (Rle_0_sqr (s_pp - s_qq)) as Hsq. unfold Rsqr in Hsq. lra.
    - lra. }
  set (r := rsqrt (sh0 * sh0 + ch0 * ch0)).
  pose proof (rsqrt_square _ H0) as Hr. fold r in Hr.
  destruct (Rleb (ch0 * ch0) (gfour_gamma_squared * (sh0 * sh0))).
  - exists gcosine_pi_over_eight, gsine_pi_over_eight. cbv [sel].
    split; [|repeat split; ring].
    unfold gcosine_pi_over_eight, gsine_pi_over_eight. lra.
  - exists (r * ch0), (r * sh0). cbv [sel].
    split; [|repeat split; ring].
    replace (r * ch0 * (r * ch0) + r * sh0 * (r * sh0))
      with (r * r * (sh0 * sh0 + ch0 * ch0)) by ring.
    rewrite Hr. lra.
Qed.

Lemma jacobi_conjugation_norm s_pq s_pp s_qq s_rp s_rq s_rr qs qa qb qc :
  0 < qs * qs + qa * qa + qb * qb + qc * qc ->
  let '(_, _, _, _, _, _, qs', qa', qb', qc') :=
    jacobi_conjugation s_pq s_pp s_qq s_rp s_rq s_rr qs qa qb qc in
  0 < qs' * qs' + qa' * qa' + qb' * qb' + qc' * qc'.
Proof.
  intros Hq.
  destruct (jacobi_conjugation_quaternion s_pq s_pp s_qq s_rp s_rq s_rr
              qs qa qb qc) as (ch & sh & Hpos & H).
  destruct (jacobi_conjugation _ _ _ _ _ _ _ _ _ _)
    as [[[[[[[[[? ?] ?] ?] ?] ?] qs'] qa'] qb'] qc'].
  destruct H as (-> & -> & -> & ->).
  replace ((ch * qs - sh * qc) * (ch * qs - sh * qc)
           + (ch * qa + sh * qb) * (ch * qa + sh * qb)
           + (ch * qb - sh * qa) * (ch * qb - sh * qa)
           + (ch * qc + sh * qs) * (ch * qc + sh * qs))
    with ((ch * ch + sh * sh) * (qs * qs + qa * qa + qb * qb + qc * qc))
    by ring.
  now apply Rmult_lt_0_compat.
Qed.

Lemma jacobi_sweep_norm (st : jacobi_state) :
  0 < quaternion_norm2 st -> 0 < quaternion_norm2 (jacobi_sweep st).
Proof.
  unfold quaternion_norm2, jacobi_sweep. intros H.
  pose proof (jacobi_conjugation_norm (Ss21 st) (Ss11 st) (Ss22 st) (Ss31 st)
                (Ss32 st) (Ss33 st) (Sqvs st) (Sqvvx st) (Sqvvy st)
                (Sqvvz st) H) as H1.
  destruct (jacobi_conjugation _ _ _ _ _ _ _ _ _ _)
    as [[[[[[[[[s21 s11] s22] s31] s32] s33] qs] qx] qy] qz].
  assert (H1' : 0 < qs * qs + qy * qy + qz * qz + qx * qx) by lra.
  pose proof (jacobi_conjugation_norm s32 s22 s33 s21 s31 s11 qs qy qz qx H1')
    as H2.
  destruct (jacobi_conjugation _ _ _ _ _ _ _ _ _ _)
    as [[[[[[[[[s32' s22'] s33'] s21'] s31'] s11'] qs'] qy'] qz'] qx'].
  assert (H2' : 0 < qs' * qs' + qz' * qz' + qx' * qx' + qy' * qy') by lra.
  pose proof (jacobi_conjugation_norm s31' s33' s11' s32' s21' s22' qs' qz'
                qx' qy' H2') as H3.
  destruct (jacobi_conjugation _ _ _ _ _ _ _ _ _ _)
    as [[[[[[[[[? ?] ?] ?] ?] ?] qs''] qz''] qx''] qy''].
  cbn [Sqvs Sqvvx Sqvvy Sqvvz]. lra.
Qed.

Lemma for_loop_invariant {St : Type} (P : St -> Prop) (body : St -> St) :
  (forall st, P st -> P (body st)) ->
  forall fuel i hi st ran,
    P st -> P (fst (fst (for_loop fuel i hi body st ran))).
Proof.
  intros Hbody. induction fuel as [|fuel IH]; intros i hi st ran Hst.
  - exact Hst.
  - cbn [for_loop]. destruct (i <? hi)%Z.
    + apply IH. now apply Hbody.
    + exact Hst.
Qed.

Lemma for_loop_fixed_point {St : Type} (body : St -> St) (st : St) :
  body st = st ->
  forall fuel i hi ran, fst (fst (for_loop fuel i hi body st ran)) = st.
Proof.
  intros Hfix. induction fuel as [|fuel IH]; intros i hi ran.
  - reflexivity.
  - cbn [for_loop]. destruct (i <? hi)%Z; [|reflexivity].
    rewrite Hfix. apply IH.
Qed.

(** The quaternion never degenerates during the Jacobi iteration. *)
Lemma jacobi_eigen_norm a11 a12 a13 a21 a22 a23 a31 a32 a33 :
  0 < quaternion_norm2
        (fst (fst (jacobi_eigen
                     (normal_equations a11 a12 a13 a21 a22 a23 a31 a32
                        a33)))).
Proof.
  unfold jacobi_eigen. apply for_loop_invariant.
  - exact jacobi_sweep_norm.
  - unfold quaternion_norm2, normal_equations. cbn. lra.
Qed.

Lemma quaternion_to_V_rotation (st : jacobi_state) :
  0 < quaternion_norm2 st ->
  let '(v11, v12, v13, v21, v22, v23, v31, v32, v33) := quaternion_to_V st in
  is_rotation [v11; v12; v13; v21; v22; v23; v31; v32; v33].
Proof.
  unfold quaternion_norm2, quaternion_to_V. intros Hn. cbv zeta.
  set (n := _ + _ + _ + _) in Hn.
  replace (Sqvvz st * Sqvvz st
           + (Sqvvy st * Sqvvy st
              + (Sqvvx st * Sqvvx st + Sqvs st * Sqvs st))) with n
    by (unfold n; ring).
  rewrite rsqrt_refined_exact by exact Hn.
  pose proof (rsqrt_square n Hn) as Hr.
  set (r := rsqrt n) in *.
  assert (Hu : Sqvs st * r * (Sqvs st * r) + Sqvvx st * r * (Sqvvx st * r)
               + Sqvvy st * r * (Sqvvy st * r)
               + Sqvvz st * r * (Sqvvz st * r) = 1).
  { rewrite <- Hr. unfold n. ring. }
  generalize dependent (Sqvs st * r). intros w.
  generalize (Sqvvx st * r). intros x.
  generalize (Sqvvy st * r). intros y.
  generalize (Sqvvz st * r). intros z Hu.
  unfold is_rotation. mat_entries.
  split; [|split].
  - list_eq ltac:(nsatz).
  - list_eq ltac:(nsatz).
  - nsatz.
Qed.

(** The three sort steps are unfolded into their eight cases. *)
Ltac open_sort_steps :=
  cbv beta iota zeta delta [row_times_V sort_step];
  repeat match goal with
         | |- context [Rltb ?x ?y] =>
             destruct (Rltb x y); cbv beta iota zeta delta [cswap sel]
         end.

Lemma svd_V_rotation (A : list R) : is_rotation (svd_V A).
Proof.
  unfold svd_V, svd_of, svd.
  pose proof (jacobi_eigen_norm A.[0] A.[1] A.[2] A.[3] A.[4] A.[5] A.[6]
                A.[7] A.[8]) as Hn.
  destruct (jacobi_eigen _) as [[st i] ran]. cbn [fst] in Hn.
  pose proof (quaternion_to_V_rotation st Hn) as HV.
  destruct (quaternion_to_V st)
    as [[[[[[[[v11 v12] v13] v21] v22] v23] v31] v32] v33].
  rotation_equations HV.
  open_sort_steps.
  all: repeat match goal with
              | |- context [qr_givens ?x ?y] =>
                  destruct (qr_givens x y) as [? ?];
                  cbv beta iota zeta delta [rotate_pair]
              end.
  all: cbn [fst snd]; unfold is_rotation; mat_entries.
  all: split; [list_eq ltac:(lra)|split; [list_eq ltac:(lra)|lra]].
Qed.

(** Every Givens step of the QR factorisation uses a pair (c, s) with
    c^2 + s^2 = 1. *)
Lemma qr_givens_unit (app aqp : R) :
  let '(Sc, Ss) := qr_givens app aqp in Sc * Sc + Ss * Ss = 1.
Proof.
  unfold qr_givens. cbv zeta.
  set (sh0 := sel _ aqp 0).
  set (ch0 := Rmax (Rmax (0 - app) app) gsmall_number).
  assert (Hch0 : 0 < ch0).
  { unfold ch0. pose proof (Rmax_r (Rmax (0 - app) app) gsmall_number) as H.
    unfold gsmall_number in *. lra. }
  set (n1 := ch0 * ch0 + sh0 * sh0).
  assert (Hn1 : 0 < n1).
  { unfold n1. pose proof (Rle_0_sqr sh0) as H. unfold Rsqr in H. nra. }
  rewrite (rsqrt_refined_exact n1) by exact Hn1.
  assert (Hr1 : 0 < rsqrt n1 * n1).
  { apply Rmult_lt_0_compat; [|exact Hn1].
    unfold rsqrt. apply Rinv_0_lt_compat. now apply sqrt_lt_R0. }
  set (ch1 := ch0 + rsqrt n1 * n1).
  assert (Hch1 : 0 < ch1) by (unfold ch1; lra).
  assert (Hn2 : 0 < ch1 * ch1 + sh0 * sh0).
  { pose proof (Rle_0_sqr sh0) as H. unfold Rsqr in H. nra. }
  destruct (Rgeb app 0); cbv [sel].
  - rewrite rsqrt_refined_exact by exact Hn2.
    pose proof (rsqrt_square _ Hn2) as Hr.
    set (r := rsqrt (ch1 * ch1 + sh0 * sh0)) in *.
    replace ((ch1 * r * (ch1 * r) - sh0 * r * (sh0 * r))
             * (ch1 * r * (ch1 * r) - sh0 * r * (sh0 * r))
             + (sh0 * r * (ch1 * r) + sh0 * r * (ch1 * r))
               * (sh0 * r * (ch1 * r) + sh0 * r * (ch1 * r)))
      with ((r * r * (ch1 * ch1 + sh0 * sh0))
            * (r * r * (ch1 * ch1 + sh0 * sh0))) by ring.
    rewrite Hr. ring.
  - assert (Hn2' : 0 < sh0 * sh0 + ch1 * ch1) by lra.
    rewrite rsqrt_refined_exact by exact Hn2'.
    pose proof (rsqrt_square _ Hn2') as Hr.
    set (r := rsqrt (sh0 * sh0 + ch1 * ch1)) in *.
    replace ((sh0 * r * (sh0 * r) - ch1 * r * (ch1 * r))
             * (sh0 * r * (sh0 * r) - ch1 * r * (ch1 * r))
             + (ch1 * r * (sh0 * r) + ch1 * r * (sh0 * r))
               * (ch1 * r * (sh0 * r) + ch1 * r * (sh0 * r)))
      with ((r * r * (sh0 * sh0 + ch1 * ch1))
            * (r * r * (sh0 * sh0 + ch1 * ch1))) by ring.
    rewrite Hr. ring.
Qed.

Ltac open_givens :=
  repeat match goal with
         | |- context [qr_givens ?x ?y] =>
             let H := fresh "Hg" in
             pose proof (qr_givens_unit x y) as H;
             destruct (qr_givens x y) as [? ?];
             cbv beta iota zeta delta [rotate_pair]
         end.

Lemma svd_U_rotation (A : list R) : is_rotation (svd_U A).
Proof.
  unfold svd_U, svd_of, svd.
  destruct (jacobi_eigen _) as [[st i] ran].
  destruct (quaternion_to_V st)
    as [[[[[[[[v11 v12] v13] v21] v22] v23] v31] v32] v33].
  open_sort_steps.
  all: open_givens.
  all: cbn [fst snd]; unfold is_rotation; mat_entries.
  all: split; [list_eq ltac:(nsatz)|split; [list_eq ltac:(nsatz)|nsatz]].
Qed.

(** X9.  For every input matrix, the factors U and V computed by
    [svd<float>] are rotations: orthogonal on both sides, determinant 1. *)
Theorem svd_factors_are_rotations :
  forall A : list R, is_rotation (svd_U A) /\ is_rotation (svd_V A).
Proof.
  intros A. split; [apply svd_U_rotation | apply svd_V_rotation].
Qed.

(** The three values returned in S, read off the returned factors. *)
Lemma svd_S_diagonal (A : list R) :
  svd_S A
  = [(Matmul33 (T33 (svd_U A)) (Matmul33 (as_matrix A) (svd_V A))).[0];
     (Matmul33 (T33 (svd_U A)) (Matmul33 (as_matrix A) (svd_V A))).[4];
     (Matmul33 (T33 (svd_U A)) (Matmul33 (as_matrix A) (svd_V A))).[8]].
Proof.
  unfold svd_U, svd_S, svd_V, svd_of, as_matrix, svd.
  destruct (jacobi_eigen _) as [[st i] ran].
  destruct (quaternion_to_V st)
    as [[[[[[[[v11 v12] v13] v21] v22] v23] v31] v32] v33].
  open_sort_steps.
  all: repeat match goal with
              | |- context [qr_givens ?x ?y] =>
                  destruct (qr_givens x y) as [? ?];
                  cbv beta iota zeta delta [rotate_pair]
              end.
  all: cbn [fst snd]; mat_entries; list_eq ltac:(ring).
Qed.

(** X10.  For every input matrix A, the three values that [svd<float>]
    returns in S are the diagonal of Ut A V, U and V being the returned
    factors. *)
Theorem singular_values_are_diagonal_of_UtAV :
  forall A : list R,
    svd_S A
    = [(Matmul33 (T33 (svd_U A)) (Matmul33 (as_matrix A) (svd_V A))).[0];
       (Matmul33 (T33 (svd_U A)) (Matmul33 (as_matrix A) (svd_V A))).[4];
       (Matmul33 (T33 (svd_U A)) (Matmul33 (as_matrix A) (svd_V A))).[8]].
Proof. exact svd_S_diagonal. Qed.

(** *** Sorted non-negative diagonal matrices *)

Lemma jacobi_conjugation_diagonal s_pp s_qq s_rr qs qa qb qc :
  jacobi_conjugation 0 s_pp s_qq 0 0 s_rr qs qa qb qc
  = (0, s_pp, s_qq, 0, 0, s_rr, qs, qa, qb, qc).
Proof.
  unfold jacobi_conjugation. cbv zeta.
  assert (Hm : Rgeb (0 * gone_half * (0 * gone_half)) gtiny_number = false).
  { unfold Rgeb, gone_half, gtiny_number.
    destruct (Rge_dec _ _); [lra | reflexivity]. }
  rewrite Hm. cbv [sel].
  assert (Hr : rsqrt (0 * 0 + gone * gone) = 1)
    by (apply rsqrt_one; unfold gone; ring).
  rewrite Hr.
  assert (Hm2 : Rleb (gone * gone) (gfour_gamma_squared * (0 * 0)) = false).
  { unfold Rleb, gone, gfour_gamma_squared.
    destruct (Rle_dec _ _); [lra | reflexivity]. }
  rewrite Hm2. unfold gone.
  repeat apply (f_equal2 pair); ring.
Qed.

Lemma jacobi_sweep_diagonal s11 s22 s33 qs qx qy qz :
  jacobi_sweep (mk_jacobi s11 0 0 s22 0 s33 qs qx qy qz)
  = mk_jacobi s11 0 0 s22 0 s33 qs qx qy qz.
Proof.
  unfold jacobi_sweep. cbn [Ss11 Ss21 Ss31 Ss22 Ss32 Ss33 Sqvs Sqvvx Sqvvy
                            Sqvvz].
  rewrite jacobi_conjugation_diagonal.
  rewrite jacobi_conjugation_diagonal.
  rewrite jacobi_conjugation_diagonal.
  reflexivity.
Qed.

Lemma qr_givens_zero (app : R) : 0 <= app -> qr_givens app 0 = (1, 0).
Proof.
  intros Happ.
  pose proof (qr_givens_unit app 0) as Hu.
  unfold qr_givens in *. cbv zeta in *.
  assert (Hs : sel (Rgeb (0 * 0) gsmall_number) 0 0 = 0)
    by (destruct (Rgeb (0 * 0) gsmall_number); reflexivity).
  rewrite Hs in *.
  assert (Hm : Rgeb app 0 = true).
  { unfold Rgeb. destruct (Rge_dec app 0); [reflexivity | lra]. }
  rewrite Hm in *. cbv [sel] in *.
  set (ch := (Rmax (Rmax (0 - app) app) gsmall_number + _)
             * rsqrt_refined _) in *.
  assert (Hc : ch * ch = 1 \/ ch * ch = -1).
  { assert (H2 : (ch * ch) * (ch * ch) = 1) by (rewrite <- Hu; ring).
    assert (H3 : (ch * ch - 1) * (ch * ch + 1) = 0) by lra.
    apply Rmult_integral in H3. destruct H3; [left|right]; lra. }
  assert (Hc1 : ch * ch = 1).
  { destruct Hc as [Hc|Hc]; [exact Hc|].
    pose proof (Rle_0_sqr ch) as Hsq. unfold Rsqr in Hsq. lra. }
  apply (f_equal2 pair).
  - rewrite Hc1. ring.
  - ring.
Qed.

Lemma quaternion_to_V_identity s11 s21 s31 s22 s32 s33 :
  quaternion_to_V (mk_jacobi s11 s21 s31 s22 s32 s33 1 0 0 0)
  = (1, 0, 0, 0, 1, 0, 0, 0, 1).
Proof.
  unfold quaternion_to_V.
  cbn [Sqvs Sqvvx Sqvvy Sqvvz]. cbv zeta.
  assert (Hr : rsqrt_refined (0 * 0 + (0 * 0 + (0 * 0 + 1 * 1))) = 1).
  { rewrite rsqrt_refined_exact by lra. apply rsqrt_one. ring. }
  rewrite Hr. repeat apply (f_equal2 pair); ring.
Qed.

Lemma sort_step_sorted nx ny ax1 ax2 ax3 ay1 ay2 ay3 vx1 vx2 vx3 vy1 vy2 vy3 :
  ny <= nx ->
  sort_step nx ny ax1 ax2 ax3 ay1 ay2 ay3 vx1 vx2 vx3 vy1 vy2 vy3
  = ((nx, ny), (ax1, ax2, ax3), (ay1, ay2, ay3), (vx1, vx2, vx3),
     (vy1, vy2, vy3), 1 + 0).
Proof.
  intros H. unfold sort_step.
  assert (Hm : Rltb nx ny = false).
  { unfold Rltb. destruct (Rlt_dec nx ny); [lra | reflexivity]. }
  rewrite Hm. reflexivity.
Qed.

Lemma svd_sorted_diagonal (a b c : R) :
  0 <= c -> c <= b -> b <= a ->
  svd a 0 0 0 b 0 0 0 c = (Eye3, [a; b; c], Eye3).
Proof.
  intros Hc Hb Ha.
  assert (Hab : b * b <= a * a) by nra.
  assert (Hbc : c * c <= b * b) by nra.
  unfold svd.
  assert (Hne : normal_equations a 0 0 0 b 0 0 0 c
                = mk_jacobi (a * a) 0 0 (b * b) 0 (c * c) 1 0 0 0)
    by (unfold normal_equations; f_equal; ring).
  rewrite Hne.
  destruct (jacobi_eigen _) as [[st i] ran] eqn:E.
  assert (Hst : st = mk_jacobi (a * a) 0 0 (b * b) 0 (c * c) 1 0 0 0).
  { change st with (fst (fst (st, i, ran))). rewrite <- E.
    unfold jacobi_eigen. apply for_loop_fixed_point.
    apply jacobi_sweep_diagonal. }
  rewrite Hst, quaternion_to_V_identity.
  cbv beta iota zeta delta [row_times_V].
  rewrite sort_step_sorted by lra. cbv beta iota zeta.
  rewrite sort_step_sorted by lra. cbv beta iota zeta.
  rewrite sort_step_sorted by lra. cbv beta iota zeta.
  repeat match goal with
         | |- context [qr_givens ?x ?y] =>
             replace y with 0 by ring;
             rewrite (qr_givens_zero x) by lra;
             cbv beta iota zeta delta [rotate_pair]
         end.
  unfold Eye3.
  repeat apply (f_equal2 pair); list_eq ltac:(ring).
Qed.

Lemma svd_of_sorted_diagonal (a b c : R) :
  0 <= c -> c <= b -> b <= a ->
  svd_of [a; 0; 0; 0; b; 0; 0; 0; c] = (Eye3, [a; b; c], Eye3).
Proof.
  intros Hc Hb Ha. unfold svd_of, at_. cbn [nth].
  now apply svd_sorted_diagonal.
Qed.

(** X11.  On a diagonal matrix diag(a, b, c) with a >= b >= c >= 0 the
    decomposition by [svd<float>] is exact, U = V = identity and
    S = (a, b, c), and the solver divides each component of the right-hand
    side by its diagonal entry, or drops it (gives 0) when that entry is
    below 1e-6. *)
Theorem sorted_diagonal_is_decomposed_exactly :
  forall a b c b1 b2 b3 : R,
    0 <= c -> c <= b -> b <= a ->
    svd a 0 0 0 b 0 0 0 c = (Eye3, [a; b; c], Eye3) /\
    solve_svd3x3 a 0 0 0 b 0 0 0 c b1 b2 b3
    = (pseudo_inverse_entry a * b1, pseudo_inverse_entry b * b2,
       pseudo_inverse_entry c * b3).
Proof.
  intros a b c b1 b2 b3 Hc Hb Ha.
  pose proof (svd_sorted_diagonal a b c Hc Hb Ha) as Hsvd.
  split; [exact Hsvd|].
  unfold solve_svd3x3. rewrite Hsvd.
  cbv beta iota zeta delta [matmul3x3_3x3 matmul3x3_3x1 Eye3 at_
                            nth].
  repeat apply (f_equal2 pair); ring.
Qed.

(** Witness for X11: diag(3, 2, 0), a singular matrix. *)
Lemma sorted_diagonal_is_decomposed_exactly_witness :
  svd 3 0 0 0 2 0 0 0 0 = (Eye3, [3; 2; 0], Eye3) /\
  solve_svd3x3 3 0 0 0 2 0 0 0 0 6 6 6
  = (pseudo_inverse_entry 3 * 6, pseudo_inverse_entry 2 * 6,
     pseudo_inverse_entry 0 * 6).
Proof.
  apply (sorted_diagonal_is_decomposed_exactly 3 2 0 6 6 6); lra.
Defined.

(** *** The solver and the returned values *)

Ltac vec_eq := unfold dot3, as_matrix; mat_entries; ring.

Lemma cauchy_schwarz3 (x y : list R) :
  dot3 x y * dot3 x y <= dot3 x x * dot3 y y.
Proof.
  unfold dot3.
  generalize x.[0] x.[1] x.[2] y.[0] y.[1] y.[2]. intros x0 x1 x2 y0 y1 y2.
  assert (H : (x0 * x0 + x1 * x1 + x2 * x2) * (y0 * y0 + y1 * y1 + y2 * y2)
              - (x0 * y0 + x1 * y1 + x2 * y2) * (x0 * y0 + x1 * y1 + x2 * y2)
              = (x0 * y1 - x1 * y0) * (x0 * y1 - x1 * y0)
                + (x0 * y2 - x2 * y0) * (x0 * y2 - x2 * y0)
                + (x1 * y2 - x2 * y1) * (x1 * y2 - x2 * y1)) by ring.
  pose proof (Rle_0_sqr (x0 * y1 - x1 * y0)) as H1.
  pose proof (Rle_0_sqr (x0 * y2 - x2 * y0)) as H2.
  pose proof (Rle_0_sqr (x1 * y2 - x2 * y1)) as H3.
  unfold Rsqr in *. lra.
Qed.

Lemma dot3_Matvec33_transpose (P x y : list R) :
  dot3 x (Matvec33 P y) = dot3 (Matvec33 (T33 P) x) y.
Proof. vec_eq. Qed.

Lemma norm_Matvec33 (A v : list R) :
  dot3 (Matvec33 A v) (Matvec33 A v)
  = dot3 v (Matvec33 (Matmul33 (T33 A) A) v).
Proof. vec_eq. Qed.

Lemma dot3_Matvec33_Eye3 (v : list R) :
  dot3 v (Matvec33 Eye3 v) = dot3 v v.
Proof. vec_eq. Qed.

Lemma Matvec33_as_matrix (M v : list R) :
  Matvec33 (as_matrix M) v = Matvec33 M v.
Proof. mat_eq. Qed.

(** A matrix brought to diagonal form by an orthogonal P is P D Pt. *)
Lemma diagonalised_form (M P D : list R) :
  Matmul33 (T33 P) P = Eye3 ->
  Matmul33 (T33 P) (Matmul33 M P) = D ->
  Matmul33 P (Matmul33 D (T33 P)) = as_matrix M.
Proof.
  intros HP HD.
  pose proof (left_inverse_is_right P HP) as HP'.
  rewrite <- HD.
  rewrite (Matmul33_assoc (T33 P)), (Matmul33_assoc M), HP', Matmul33_Eye3_r.
  rewrite <- Matmul33_assoc, HP', Matmul33_Eye3_l.
  mat_eq.
Qed.

(** The quadratic form of At A on a unit vector is below the largest
    squared singular value. *)
Lemma gram_form_bound (A sigma v : list R) (e : R) :
  singular_values A sigma ->
  dot3 v v = 1 ->
  sigma.[0] < e -> sigma.[1] < e -> sigma.[2] < e ->
  dot3 (Matvec33 A v) (Matvec33 A v) < e * e.
Proof.
  intros (S0 & S1 & S2 & P & HP & HD) Hv H0 H1 H2.
  pose proof (left_inverse_is_right P HP) as HP'.
  rewrite norm_Matvec33.
  rewrite <- (Matvec33_as_matrix (Matmul33 (T33 A) A)).
  rewrite <- (diagonalised_form _ P _ HP HD).
  rewrite <- !Matvec33_Matmul33.
  rewrite dot3_Matvec33_transpose.
  assert (Hw : dot3 (Matvec33 (T33 P) v) (Matvec33 (T33 P) v) = 1).
  { rewrite <- dot3_Matvec33_transpose, Matvec33_Matmul33, HP'.
    now rewrite dot3_Matvec33_Eye3. }
  revert Hw. generalize (Matvec33 (T33 P) v). intros w Hw.
  clear Hv HP HP' HD.
  unfold dot3, Matvec33, at_ in *. cbn [map seq nth Nat.mul Nat.add].
  generalize dependent (nth 0 w 0). intros w0.
  generalize dependent (nth 1 w 0). intros w1.
  generalize dependent (nth 2 w 0). intros w2.
  generalize dependent (nth 0 sigma 0). intros s0.
  generalize dependent (nth 1 sigma 0). intros s1.
  generalize dependent (nth 2 sigma 0). intros s2. intros.
  assert (E0 : s0 * s0 < e * e) by nra.
  assert (E1 : s1 * s1 < e * e) by nra.
  assert (E2 : s2 * s2 < e * e) by nra.
  pose proof (Rle_0_sqr w0) as W0. pose proof (Rle_0_sqr w1) as W1.
  pose proof (Rle_0_sqr w2) as W2. unfold Rsqr in *.
  replace (w0 * (s0 * s0 * w0 + 0 * w1 + 0 * w2)
           + w1 * (0 * w0 + s1 * s1 * w1 + 0 * w2)
           + w2 * (0 * w0 + 0 * w1 + s2 * s2 * w2))
    with (s0 * s0 * (w0 * w0) + s1 * s1 * (w1 * w1) + s2 * s2 * (w2 * w2))
    by ring.
  generalize dependent (w0 * w0). intros t0.
  generalize dependent (w1 * w1). intros t1.
  generalize dependent (w2 * w2). intros t2.
  generalize dependent (s0 * s0). intros p0.
  generalize dependent (s1 * s1). intros p1.
  generalize dependent (s2 * s2). intros p2. intros.
  assert (He : e * e * (t0 + t1 + t2) = e * e) by (rewrite Hw; ring).
  assert (D0 : 0 <= (e * e - p0) * t0) by (apply Rmult_le_pos; lra).
  assert (D1 : 0 <= (e * e - p1) * t1) by (apply Rmult_le_pos; lra).
  assert (D2 : 0 <= (e * e - p2) * t2) by (apply Rmult_le_pos; lra).
  destruct (Rlt_dec 0 t0) as [T0|T0].
  { assert (0 < (e * e - p0) * t0) by (apply Rmult_lt_0_compat; lra). lra. }
  destruct (Rlt_dec 0 t1) as [T1|T1].
  { assert (0 < (e * e - p1) * t1) by (apply Rmult_lt_0_compat; lra). lra. }
  assert (T2 : 0 < t2) by lra.
  assert (0 < (e * e - p2) * t2) by (apply Rmult_lt_0_compat; lra). lra.
Qed.

Lemma diagonal_entries_as_products (U A V : list R) :
  (Matmul33 (T33 U) (Matmul33 (as_matrix A) V)).[0]
  = dot3 [U.[0]; U.[3]; U.[6]] (Matvec33 A [V.[0]; V.[3]; V.[6]])
  /\ (Matmul33 (T33 U) (Matmul33 (as_matrix A) V)).[4]
     = dot3 [U.[1]; U.[4]; U.[7]] (Matvec33 A [V.[1]; V.[4]; V.[7]])
  /\ (Matmul33 (T33 U) (Matmul33 (as_matrix A) V)).[8]
     = dot3 [U.[2]; U.[5]; U.[8]] (Matvec33 A [V.[2]; V.[5]; V.[8]]).
Proof. repeat split; vec_eq. Qed.

Lemma rotation_columns_are_unit (M : list R) :
  is_rotation M ->
  dot3 [M.[0]; M.[3]; M.[6]] [M.[0]; M.[3]; M.[6]] = 1 /\
  dot3 [M.[1]; M.[4]; M.[7]] [M.[1]; M.[4]; M.[7]] = 1 /\
  dot3 [M.[2]; M.[5]; M.[8]] [M.[2]; M.[5]; M.[8]] = 1.
Proof.
  intros H. unfold dot3, at_. cbn [nth].
  destruct H as (H1 & _ & _).
  unfold Matmul33, T33, Eye3, at_ in H1.
  cbn [map seq nth Nat.div Nat.modulo Nat.divmod Nat.add Nat.mul fst snd] in H1.
  injection H1; intros. repeat split; lra.
Qed.

(** A product ut A v with unit u and v stays below every bound that is
    above the singular values of A. *)
Lemma bilinear_form_bound (A sigma u v : list R) (e : R) :
  singular_values A sigma ->
  0 < e ->
  dot3 u u = 1 -> dot3 v v = 1 ->
  sigma.[0] < e -> sigma.[1] < e -> sigma.[2] < e ->
  dot3 u (Matvec33 A v) < e.
Proof.
  intros Hs He Hu Hv H0 H1 H2.
  pose proof (gram_form_bound A sigma v e Hs Hv H0 H1 H2) as Hg.
  pose proof (cauchy_schwarz3 u (Matvec33 A v)) as Hcs.
  rewrite Hu in Hcs.
  generalize dependent (dot3 (Matvec33 A v) (Matvec33 A v)). intros n Hg Hcs.
  generalize dependent (dot3 u (Matvec33 A v)). intros x Hcs.
  destruct (Rlt_dec x e) as [Hlt|Hge]; [exact Hlt|].
  assert (e * e <= x * x) by nra. lra.
Qed.

(** The values returned in S are bounded by the singular values. *)
Lemma returned_values_below_singular_bound (A sigma : list R) (e : R) :
  singular_values A sigma ->
  0 < e ->
  sigma.[0] < e -> sigma.[1] < e -> sigma.[2] < e ->
  (svd_S A).[0] < e /\ (svd_S A).[1] < e /\ (svd_S A).[2] < e.
Proof.
  intros Hs He H0 H1 H2.
  rewrite svd_S_diagonal.
  destruct (diagonal_entries_as_products (svd_U A) A (svd_V A))
    as (E0 & E1 & E2).
  destruct (rotation_columns_are_unit _ (svd_U_rotation A)) as (U0 & U1 & U2).
  destruct (rotation_columns_are_unit _ (svd_V_rotation A)) as (V0 & V1 & V2).
  unfold at_ at 1 3 5. cbn [nth]. rewrite E0, E1, E2.
  repeat split; apply (bilinear_form_bound A sigma); assumption.
Qed.

Lemma all_dropped_gives_zero (A b : list R) :
  (svd_S A).[0] < epsilon -> (svd_S A).[1] < epsilon ->
  (svd_S A).[2] < epsilon ->
  SolveSmall3x3 A b = [0; 0; 0].
Proof.
  intros H0 H1 H2. rewrite SolveSmall3x3_eq.
  unfold pseudo_inverse_values.
  rewrite !pseudo_inverse_entry_small by assumption.
  generalize (svd_V A) (svd_U A). intros V U.
  mat_entries. list_eq ltac:(ring).
Qed.

(** C5 (as amended).  [solve_svd3x3] always returns the vector
    V diag(S+) Ut b, where U, S, V are the factors returned by
    [svd<float>]: U and V are rotations and S_i is the i-th diagonal entry
    of Ut A V, a signed value and not a singular value; S+_i is 0 when S_i
    is below 1e-6, hence also whenever S_i is negative, and 1/S_i
    otherwise.  When the three S_i are below 1e-6, and in particular when
    the three singular values of A are, the result is the zero vector,
    whatever b is. *)
Theorem solve_svd3x3_inverts_signed_values :
  forall (A b : list R),
    SolveSmall3x3 A b
    = Matvec33
        (Matmul33 (svd_V A)
           (Matmul33 (Diag3 (pseudo_inverse_values (svd_S A)))
              (T33 (svd_U A))))
        b
    /\ is_rotation (svd_U A) /\ is_rotation (svd_V A)
    /\ svd_S A
       = [(Matmul33 (T33 (svd_U A)) (Matmul33 (as_matrix A) (svd_V A))).[0];
          (Matmul33 (T33 (svd_U A)) (Matmul33 (as_matrix A) (svd_V A))).[4];
          (Matmul33 (T33 (svd_U A)) (Matmul33 (as_matrix A) (svd_V A))).[8]]
    /\ (forall s, (s < epsilon -> pseudo_inverse_entry s = 0)
                  /\ (~ s < epsilon -> pseudo_inverse_entry s = 1 / s))
    /\ epsilon = 1 / 1000000
    /\ ((svd_S A).[0] < epsilon -> (svd_S A).[1] < epsilon ->
        (svd_S A).[2] < epsilon ->
        SolveSmall3x3 A b = [0; 0; 0])
    /\ (forall sigma,
          singular_values A sigma ->
          sigma.[0] < epsilon -> sigma.[1] < epsilon ->
          sigma.[2] < epsilon ->
          SolveSmall3x3 A b = [0; 0; 0]).
Proof.
  intros A b.
  split; [apply SolveSmall3x3_eq|].
  split; [apply svd_U_rotation|].
  split; [apply svd_V_rotation|].
  split; [apply svd_S_diagonal|].
  split.
  { intros s. split.
    - apply pseudo_inverse_entry_small.
    - apply pseudo_inverse_entry_large. }
  split; [unfold epsilon; lra|].
  split; [apply all_dropped_gives_zero|].
  intros sigma Hs H0 H1 H2.
  assert (He : 0 < epsilon) by (unfold epsilon; lra).
  destruct (returned_values_below_singular_bound A sigma epsilon Hs He H0 H1
              H2) as (B0 & B1 & B2).
  now apply all_dropped_gives_zero.
Qed.

Lemma zero_matrix_singular_values : singular_values (zeros 9) [0; 0; 0].
Proof.
  unfold singular_values, at_. cbn [nth].
  split; [lra|split; [lra|split; [lra|]]].
  exists Eye3. split; unfold zeros; cbn [repeat]; mat_eq.
Qed.

(** Witness for C5: the zero matrix, whose singular values are 0. *)
Lemma solve_svd3x3_inverts_signed_values_witness :
  SolveSmall3x3 (zeros 9) [1; 2; 3] = [0; 0; 0].
Proof.
  apply (solve_svd3x3_inverts_signed_values (zeros 9) [1; 2; 3])
    with (sigma := [0; 0; 0]).
  - exact zero_matrix_singular_values.
  - unfold at_, epsilon. cbn [nth]. lra.
  - unfold at_, epsilon. cbn [nth]. lra.
  - unfold at_, epsilon. cbn [nth]. lra.
Defined.

Lemma qr_givens_negative (app : R) : app < 0 -> qr_givens app 0 = (-1, 0).
Proof.
  intros Happ.
  pose proof (qr_givens_unit app 0) as Hu.
  unfold qr_givens in *. cbv zeta in *.
  assert (Hs : sel (Rgeb (0 * 0) gsmall_number) 0 0 = 0)
    by (destruct (Rgeb (0 * 0) gsmall_number); reflexivity).
  rewrite Hs in *.
  assert (Hm : Rgeb app 0 = false).
  { unfold Rgeb. destruct (Rge_dec app 0); [lra | reflexivity]. }
  rewrite Hm in *. cbv [sel] in *.
  set (sh := (Rmax (Rmax (0 - app) app) gsmall_number + _)
             * rsqrt_refined _) in *.
  set (ch := 0 * rsqrt_refined _) in *.
  assert (Hch : ch = 0) by (unfold ch; ring).
  rewrite Hch in *.
  assert (H2 : (sh * sh) * (sh * sh) = 1) by (rewrite <- Hu; ring).
  assert (H3 : (sh * sh - 1) * (sh * sh + 1) = 0) by lra.
  assert (Hc1 : sh * sh = 1).
  { apply Rmult_integral in H3. destruct H3 as [H3|H3]; [lra|].
    pose proof (Rle_0_sqr sh) as Hsq. unfold Rsqr in Hsq. lra. }
  apply (f_equal2 pair).
  - rewrite Hc1. ring.
  - ring.
Qed.

(** What [svd<float>] returns for -I. *)
Lemma svd_of_minus_identity :
  svd_of [-1; 0; 0; 0; -1; 0; 0; 0; -1]
  = ([-1; 0; 0; 0; -1; 0; 0; 0; 1], [1; 1; -1], Eye3).
Proof.
  unfold svd_of, at_. cbn [nth]. unfold svd.
  assert (Hne : normal_equations (-1) 0 0 0 (-1) 0 0 0 (-1)
                = mk_jacobi 1 0 0 1 0 1 1 0 0 0)
    by (unfold normal_equations; f_equal; ring).
  rewrite Hne.
  destruct (jacobi_eigen _) as [[st i] ran] eqn:E.
  assert (Hst : st = mk_jacobi 1 0 0 1 0 1 1 0 0 0).
  { change st with (fst (fst (st, i, ran))). rewrite <- E.
    unfold jacobi_eigen. apply for_loop_fixed_point.
    apply jacobi_sweep_diagonal. }
  rewrite Hst, quaternion_to_V_identity.
  cbv beta iota zeta delta [row_times_V].
  rewrite sort_step_sorted by lra. cbv beta iota zeta.
  rewrite sort_step_sorted by lra. cbv beta iota zeta.
  rewrite sort_step_sorted by lra. cbv beta iota zeta.
  repeat match goal with
         | |- context [qr_givens ?x ?y] =>
             replace y with 0 by ring;
             first [ rewrite (qr_givens_zero x) by lra
                   | rewrite (qr_givens_negative x) by lra ];
             cbv beta iota zeta delta [rotate_pair]
         end.
  unfold Eye3.
  repeat apply (f_equal2 pair); list_eq ltac:(ring).
Qed.

Lemma minus_identity_singular_values (sigma : list R) :
  singular_values [-1; 0; 0; 0; -1; 0; 0; 0; -1] sigma ->
  sigma.[0] = 1 /\ sigma.[1] = 1 /\ sigma.[2] = 1.
Proof.
  intros (S0 & S1 & S2 & P & HP & HD).
  assert (HA : Matmul33 (T33 [-1; 0; 0; 0; -1; 0; 0; 0; -1])
                 [-1; 0; 0; 0; -1; 0; 0; 0; -1] = Eye3) by mat_eq.
  rewrite HA, Matmul33_Eye3_l, Matmul33_as_matrix_r, HP in HD.
  unfold Eye3 in HD. injection HD; intros E2 E1 E0.
  repeat split; nra.
Qed.

(** C5 (as stated) fails: the matrix -I has the singular values 1, 1, 1,
    none below 1e-6, but [svd<float>] returns S = (1, 1, -1) for it, and
    the solver drops the third direction: for b = (0, 0, 1) it returns
    (0, 0, 0), where V diag(S+) Ut b with S+ taken from the singular
    values is (0, 0, 1); the returned vector does not solve A x = b. *)
Lemma solve_svd3x3_drops_negative_value :
  singular_values [-1; 0; 0; 0; -1; 0; 0; 0; -1] [1; 1; 1]
  /\ (forall sigma,
        singular_values [-1; 0; 0; 0; -1; 0; 0; 0; -1] sigma ->
        sigma.[0] = 1 /\ sigma.[1] = 1 /\ sigma.[2] = 1)
  /\ svd_S [-1; 0; 0; 0; -1; 0; 0; 0; -1] = [1; 1; -1]
  /\ SolveSmall3x3 [-1; 0; 0; 0; -1; 0; 0; 0; -1] [0; 0; 1] = [0; 0; 0]
  /\ (forall sigma,
        singular_values [-1; 0; 0; 0; -1; 0; 0; 0; -1] sigma ->
        claimed_solution sigma [-1; 0; 0; 0; -1; 0; 0; 0; -1] [0; 0; 1]
        = [0; 0; 1]
        /\ SolveSmall3x3 [-1; 0; 0; 0; -1; 0; 0; 0; -1] [0; 0; 1]
           <> claimed_solution sigma [-1; 0; 0; 0; -1; 0; 0; 0; -1]
                [0; 0; 1])
  /\ Matvec33 [-1; 0; 0; 0; -1; 0; 0; 0; -1]
       (SolveSmall3x3 [-1; 0; 0; 0; -1; 0; 0; 0; -1] [0; 0; 1])
     <> [0; 0; 1].
Proof.
  assert (Hsolve : SolveSmall3x3 [-1; 0; 0; 0; -1; 0; 0; 0; -1] [0; 0; 1]
                   = [0; 0; 0]).
  { rewrite SolveSmall3x3_eq. unfold svd_U, svd_S, svd_V.
    rewrite svd_of_minus_identity. cbn [fst snd].
    unfold pseudo_inverse_values, at_. cbn [nth].
    rewrite (pseudo_inverse_entry_small (-1)) by (unfold epsilon; lra).
    rewrite (pseudo_inverse_entry_large 1) by (unfold epsilon; lra).
    mat_entries. list_eq ltac:(field). }
  assert (Hclaim : forall sigma,
    singular_values [-1; 0; 0; 0; -1; 0; 0; 0; -1] sigma ->
    claimed_solution sigma [-1; 0; 0; 0; -1; 0; 0; 0; -1] [0; 0; 1]
    = [0; 0; 1]).
  { intros sigma Hs.
    destruct (minus_identity_singular_values sigma Hs) as (E0 & E1 & E2).
    unfold claimed_solution, svd_U, svd_V.
    rewrite svd_of_minus_identity. cbn [fst snd].
    unfold pseudo_inverse_values. rewrite E0, E1, E2.
    rewrite (pseudo_inverse_entry_large 1) by (unfold epsilon; lra).
    mat_entries. list_eq ltac:(field). }
  split; [|split; [|split; [|split; [|split]]]].
  - unfold singular_values, at_. cbn [nth].
    split; [lra|split; [lra|split; [lra|]]].
    exists Eye3. split; mat_eq.
  - exact minus_identity_singular_values.
  - unfold svd_S. now rewrite svd_of_minus_identity.
  - exact Hsolve.
  - intros sigma Hs. split; [now apply Hclaim|].
    rewrite Hsolve, (Hclaim sigma Hs).
    intros H. injection H. lra.
  - rewrite Hsolve. mat_entries. intros H. injection H. lra.
Qed.

(** X12.  If the factors returned by [svd<float>] diagonalise A exactly,
    that is Ut A V = diag(S), then U diag(S) Vt gives A back. *)
Theorem diagonalising_factors_reconstruct_input :
  forall A : list R,
    Matmul33 (T33 (svd_U A)) (Matmul33 (as_matrix A) (svd_V A))
    = Diag3 (svd_S A) ->
    Matmul33 (svd_U A) (Matmul33 (Diag3 (svd_S A)) (T33 (svd_V A)))
    = as_matrix A.
Proof.
  intros A H. rewrite <- H.
  destruct (svd_U_rotation A) as (_ & HU & _).
  destruct (svd_V_rotation A) as (_ & HV & _).
  rewrite (Matmul33_assoc (T33 (svd_U A))).
  rewrite (Matmul33_assoc (as_matrix A)), HV, Matmul33_Eye3_r.
  rewrite <- Matmul33_assoc, HU, Matmul33_Eye3_l.
  mat_eq.
Qed.

(** Witness for X12: diag(3, 2, 1). *)
Lemma diagonalising_factors_reconstruct_input_witness :
  Matmul33 (svd_U [3; 0; 0; 0; 2; 0; 0; 0; 1])
    (Matmul33 (Diag3 (svd_S [3; 0; 0; 0; 2; 0; 0; 0; 1]))
       (T33 (svd_V [3; 0; 0; 0; 2; 0; 0; 0; 1])))
  = as_matrix [3; 0; 0; 0; 2; 0; 0; 0; 1].
Proof.
  apply (diagonalising_factors_reconstruct_input [3; 0; 0; 0; 2; 0; 0; 0; 1]).
  unfold svd_U, svd_S, svd_V. rewrite svd_of_sorted_diagonal by lra.
  cbn [fst snd]. mat_eq.
Defined.

Lemma Diag3_pseudo_inverse (S : list R) :
  ~ S.[0] < epsilon -> ~ S.[1] < epsilon -> ~ S.[2] < epsilon ->
  Matmul33 (Diag3 S) (Diag3 (pseudo_inverse_values S)) = Eye3.
Proof.
  intros H0 H1 H2. unfold pseudo_inverse_values, Diag3.
  rewrite !pseudo_inverse_entry_large by assumption.
  unfold epsilon in *.
  generalize dependent S.[0]. generalize dependent S.[1].
  generalize dependent S.[2]. intros s2 H2 s1 H1 s0 H0.
  mat_entries. list_eq ltac:(field; lra).
Qed.

(** X13.  If the returned factors diagonalise A exactly and none of the
    three values of S is below 1e-6, then the vector returned by the
    solver satisfies A x = b. *)
Theorem solver_solves_well_conditioned_systems :
  forall A b : list R,
    Matmul33 (T33 (svd_U A)) (Matmul33 (as_matrix A) (svd_V A))
    = Diag3 (svd_S A) ->
    ~ (svd_S A).[0] < epsilon -> ~ (svd_S A).[1] < epsilon ->
    ~ (svd_S A).[2] < epsilon ->
    Matvec33 A (SolveSmall3x3 A b) = [b.[0]; b.[1]; b.[2]].
Proof.
  intros A b H H0 H1 H2.
  destruct (svd_U_rotation A) as (_ & HU & _).
  assert (HAV : Matmul33 A (svd_V A) = Matmul33 (svd_U A) (Diag3 (svd_S A))).
  { rewrite <- H, <- Matmul33_assoc, HU, Matmul33_Eye3_l,
      as_matrix_Matmul33.
    apply eq_sym, Matmul33_as_matrix_l. }
  rewrite SolveSmall3x3_eq, Matvec33_Matmul33.
  rewrite <- (Matmul33_assoc A), HAV.
  rewrite (Matmul33_assoc (svd_U A)).
  rewrite <- (Matmul33_assoc (Diag3 (svd_S A))).
  rewrite Diag3_pseudo_inverse by assumption.
  rewrite Matmul33_Eye3_l, Matmul33_as_matrix_r, HU.
  apply Matvec33_Eye3.
Qed.

(** Witness for X13: diag(3, 2, 1) with right-hand side (6, 6, 6). *)
Lemma solver_solves_well_conditioned_systems_witness :
  Matvec33 [3; 0; 0; 0; 2; 0; 0; 0; 1]
    (SolveSmall3x3 [3; 0; 0; 0; 2; 0; 0; 0; 1] [6; 6; 6])
  = [[6; 6; 6].[0]; [6; 6; 6].[1]; [6; 6; 6].[2]].
Proof.
  apply (solver_solves_well_conditioned_systems
           [3; 0; 0; 0; 2; 0; 0; 0; 1] [6; 6; 6]);
    unfold svd_U, svd_S, svd_V; rewrite svd_of_sorted_diagonal by lra;
    cbn [fst snd].
  - mat_eq.
  - unfold at_, epsilon. cbn [nth]. lra.
  - unfold at_, epsilon. cbn [nth]. lra.
  - unfold at_, epsilon. cbn [nth]. lra.
Defined.

(** X14.  The solver is linear in the right-hand side: the answer for
    k b + c is k times the answer for b plus the answer for c, entry by
    entry; in particular a zero right-hand side gives the zero vector. *)
Theorem solver_is_linear_in_rhs :
  forall (A b c : list R) (k : R),
    SolveSmall3x3 A [k * b.[0] + c.[0]; k * b.[1] + c.[1]; k * b.[2] + c.[2]]
    = [k * (SolveSmall3x3 A b).[0] + (SolveSmall3x3 A c).[0];
       k * (SolveSmall3x3 A b).[1] + (SolveSmall3x3 A c).[1];
       k * (SolveSmall3x3 A b).[2] + (SolveSmall3x3 A c).[2]]
    /\ SolveSmall3x3 A [0; 0; 0] = [0; 0; 0].
Proof.
  intros A b c k. rewrite !SolveSmall3x3_eq.
  generalize (Matmul33 (svd_V A)
                (Matmul33 (Diag3 (pseudo_inverse_values (svd_S A)))
                   (T33 (svd_U A)))).
  intros M. split; mat_eq.
Qed.

(** ** det3x3 and the small products *)

(** X15.  [det3x3] returns the determinant of its argument plus
    m10 * (m02 + m21 - m02 * m21); it is the determinant exactly when
    that term vanishes, for instance when m10 = 0; on the matrix with
    rows (1, 0, 1), (1, 1, 0), (0, 0, 1), of determinant 1, it returns
    2. *)
Theorem det3x3_differs_from_determinant :
  (forall m00 m01 m02 m10 m11 m12 m20 m21 m22 : R,
     det3x3 m00 m01 m02 m10 m11 m12 m20 m21 m22
     = Det33 [m00; m01; m02; m10; m11; m12; m20; m21; m22]
       + m10 * (m02 + m21 - m02 * m21))
  /\ det3x3 1 0 1 1 1 0 0 0 1 = 2
  /\ Det33 [1; 0; 1; 1; 1; 0; 0; 0; 1] = 1.
Proof.
  split; [|split].
  - intros. unfold det3x3. mat_entries. ring.
  - unfold det3x3. ring.
  - mat_entries. ring.
Qed.

(** X16.  [matmul3x3_3x3] followed by [matmul3x3_3x1] is two
    applications of [matmul3x3_3x1]: (A B) v = A (B v); and the nine
    outputs of [matmul3x3_3x3] are the entries of the matrix product in
    row-major order. *)
Theorem small_products_compose :
  forall a00 a01 a02 a10 a11 a12 a20 a21 a22
         b00 b01 b02 b10 b11 b12 b20 b21 b22 v0 v1 v2 : R,
    (let '(c00, c01, c02, c10, c11, c12, c20, c21, c22) :=
       matmul3x3_3x3 a00 a01 a02 a10 a11 a12 a20 a21 a22
         b00 b01 b02 b10 b11 b12 b20 b21 b22 in
     matmul3x3_3x1 c00 c01 c02 c10 c11 c12 c20 c21 c22 v0 v1 v2)
    = (let '(w0, w1, w2) :=
         matmul3x3_3x1 b00 b01 b02 b10 b11 b12 b20 b21 b22 v0 v1 v2 in
       matmul3x3_3x1 a00 a01 a02 a10 a11 a12 a20 a21 a22 w0 w1 w2)
    /\
    (let '(c00, c01, c02, c10, c11, c12, c20, c21, c22) :=
       matmul3x3_3x3 a00 a01 a02 a10 a11 a12 a20 a21 a22
         b00 b01 b02 b10 b11 b12 b20 b21 b22 in
     [c00; c01; c02; c10; c11; c12; c20; c21; c22])
    = Matmul33 [a00; a01; a02; a10; a11; a12; a20; a21; a22]
        [b00; b01; b02; b10; b11; b12; b20; b21; b22].
Proof.
  intros. split.
  - cbv beta iota zeta delta [matmul3x3_3x3 matmul3x3_3x1].
    repeat apply (f_equal2 pair); ring.
  - cbv beta iota zeta delta [matmul3x3_3x3 matmul3x3_3x1].
    mat_entries. list_eq ltac:(ring).
Qed.

(** ** The 6-DoF kernels: residual and normal matrix *)

(** The quadratic form is unfolded into its 36 products. *)
Ltac open_quadratic_form :=
  cbv beta iota zeta delta
    [quadratic_form6 map seq sumR fold_right Nat.leb Nat.add Nat.mul Nat.div
     Nat.divmod fst snd].

Lemma quadratic_form6_ext (e e' : nat -> R) (x : list R) :
  (forall k, (k < 21)%nat -> e k = e' k) ->
  quadratic_form6 e x = quadratic_form6 e' x.
Proof.
  intros H. open_quadratic_form. rewrite !H by lia. reflexivity.
Qed.

Lemma quadratic_form6_plus (e e' : nat -> R) (x : list R) :
  quadratic_form6 (fun k => e k + e' k) x
  = quadratic_form6 e x + quadratic_form6 e' x.
Proof. open_quadratic_form. ring. Qed.

Lemma quadratic_form6_zero (x : list R) : quadratic_form6 (fun _ => 0) x = 0.
Proof. open_quadratic_form. ring. Qed.

Lemma quadratic_form6_sum {A : Type} (g : A -> nat -> R) (x : list R)
    (l : list A) :
  quadratic_form6 (fun k => sumR (map (fun i => g i k) l)) x
  = sumR (map (fun i => quadratic_form6 (g i) x) l).
Proof.
  induction l as [|i l IH].
  - apply quadratic_form6_zero.
  - cbn [map sumR fold_right].
    fold (sumR (map (fun i => quadratic_form6 (g i) x) l)).
    rewrite <- IH.
    rewrite <- (quadratic_form6_plus (g i)
                  (fun k => sumR (map (fun i => g i k) l))).
    reflexivity.
Qed.

Lemma sumR_nonneg {A : Type} (f : A -> R) (l : list A) :
  (forall i, In i l -> 0 <= f i) -> 0 <= sumR (map f l).
Proof.
  intros H. induction l as [|i l IH]; cbn [map sumR fold_right]; [lra|].
  fold (sumR (map f l)).
  pose proof (H i (or_introl eq_refl)).
  assert (0 <= sumR (map f l)) by (apply IH; intros; apply H; now right).
  lra.
Qed.

Lemma sumR_nonneg_zero {A : Type} (f : A -> R) (l : list A) :
  (forall i, In i l -> 0 <= f i) ->
  sumR (map f l) = 0 -> forall i, In i l -> f i = 0.
Proof.
  intros H. induction l as [|j l IH]; cbn [map sumR fold_right];
    intros Hsum i Hi; [contradiction|].
  fold (sumR (map f l)) in Hsum.
  pose proof (H j (or_introl eq_refl)).
  assert (0 <= sumR (map f l))
    by (apply sumR_nonneg; intros; apply H; now right).
  destruct Hi as [<- | Hi]; [lra|].
  apply IH; [intros; apply H; now right | lra | exact Hi].
Qed.

Ltac open_body_entries :=
  cbv beta iota zeta delta
    [quadratic_form6 dot6 map seq sumR fold_right Nat.leb Nat.add Nat.mul
     Nat.div Nat.divmod fst snd vadd zeros repeat at_ nth].

Lemma PointToPlaneBody_quadratic_form ev op src tgt nrm corr x i :
  quadratic_form6
    (fun k => (PointToPlaneBody ev op src tgt nrm corr (zeros 29) i).[k]) x
  = if p2p_valid ev src tgt nrm corr i
    then op (p2p_residual ev src tgt nrm corr i)
         * (dot6 (p2p_jacobian ev src tgt nrm corr i) x
            * dot6 (p2p_jacobian ev src tgt nrm corr i) x)
    else 0.
Proof.
  unfold PointToPlaneBody, p2p_valid, p2p_jacobian, p2p_residual.
  destruct (GetJacobianPointToPlane _ _ _ _ _ _) as [[valid J] r].
  cbn [fst snd]. destruct valid.
  - generalize (op r). intros w. open_body_entries. ring.
  - open_body_entries. ring.
Qed.

Lemma ColoredICPBody_quadratic_form ev op inp corr x i :
  quadratic_form6
    (fun k => (ColoredICPBody ev op inp corr (zeros 29) i).[k]) x
  = if cicp_valid ev inp corr i
    then op (cicp_residual_G ev inp corr i)
         * (dot6 (cicp_jacobian_G ev inp corr i) x
            * dot6 (cicp_jacobian_G ev inp corr i) x)
         + op (cicp_residual_I ev inp corr i)
           * (dot6 (cicp_jacobian_I ev inp corr i) x
              * dot6 (cicp_jacobian_I ev inp corr i) x)
    else 0.
Proof.
  unfold ColoredICPBody, cicp_valid, cicp_jacobian_G, cicp_jacobian_I,
    cicp_residual_G, cicp_residual_I.
  destruct (GetJacobianColoredICP _ _ _ _) as [[[[valid JG] JI] rG] rI].
  destruct valid.
  - generalize (op rG) (op rI). intros wG wI. open_body_entries. ring.
  - open_body_entries. ring.
Qed.

(** X17.  For non-negative robust weights the 6x6 matrix rebuilt from
    the packed entries 0..20 is positive semidefinite, in both kernels
    and under every schedule: xt M x is the sum over the valid
    observations of w (J . x)^2, resp. of w_G (J_G . x)^2 + w_I (J_I . x)^2,
    hence never negative. *)
Theorem normal_matrix_is_positive_semidefinite :
  forall (ev : PointToPlaneEvaluator) (evc : ColoredICPEvaluator)
         (op : robust_kernel) (s : schedule)
         (src tgt nrm : list R) (inp : ColoredICPInputs)
         (corr : list Z) (n : nat) (x : list R),
    (forall r, 0 <= op r) ->
    quadratic_form6
      (fun k =>
         (ComputePosePointToPlaneKernelCPU ev op s src tgt nrm corr n).[k]) x
    = sumR (map (fun i =>
                   op (p2p_residual ev src tgt nrm corr i)
                   * (dot6 (p2p_jacobian ev src tgt nrm corr i) x
                      * dot6 (p2p_jacobian ev src tgt nrm corr i) x))
                (filter (p2p_valid ev src tgt nrm corr) (seq 0 n)))
    /\ 0 <= quadratic_form6
              (fun k =>
                 (ComputePosePointToPlaneKernelCPU ev op s src tgt nrm corr
                    n).[k]) x
    /\ quadratic_form6
         (fun k => (ComputePoseColoredICPKernelCPU evc op s inp corr n).[k]) x
       = sumR (map (fun i =>
                      op (cicp_residual_G evc inp corr i)
                      * (dot6 (cicp_jacobian_G evc inp corr i) x
                         * dot6 (cicp_jacobian_G evc inp corr i) x)
                      + op (cicp_residual_I evc inp corr i)
                        * (dot6 (cicp_jacobian_I evc inp corr i) x
                           * dot6 (cicp_jacobian_I evc inp corr i) x))
                   (filter (cicp_valid evc inp corr) (seq 0 n)))
    /\ 0 <= quadratic_form6
              (fun k =>
                 (ComputePoseColoredICPKernelCPU evc op s inp corr n).[k]) x.
Proof.
  intros ev evc op s src tgt nrm inp corr n x Hop.
  assert (H1 : quadratic_form6
      (fun k =>
         (ComputePosePointToPlaneKernelCPU ev op s src tgt nrm corr n).[k]) x
    = sumR (map (fun i =>
                   op (p2p_residual ev src tgt nrm corr i)
                   * (dot6 (p2p_jacobian ev src tgt nrm corr i) x
                      * dot6 (p2p_jacobian ev src tgt nrm corr i) x))
                (filter (p2p_valid ev src tgt nrm corr) (seq 0 n)))).
  { rewrite (quadratic_form6_ext _
               (fun k => sumR (map (fun i =>
                  (PointToPlaneBody ev op src tgt nrm corr (zeros 29) i).[k])
                  (seq 0 n))))
      by (intros k Hk; apply PointToPlaneKernel_entry; lia).
    rewrite (quadratic_form6_sum
               (fun i k =>
                  (PointToPlaneBody ev op src tgt nrm corr (zeros 29) i).[k])).
    rewrite sumR_filter. apply sumR_ext. intros i _.
    apply PointToPlaneBody_quadratic_form. }
  assert (H2 : quadratic_form6
         (fun k => (ComputePoseColoredICPKernelCPU evc op s inp corr n).[k]) x
       = sumR (map (fun i =>
                      op (cicp_residual_G evc inp corr i)
                      * (dot6 (cicp_jacobian_G evc inp corr i) x
                         * dot6 (cicp_jacobian_G evc inp corr i) x)
                      + op (cicp_residual_I evc inp corr i)
                        * (dot6 (cicp_jacobian_I evc inp corr i) x
                           * dot6 (cicp_jacobian_I evc inp corr i) x))
                   (filter (cicp_valid evc inp corr) (seq 0 n)))).
  { rewrite (quadratic_form6_ext _
               (fun k => sumR (map (fun i =>
                  (ColoredICPBody evc op inp corr (zeros 29) i).[k])
                  (seq 0 n))))
      by (intros k Hk; apply ColoredICPKernel_entry; lia).
    rewrite (quadratic_form6_sum
               (fun i k => (ColoredICPBody evc op inp corr (zeros 29) i).[k])).
    rewrite sumR_filter. apply sumR_ext. intros i _.
    apply ColoredICPBody_quadratic_form. }
  split; [exact H1|split; [|split; [exact H2|]]].
  - rewrite H1. apply sumR_nonneg. intros i _.
    apply Rmult_le_pos; [apply Hop|]. apply Rle_0_sqr.
  - rewrite H2. apply sumR_nonneg. intros i _.
    apply Rplus_le_le_0_compat;
      (apply Rmult_le_pos; [apply Hop|]; apply Rle_0_sqr).
Qed.

Lemma GMLoss_nonneg (r : R) : 0 <= GMLoss 1 r.
Proof.
  unfold GMLoss. apply Rmult_le_pos; [lra|].
  apply Rlt_le, Rinv_0_lt_compat.
  pose proof (Rle_0_sqr r) as H. unfold Rsqr in H. nra.
Qed.

(** Witness for X17: one observation under the Geman-McClure kernel. *)
Lemma normal_matrix_is_positive_semidefinite_witness :
  0 <= quadratic_form6
         (fun k =>
            (ComputePosePointToPlaneKernelCPU textbook_point_to_plane
               (GMLoss 1) Serial [0; 0; 2] [0; 0; 0] [0; 0; 1] [0%Z] 1).[k])
         [1; 2; 3; 4; 5; 6].
Proof.
  apply (normal_matrix_is_positive_semidefinite textbook_point_to_plane
           sample_colored_icp (GMLoss 1) Serial [0; 0; 2] [0; 0; 0]
           [0; 0; 1] sample_colored_inputs [0%Z] 1 [1; 2; 3; 4; 5; 6]).
  exact GMLoss_nonneg.
Defined.

Lemma sumR_all_zero {A : Type} (f : A -> R) (l : list A) :
  (forall i, In i l -> f i = 0) -> sumR (map f l) = 0.
Proof.
  intros H. rewrite (sumR_ext f (fun _ => 0)) by exact H. apply sumR_zero.
Qed.

Lemma square_zero (x : R) : x * x = 0 -> x = 0.
Proof. intros H. apply Rmult_integral in H. tauto. Qed.

(** X18.  Entry 27 is never negative, and it is zero exactly when every
    valid observation has residual zero (both residuals, for colored
    ICP); this holds in both kernels, whatever the robust kernel and the
    schedule. *)
Theorem residual_vanishes_only_at_a_perfect_fit :
  forall (ev : PointToPlaneEvaluator) (evc : ColoredICPEvaluator)
         (op : robust_kernel) (s : schedule)
         (src tgt nrm : list R) (inp : ColoredICPInputs)
         (corr : list Z) (n : nat),
    0 <= (ComputePosePointToPlaneKernelCPU ev op s src tgt nrm corr n).[27]
    /\ ((ComputePosePointToPlaneKernelCPU ev op s src tgt nrm corr n).[27] = 0
        <-> forall i, In i (filter (p2p_valid ev src tgt nrm corr) (seq 0 n))
                      -> p2p_residual ev src tgt nrm corr i = 0)
    /\ 0 <= (ComputePoseColoredICPKernelCPU evc op s inp corr n).[27]
    /\ ((ComputePoseColoredICPKernelCPU evc op s inp corr n).[27] = 0
        <-> forall i, In i (filter (cicp_valid evc inp corr) (seq 0 n))
                      -> cicp_residual_G evc inp corr i = 0
                         /\ cicp_residual_I evc inp corr i = 0).
Proof.
  intros ev evc op s src tgt nrm inp corr n.
  assert (H1 : (ComputePosePointToPlaneKernelCPU ev op s src tgt nrm corr
                  n).[27]
               = sumR (map (fun i => p2p_residual ev src tgt nrm corr i
                                     * p2p_residual ev src tgt nrm corr i)
                           (filter (p2p_valid ev src tgt nrm corr)
                              (seq 0 n)))).
  { rewrite PointToPlaneKernel_entry by lia.
    rewrite sumR_filter. apply sumR_ext. intros i _.
    apply PointToPlaneBody_entry27. }
  assert (H2 : (ComputePoseColoredICPKernelCPU evc op s inp corr n).[27]
               = sumR (map (fun i => cicp_residual_G evc inp corr i
                                     * cicp_residual_G evc inp corr i
                                     + cicp_residual_I evc inp corr i
                                       * cicp_residual_I evc inp corr i)
                           (filter (cicp_valid evc inp corr) (seq 0 n)))).
  { rewrite ColoredICPKernel_entry by lia.
    rewrite sumR_filter. apply sumR_ext. intros i _.
    apply ColoredICPBody_entry27. }
  rewrite H1, H2.
  assert (Hsq : forall x, 0 <= x * x) by (intros x; apply Rle_0_sqr).
  split; [|split; [|split]].
  - apply sumR_nonneg. intros i _. apply Hsq.
  - split.
    + intros Hz i Hi. apply square_zero.
      apply (sumR_nonneg_zero
               (fun i => p2p_residual ev src tgt nrm corr i
                         * p2p_residual ev src tgt nrm corr i)
               _ (fun j _ => Hsq _) Hz i Hi).
    + intros Hz. apply sumR_all_zero. intros i Hi. rewrite (Hz i Hi). ring.
  - apply sumR_nonneg. intros i _.
    apply Rplus_le_le_0_compat; apply Hsq.
  - split.
    + intros Hz i Hi.
      pose proof (sumR_nonneg_zero
               (fun i => cicp_residual_G evc inp corr i
                         * cicp_residual_G evc inp corr i
                         + cicp_residual_I evc inp corr i
                           * cicp_residual_I evc inp corr i)
               _ (fun j _ => Rplus_le_le_0_compat _ _ (Hsq _) (Hsq _))
               Hz i Hi) as Hsum.
      cbv beta in Hsum.
      pose proof (Hsq (cicp_residual_G evc inp corr i)).
      pose proof (Hsq (cicp_residual_I evc inp corr i)).
      split; apply square_zero; lra.
    + intros Hz. apply sumR_all_zero. intros i Hi.
      destruct (Hz i Hi) as [-> ->]. ring.
Qed.

(** ** Colour gradients *)

(** A zero right-hand side is solved by the zero vector. *)
Lemma solve_svd3x3_zero_rhs a11 a12 a13 a21 a22 a23 a31 a32 a33 :
  solve_svd3x3 a11 a12 a13 a21 a22 a23 a31 a32 a33 0 0 0 = (0, 0, 0).
Proof.
  unfold solve_svd3x3.
  destruct (svd _ _ _ _ _ _ _ _ _) as [[U S0] V].
  cbv beta iota zeta delta [matmul3x3_3x3 matmul3x3_3x1].
  repeat apply (f_equal2 pair); ring.
Qed.

(** Over neighbours of the same intensity the right-hand side stays
    zero. *)
Lemma gradient_neighbour_loop_zero_rhs points colors indices offset nc vt nt
    s0 it :
  forall (fuel : nat) (i : Z) (AtA Atb : list R),
    (forall j, (i <= j < nc)%Z ->
       intensity colors (rdi indices (offset + j)) = it) ->
    Atb.[0] = 0 -> Atb.[1] = 0 -> Atb.[2] = 0 ->
    let Atb' := snd (gradient_neighbour_loop fuel points colors indices
                       offset nc vt nt s0 it i AtA Atb) in
    Atb'.[0] = 0 /\ Atb'.[1] = 0 /\ Atb'.[2] = 0.
Proof.
  induction fuel as [|fuel IH]; intros i AtA Atb Hint H0 H1 H2.
  - cbn. auto.
  - cbn [gradient_neighbour_loop].
    destruct (i <? nc)%Z eqn:Hlt; [|cbn; auto].
    apply Z.ltb_lt in Hlt.
    destruct (3 * rdi indices (offset + i) =? -1)%Z; [cbn; auto|].
    cbv zeta. apply IH.
    + intros j Hj. apply Hint. lia.
    + unfold add_at, at_ in *; cbn [map seq nth Nat.eqb].
      pose proof (Hint i ltac:(lia)) as Hi. unfold intensity in Hi.
      rewrite Z.add_0_r. rewrite Hi. rewrite H0. ring.
    + unfold add_at, at_ in *; cbn [map seq nth Nat.eqb].
      pose proof (Hint i ltac:(lia)) as Hi. unfold intensity in Hi.
      rewrite Z.add_0_r. rewrite Hi. rewrite H1. ring.
    + unfold add_at, at_ in *; cbn [map seq nth Nat.eqb].
      pose proof (Hint i ltac:(lia)) as Hi. unfold intensity in Hi.
      rewrite Z.add_0_r. rewrite Hi. rewrite H2. ring.
Qed.

Lemma ColorGradientPoint_uniform points normals colors indices counts max_nn
    w :
  neighbours_share_intensity colors indices max_nn (rdi counts w) w ->
  ColorGradientPoint points normals colors indices counts max_nn w
  = [0; 0; 0].
Proof.
  intros Hshare. unfold ColorGradientPoint.
  destruct (rdi counts w >=? 4)%Z; [|reflexivity].
  unfold ColorGradientSystem, ColorGradientNeighbourSums.
  match goal with
  | |- context [gradient_neighbour_loop ?f ?p ?c ?ix ?o ?n ?vt ?nt ?s ?it ?i
                  ?A ?b] =>
      pose proof (gradient_neighbour_loop_zero_rhs p c ix o n vt nt s it f i
                    A b) as Hloop;
      destruct (gradient_neighbour_loop f p c ix o n vt nt s it i A b)
        as [[i' AtA] Atb]
  end.
  cbn [snd] in Hloop. cbv zeta in Hloop.
  destruct Hloop as (H0 & H1 & H2).
  - intros j Hj. rewrite Hshare by lia. reflexivity.
  - reflexivity.
  - reflexivity.
  - reflexivity.
  - cbv zeta. rewrite H0, H1, H2, solve_svd3x3_zero_rhs. reflexivity.
Qed.

Lemma flat_map_zero_chunks (f : nat -> list R) :
  forall (n start : nat),
    (forall w, (start <= w < start + n)%nat -> f w = [0; 0; 0]) ->
    flat_map f (seq start n) = zeros (3 * n).
Proof.
  induction n as [|n IH]; intros start H; [reflexivity|].
  cbn [seq flat_map]. rewrite H by lia. rewrite IH by (intros; apply H; lia).
  replace (3 * S n)%nat with (3 + 3 * n)%nat by lia. reflexivity.
Qed.

(** X19.  When every point shares its intensity with its counted
    neighbours, the colour-gradient estimator returns the zero gradient
    for every point, whatever the points, the normals and the neighbour
    counts are. *)
Theorem uniform_intensity_gives_zero_gradients :
  forall (nns : NearestNeighborSearch) (points normals colors : list R)
         (radius : R) (max_nn : Z) (indices : list Z) (distance : list R)
         (counts : list Z),
    HybridIndex nns points radius = true ->
    HybridSearch nns points radius max_nn = (indices, distance, counts) ->
    (forall w, (w < GetLength points)%nat ->
       neighbours_share_intensity colors indices max_nn
         (rdi counts (Z.of_nat w)) (Z.of_nat w)) ->
    EstimatePointWiseColorGradientCPU nns points normals colors radius max_nn
    = Some (zeros (3 * GetLength points)).
Proof.
  intros nns points normals colors radius max_nn indices distance counts
    Hidx Hsearch Hshare.
  unfold EstimatePointWiseColorGradientCPU. rewrite Hidx, Hsearch.
  cbn [negb]. f_equal. apply flat_map_zero_chunks.
  intros w Hw. apply ColorGradientPoint_uniform. apply Hshare. lia.
Qed.

Lemma grey_patch_shares_intensity :
  forall w, (w < GetLength patch_points)%nat ->
    neighbours_share_intensity grey_patch_colors
      [0; 1; 2; 3;   1; 0; 2; 3;   2; 0; 1; 3;   3; 0; 1; 2]%Z 4
      (rdi [4; 4; 4; 4]%Z (Z.of_nat w)) (Z.of_nat w).
Proof.
  intros w Hw j Hj.
  assert (Hn : GetLength patch_points = 4%nat) by reflexivity.
  rewrite Hn in Hw.
  destruct w as [|[|[|[|w]]]]; [| | | |lia].
  all: assert (Hc : j = 1%Z \/ j = 2%Z \/ j = 3%Z)
         by (change (rdi _ _) with 4%Z in Hj; lia).
  all: destruct Hc as [-> | [-> | ->]].
  all: unfold intensity, rd, rdi, grey_patch_colors.
  all: eval_ints; cbn [nth]; reflexivity.
Qed.

(** Witness for X19: the sample patch in one shade of grey. *)
Lemma uniform_intensity_gives_zero_gradients_witness :
  EstimatePointWiseColorGradientCPU patch_search patch_points patch_normals
    grey_patch_colors 1 4
  = Some (zeros (3 * GetLength patch_points)).
Proof.
  apply (uniform_intensity_gives_zero_gradients patch_search patch_points
           patch_normals grey_patch_colors 1 4
           [0; 1; 2; 3;   1; 0; 2; 3;   2; 0; 1; 3;   3; 0; 1; 2]%Z
           (zeros 16) [4; 4; 4; 4]%Z).
  - reflexivity.
  - reflexivity.
  - exact grey_patch_shares_intensity.
Defined.

(** Every neighbour row lies in the tangent plane of a unit normal, so
    the sums keep no component along the normal. *)
Lemma gradient_neighbour_loop_tangent points colors indices offset nc vt nt
    it :
  nt.[0] * nt.[0] + nt.[1] * nt.[1] + nt.[2] * nt.[2] = 1 ->
  forall (fuel : nat) (i : Z) (AtA Atb : list R),
    normal_annihilated nt AtA Atb ->
    let '(_, AtA', Atb') :=
      gradient_neighbour_loop fuel points colors indices offset nc vt nt
        (vt.[0] * nt.[0] + vt.[1] * nt.[1] + vt.[2] * nt.[2]) it i AtA Atb in
    normal_annihilated nt AtA' Atb'.
Proof.
  intros Hunit.
  induction fuel as [|fuel IH]; intros i AtA Atb Hinv.
  - exact Hinv.
  - cbn [gradient_neighbour_loop].
    destruct (i <? nc)%Z; [|exact Hinv].
    destruct (3 * rdi indices (offset + i) =? -1)%Z; [exact Hinv|].
    cbv zeta. apply IH.
    destruct Hinv as (I0 & I1 & I2 & I3).
    unfold normal_annihilated, add_at, at_ in *.
    cbn [map seq nth Nat.eqb].
    set (px := rd points (3 * rdi indices (offset + i))) in *.
    set (py := rd points (3 * rdi indices (offset + i) + 1)) in *.
    set (pz := rd points (3 * rdi indices (offset + i) + 2)) in *.
    generalize dependent (nth 0 nt 0). intros n0.
    generalize dependent (nth 1 nt 0). intros n1.
    generalize dependent (nth 2 nt 0). intros n2.
    intros Hunit I0 I1 I2 I3.
    repeat split; nsatz.
Qed.

(** X20.  For a point with a unit normal n, at least 4 neighbours and
    valid counted slots, the system (AtA, Atb) handed to the solver has n
    as eigenvector with eigenvalue (neighbour_count - 1)^2, its
    right-hand side has no component along n, and so every exact solution
    of AtA x = Atb is tangent to the surface: x . n = 0. *)
Theorem color_gradient_system_is_tangent :
  forall points normals colors indices max_nn nc w,
    (4 <= nc)%Z ->
    counted_neighbours_valid indices max_nn nc w ->
    dot3 (point_normal normals w) (point_normal normals w) = 1 ->
    let nt := point_normal normals w in
    let '(AtA, Atb) :=
      ColorGradientSystem points normals colors indices max_nn nc w in
    Matvec33 AtA nt
    = [IZR (nc - 1) * IZR (nc - 1) * nt.[0];
       IZR (nc - 1) * IZR (nc - 1) * nt.[1];
       IZR (nc - 1) * IZR (nc - 1) * nt.[2]]
    /\ dot3 Atb nt = 0
    /\ (forall x, Matvec33 AtA x = [Atb.[0]; Atb.[1]; Atb.[2]] ->
                  dot3 x nt = 0).
Proof.
  intros points normals colors indices max_nn nc w Hnc Hvalid Hunit.
  cbv zeta.
  destruct (ColorGradientNeighbourSums points normals colors indices max_nn
              nc w) as [[i AtA0] Atb0] eqn:Hloop.
  destruct (ColorGradientSystem_eq points normals colors indices max_nn nc w
              Hnc Hvalid i AtA0 Atb0 Hloop) as [_ Hsys].
  rewrite Hsys.
  assert (Hinv : normal_annihilated (point_normal normals w) AtA0 Atb0).
  { unfold ColorGradientNeighbourSums in Hloop.
    match type of Hloop with
    | gradient_neighbour_loop ?f ?p ?c ?ix ?o ?n ?vt ?nt ?s ?it ?i0 ?A ?b = _
      => pose proof (gradient_neighbour_loop_tangent p c ix o n vt nt it
                       Hunit f i0 A b) as Ht
    end.
    cbv zeta in Hloop. rewrite Hloop in Ht. apply Ht.
    unfold normal_annihilated, zeros, at_. cbn [repeat nth].
    repeat split; ring. }
  assert (Hk : IZR (nc - 1) <> 0).
  { assert (3 <= IZR (nc - 1)) by (apply IZR_le; lia). lra. }
  destruct Hinv as (I0 & I1 & I2 & I3).
  unfold dot3, add_constraint_row, orthogonal_constraint_row, Matvec33 in *.
  generalize dependent (IZR (nc - 1)). intros k.
  generalize dependent (point_normal normals w). intros nt.
  unfold at_ in *.
  generalize dependent (nth 0 nt 0). intros n0.
  generalize dependent (nth 1 nt 0). intros n1.
  generalize dependent (nth 2 nt 0). intros n2.
  intros. cbn [map seq nth Nat.eqb Nat.add Nat.mul].
  split; [|split].
  - list_eq ltac:(nsatz).
  - assumption.
  - intros x Hx. injection Hx; clear Hx; intros E2 E1 E0.
    assert (Hz : k * k * (nth 0 x 0 * n0 + nth 1 x 0 * n1 + nth 2 x 0 * n2)
                 = 0) by nsatz.
    apply Rmult_integral in Hz. destruct Hz as [Hz|Hz]; [|exact Hz].
    apply Rmult_integral in Hz. tauto.
Qed.

Lemma patch_normal_is_unit :
  dot3 (point_normal patch_normals 0) (point_normal patch_normals 0) = 1.
Proof.
  unfold dot3, point_normal, at_, rd, patch_normals.
  eval_ints. cbn [nth]. ring.
Qed.

(** Witness for X20: the sample patch, whose normal is (0, 0, 1). *)
Lemma color_gradient_system_is_tangent_witness :
  let nt := point_normal patch_normals 0 in
  let '(AtA, Atb) :=
    ColorGradientSystem patch_points patch_normals patch_colors patch_indices
      4 4 0 in
  Matvec33 AtA nt
  = [IZR (4 - 1) * IZR (4 - 1) * nt.[0];
     IZR (4 - 1) * IZR (4 - 1) * nt.[1];
     IZR (4 - 1) * IZR (4 - 1) * nt.[2]]
  /\ dot3 Atb nt = 0
  /\ (forall x, Matvec33 AtA x = [Atb.[0]; Atb.[1]; Atb.[2]] ->
                dot3 x nt = 0).
Proof.
  apply (color_gradient_system_is_tangent patch_points patch_normals
           patch_colors patch_indices 4 4 0).
  - lia.
  - exact patch_neighbours_valid.
  - exact patch_normal_is_unit.
Defined.

(** ** ProjectCPU *)

Lemma pixel_eqb_eq (p q : pixel) : pixel_eqb p q = true <-> p = q.
Proof.
  unfold pixel_eqb. destruct p as [a b], q as [c d]. cbn [fst snd].
  rewrite andb_true_iff, !Z.eqb_eq. split.
  - intros [-> ->]. reflexivity.
  - intros H. injection H. auto.
Qed.

(** The cell [q] after one body is the cell before, stepped. *)
Lemma ProjectBody_cell ti InB points colors depth_scale depth_max i img q :
  cell (ProjectBody ti InB points colors depth_scale depth_max i img) q
  = pixel_step ti InB points colors depth_scale depth_max q (cell img q) i.
Proof.
  unfold ProjectBody, pixel_step, lands_on, projects_to, projected_depth,
    camera_point, cell.
  destruct img as [depth image_colors]. cbn [fst snd].
  destruct (RigidTransform ti _ _ _) as [[xc yc] zc].
  destruct (Project ti xc yc zc) as [u v].
  destruct (negb (InB u v) || Rleb zc 0 || Rltb depth_max zc);
    [reflexivity|].
  destruct (pixel_eqb q (trunc u, trunc v)) eqn:Hq.
  - apply pixel_eqb_eq in Hq. subst q.
    destruct (Reqb _ 0 || Rgeb _ _); [|reflexivity].
    cbn [fst snd]. unfold store.
    assert (Hrefl : pixel_eqb (trunc u, trunc v) (trunc u, trunc v) = true)
      by now apply pixel_eqb_eq.
    destruct colors; rewrite ?Hrefl; reflexivity.
  - destruct (Reqb _ 0 || Rgeb _ _); [|reflexivity].
    cbn [fst snd]. unfold store.
    destruct colors; rewrite ?Hq; reflexivity.
Qed.

Lemma ProjectCPU_cell ti InB points colors depth_scale depth_max q :
  forall order img,
    cell (ProjectCPU ti InB order img points colors depth_scale depth_max) q
    = fold_left (pixel_step ti InB points colors depth_scale depth_max q)
        order (cell img q).
Proof.
  unfold ProjectCPU. induction order as [|i order IH]; intros img.
  - reflexivity.
  - cbn [fold_left]. rewrite IH, ProjectBody_cell. reflexivity.
Qed.

(** A point that lands on a pixel carries a positive depth value. *)
Lemma lands_on_positive ti InB points depth_scale depth_max q i :
  0 < depth_scale ->
  lands_on ti InB points depth_max q i = true ->
  0 < projected_depth ti points depth_scale i.
Proof.
  intros Hs. unfold lands_on, projects_to, projected_depth.
  destruct (camera_point ti points i) as [[xc yc] zc].
  destruct (Project ti xc yc zc) as [u v].
  destruct (negb (InB u v)); [discriminate|]. cbn [orb].
  unfold Rleb. destruct (Rle_dec zc 0); [discriminate|].
  intros _. apply Rmult_lt_0_compat; lra.
Qed.

Ltac decide_reals :=
  unfold Reqb, Rgeb;
  repeat match goal with
         | |- context [Req_dec_T ?x ?y] => destruct (Req_dec_T x y)
         | |- context [Rge_dec ?x ?y] => destruct (Rge_dec x y)
         end;
  cbn [orb fst snd]; try reflexivity; try lra.

Lemma pixel_step_depth ti InB points colors depth_scale depth_max q st st' i :
  fst st = fst st' ->
  fst (pixel_step ti InB points colors depth_scale depth_max q st i)
  = fst (pixel_step ti InB points colors depth_scale depth_max q st' i).
Proof.
  intros H. unfold pixel_step. rewrite H.
  destruct (lands_on _ _ _ _ _ _); [|exact H].
  cbv zeta. destruct (Reqb _ 0 || Rgeb _ _); [reflexivity | exact H].
Qed.

Lemma pixel_step_depth_commutes ti InB points colors depth_scale depth_max q
    st i j :
  0 < depth_scale ->
  fst (pixel_step ti InB points colors depth_scale depth_max q
         (pixel_step ti InB points colors depth_scale depth_max q st i) j)
  = fst (pixel_step ti InB points colors depth_scale depth_max q
           (pixel_step ti InB points colors depth_scale depth_max q st j) i).
Proof.
  intros Hs. unfold pixel_step.
  destruct (lands_on ti InB points depth_max q i) eqn:Hi;
    destruct (lands_on ti InB points depth_max q j) eqn:Hj;
    try reflexivity.
  pose proof (lands_on_positive ti InB points depth_scale depth_max q i Hs Hi).
  pose proof (lands_on_positive ti InB points depth_scale depth_max q j Hs Hj).
  cbv zeta.
  generalize dependent (projected_depth ti points depth_scale i).
  generalize dependent (projected_depth ti points depth_scale j).
  intros dj Hdj di Hdi. destruct st as [cur col]. cbn [fst snd].
  unfold Reqb, Rgeb.
  destruct (Req_dec_T cur 0), (Rge_dec cur di), (Rge_dec cur dj);
    cbn [orb fst snd];
    repeat match goal with
           | |- context [Req_dec_T ?x ?y] => destruct (Req_dec_T x y)
           | |- context [Rge_dec ?x ?y] => destruct (Rge_dec x y)
           end;
    cbn [orb fst snd]; try reflexivity; lra.
Qed.

Lemma fold_pixel_step_depth ti InB points colors depth_scale depth_max q l :
  forall st st',
    fst st = fst st' ->
    fst (fold_left (pixel_step ti InB points colors depth_scale depth_max q)
           l st)
    = fst (fold_left (pixel_step ti InB points colors depth_scale depth_max q)
             l st').
Proof.
  induction l as [|i l IH]; intros st st' H; [exact H|].
  cbn [fold_left]. apply IH. now apply pixel_step_depth.
Qed.

Lemma fold_pixel_step_permutation ti InB points colors depth_scale depth_max
    q l1 l2 :
  0 < depth_scale ->
  Permutation l1 l2 ->
  forall st st',
    fst st = fst st' ->
    fst (fold_left (pixel_step ti InB points colors depth_scale depth_max q)
           l1 st)
    = fst (fold_left (pixel_step ti InB points colors depth_scale depth_max q)
             l2 st').
Proof.
  intros Hs Hperm.
  induction Hperm as [|x l l' _ IH|x y l|l l' l'' _ IH1 _ IH2];
    intros st st' H.
  - exact H.
  - cbn [fold_left]. apply IH. now apply pixel_step_depth.
  - cbn [fold_left]. apply fold_pixel_step_depth.
    rewrite pixel_step_depth_commutes by exact Hs.
    apply pixel_step_depth. now apply pixel_step_depth.
  - rewrite (IH1 st st eq_refl). now apply IH2.
Qed.

(** X21.  With a positive depth scale, the depth image produced by
    ProjectCPU does not depend on the order in which the points reach the
    critical section: any two orders of the same points give the same
    depth in every cell. *)
Theorem projected_depth_is_order_independent :
  forall ti InB (o1 o2 : list nat) (img : images) points colors
         depth_scale depth_max (q : pixel),
    0 < depth_scale ->
    Permutation o1 o2 ->
    fst (ProjectCPU ti InB o1 img points colors depth_scale depth_max) q
    = fst (ProjectCPU ti InB o2 img points colors depth_scale depth_max) q.
Proof.
  intros ti InB o1 o2 img points colors depth_scale depth_max q Hs Hperm.
  change (fst (cell (ProjectCPU ti InB o1 img points colors depth_scale
                       depth_max) q)
          = fst (cell (ProjectCPU ti InB o2 img points colors depth_scale
                         depth_max) q)).
  rewrite !ProjectCPU_cell.
  now apply fold_pixel_step_permutation.
Qed.

Lemma pixel_step_miss ti InB points colors depth_scale depth_max q st i :
  lands_on ti InB points depth_max q i = false ->
  pixel_step ti InB points colors depth_scale depth_max q st i = st.
Proof. intros H. unfold pixel_step. now rewrite H. Qed.

Lemma pixel_step_hit ti InB points colors depth_scale depth_max q st i :
  lands_on ti InB points depth_max q i = true ->
  pixel_step ti InB points colors depth_scale depth_max q st i
  = if Reqb (fst st) 0
       || Rgeb (fst st) (projected_depth ti points depth_scale i)
    then (projected_depth ti points depth_scale i,
          match colors with
          | Some c => point_color c i
          | None => snd st
          end)
    else st.
Proof. intros H. unfold pixel_step. now rewrite H. Qed.

Lemma fold_pixel_step_nearest ti InB points colors depth_scale depth_max q
    (st0 : R * (Z * Z * Z)) :
  0 < depth_scale ->
  fst st0 = 0 ->
  forall order,
    let hits := filter (lands_on ti InB points depth_max q) order in
    let final :=
      fold_left (pixel_step ti InB points colors depth_scale depth_max q)
        order st0 in
    (hits = [] /\ final = st0) \/
    (exists i,
        In i hits /\
        fst final = projected_depth ti points depth_scale i /\
        (forall j, In j hits ->
           projected_depth ti points depth_scale i
           <= projected_depth ti points depth_scale j) /\
        snd final = match colors with
                    | Some c => point_color c i
                    | None => snd st0
                    end).
Proof.
  intros Hs H0 order.
  induction order as [|k l IH] using rev_ind.
  - left. split; reflexivity.
  - cbv zeta in *. rewrite filter_app, fold_left_app. cbn [filter fold_left].
    set (F := fold_left _ l st0) in *.
    destruct (lands_on ti InB points depth_max q k) eqn:Hk.
    + rewrite pixel_step_hit by exact Hk.
      pose proof (lands_on_positive ti InB points depth_scale depth_max q k
                    Hs Hk) as Hdk.
      cbv zeta. right.
      destruct IH as [[Hnil HF] | (i & Hi & Hd & Hmin & Hcol)].
      * rewrite HF, H0, Hnil.
        assert (Hc : Reqb 0 0 || Rgeb 0 (projected_depth ti points
                                           depth_scale k) = true).
        { unfold Reqb. destruct (Req_dec_T 0 0); [reflexivity | lra]. }
        rewrite Hc. exists k. cbn [app fst snd].
        split; [now left|split; [reflexivity|split; [|reflexivity]]].
        intros j [<- | []]. lra.
      * pose proof (lands_on_positive ti InB points depth_scale depth_max q i
                      Hs) as Hdi.
        assert (Hli : lands_on ti InB points depth_max q i = true).
        { apply filter_In in Hi. tauto. }
        specialize (Hdi Hli).
        destruct (Reqb (fst F) 0 || Rgeb (fst F) _) eqn:Hc.
        -- exists k. cbn [fst snd].
           split; [|split; [reflexivity|split]].
           ++ apply in_or_app. right. now left.
           ++ intros j Hj. apply in_app_or in Hj.
              destruct Hj as [Hj | [<- | []]]; [|lra].
              specialize (Hmin j Hj).
              apply orb_true_iff in Hc. rewrite Hd in Hc.
              unfold Reqb, Rgeb in Hc.
              destruct Hc as [Hc | Hc].
              ** destruct (Req_dec_T _ 0); [lra | discriminate].
              ** destruct (Rge_dec _ _); [lra | discriminate].
           ++ destruct colors; [reflexivity|]. exact Hcol.
        -- exists i. split; [|split; [exact Hd|split; [|exact Hcol]]].
           ++ apply in_or_app. now left.
           ++ intros j Hj. apply in_app_or in Hj.
              destruct Hj as [Hj | [<- | []]]; [now apply Hmin|].
              apply orb_false_iff in Hc. rewrite Hd in Hc.
              unfold Rgeb in Hc. destruct Hc as [_ Hc].
              destruct (Rge_dec _ _); [discriminate | lra].
    + rewrite pixel_step_miss by exact Hk. rewrite app_nil_r. exact IH.
Qed.

(** X22.  With a positive depth scale, a cell that starts at depth 0
    either receives no point and keeps its content, or ends with the depth
    of a point that lands on it and is nearest among those that do, and,
    when colours are given, with the colour of that same point. *)
Theorem pixel_holds_nearest_point :
  forall ti InB (order : list nat) (img : images) points colors
         depth_scale depth_max (q : pixel),
    0 < depth_scale ->
    fst img q = 0 ->
    let hits := filter (lands_on ti InB points depth_max q) order in
    let out := ProjectCPU ti InB order img points colors depth_scale
                 depth_max in
    (hits = [] /\ cell out q = cell img q) \/
    (exists i,
        In i hits /\
        fst out q = projected_depth ti points depth_scale i /\
        (forall j, In j hits ->
           projected_depth ti points depth_scale i
           <= projected_depth ti points depth_scale j) /\
        snd out q = match colors with
                    | Some c => point_color c i
                    | None => snd img q
                    end).
Proof.
  intros ti InB order img points colors depth_scale depth_max q Hs H0.
  cbv zeta.
  pose proof (fold_pixel_step_nearest ti InB points colors depth_scale
                depth_max q (cell img q) Hs H0 order) as H.
  cbv zeta in H. rewrite <- ProjectCPU_cell in H. exact H.
Qed.

(** Witness for X21: two points on one line of sight, in both orders. *)
Lemma projected_depth_is_order_independent_witness :
  fst (ProjectCPU sample_camera whole_plane [0; 1]%nat blank_images
         stacked_points None 1 10) (0, 0)%Z
  = fst (ProjectCPU sample_camera whole_plane [1; 0]%nat blank_images
           stacked_points None 1 10) (0, 0)%Z.
Proof.
  apply (projected_depth_is_order_independent sample_camera whole_plane
           [0; 1]%nat [1; 0]%nat blank_images stacked_points None 1 10
           (0, 0)%Z).
  - lra.
  - apply perm_swap.
Defined.

(** Witness for X22: the same two points over blank images. *)
Lemma pixel_holds_nearest_point_witness :
  let hits := filter (lands_on sample_camera whole_plane stacked_points 10
                        (0, 0)%Z) [0; 1]%nat in
  let out := ProjectCPU sample_camera whole_plane [0; 1]%nat blank_images
               stacked_points (Some grey_patch_colors) 1 10 in
  (hits = [] /\ cell out (0, 0)%Z = cell blank_images (0, 0)%Z) \/
  (exists i,
      In i hits /\
      fst out (0, 0)%Z = projected_depth sample_camera stacked_points 1 i /\
      (forall j, In j hits ->
         projected_depth sample_camera stacked_points 1 i
         <= projected_depth sample_camera stacked_points 1 j) /\
      snd out (0, 0)%Z = point_color grey_patch_colors i).
Proof.
  apply (pixel_holds_nearest_point sample_camera whole_plane [0; 1]%nat
           blank_images stacked_points (Some grey_patch_colors) 1 10
           (0, 0)%Z).
  - lra.
  - reflexivity.
Defined.

(** ** The closed-form SVD: order of the columns *)

(** X23.  For every input matrix A, the columns of A V, V being the
    factor returned by [svd<float>], come with non-increasing norms: the
    three compare-and-swap steps sort them. *)
Theorem columns_of_AV_are_sorted :
  forall A : list R,
    column_norm2 (Matmul33 (as_matrix A) (svd_V A)) 1
    <= column_norm2 (Matmul33 (as_matrix A) (svd_V A)) 0
    /\ column_norm2 (Matmul33 (as_matrix A) (svd_V A)) 2
       <= column_norm2 (Matmul33 (as_matrix A) (svd_V A)) 1.
Proof.
  intros A. unfold svd_V, svd_of, as_matrix, at_. cbn [map seq].
  generalize (nth 0 A 0) (nth 1 A 0) (nth 2 A 0) (nth 3 A 0) (nth 4 A 0)
    (nth 5 A 0) (nth 6 A 0) (nth 7 A 0) (nth 8 A 0).
  intros a11 a12 a13 a21 a22 a23 a31 a32 a33. unfold svd.
  destruct (jacobi_eigen _) as [[st i] ran].
  destruct (quaternion_to_V st)
    as [[[[[[[[v11 v12] v13] v21] v22] v23] v31] v32] v33].
  cbv beta iota zeta delta [row_times_V sort_step Rltb].
  repeat match goal with
         | |- context [Rlt_dec ?x ?y] =>
             destruct (Rlt_dec x y); cbv beta iota zeta delta [cswap sel]
         end.
  all: repeat match goal with
              | |- context [qr_givens ?x ?y] =>
                  destruct (qr_givens x y) as [? ?];
                  cbv beta iota zeta delta [rotate_pair]
              end.
  all: cbn [fst snd]; unfold column_norm2; mat_entries.
  all: split; lra.
Qed.
